(** * Substring search: Boyer-Moore matcher and Aho-Corasick automaton

    A shallow embedding of the two Go packages [boyermoore] and
    [ahocorasick], followed by the properties of their tables and of their
    scanning loops.

    Conventions of the embedding.
    - A Go [byte] is an [ascii] (eight bits); byte arithmetic wraps modulo
      256 through [ascii_of_N].
    - A Go [int] is a [Z].  Every integer the code computes is an index, a
      length or a length plus or minus a small constant, so the 64-bit
      wrap-around is never reached and is not written out.
    - A slice is a [list]; indexing outside of it panics, which is the
      [Panic] outcome below.  A fixed array [[256]int] indexed by a byte is
      a total function [byte -> Z]: such an access cannot be out of range.
    - A loop with a data-dependent condition is [while] with fuel; running
      out of fuel is the [OutOfFuel] outcome, and the theorems show that it
      does not occur.  A counting loop over a fixed range is [foldM] over
      the list of its indices. *)

From Stdlib Require Import ZArith Ascii String Lia.
From stdpp Require Import base list strings sorting.

Local Open Scope Z_scope.

(** ** Outcomes of a computation *)

Inductive result (A : Type) : Type :=
| Ok (a : A)
| Panic
| OutOfFuel.
Arguments Ok {A} a.
Arguments Panic {A}.
Arguments OutOfFuel {A}.

Definition bind {A B : Type} (r : result A) (k : A -> result B) : result B :=
  match r with
  | Ok a => k a
  | Panic => Panic
  | OutOfFuel => OutOfFuel
  end.

Notation "'do' x <- e ; k" := (bind e (fun x => k))
  (at level 10, x pattern, e at level 100, k at level 200).

Abbreviation byte := ascii (only parsing).

Definition byteZ (c : byte) : Z := Z.of_N (N_of_ascii c).

(** [len(l)] *)
Abbreviation len l := (Z.of_nat (length l)) (only parsing).

(** [l[i]], panicking outside of [0 <= i < len(l)]. *)
Definition idx {A : Type} (l : list A) (i : Z) : result A :=
  if 0 <=? i then
    match l !! Z.to_nat i with
    | Some x => Ok x
    | None => Panic
    end
  else Panic.

(** [l[i] = x], panicking outside of [0 <= i < len(l)]. *)
Definition set_idx {A : Type} (l : list A) (i : Z) (x : A) : result (list A) :=
  if (0 <=? i) && (i <? len l) then Ok (<[Z.to_nat i := x]> l) else Panic.

(** [t[c] = v] on a [[256]int] table. *)
Definition upd (t : byte -> Z) (c : byte) (v : Z) : byte -> Z :=
  fun c' => if Ascii.eqb c' c then v else t c'.

(** [for cond(s) { s = body(s) }] *)
Fixpoint while {S : Type} (fuel : nat) (cond : S -> result bool)
    (body : S -> result S) (s : S) : result S :=
  match fuel with
  | O => OutOfFuel
  | Datatypes.S k =>
      do b <- cond s;
      if (b : bool) then do s' <- body s; while k cond body s' else Ok s
  end.

(** A counting loop: [body] at each index of [l] in turn. *)
Fixpoint foldM {A S : Type} (body : A -> S -> result S) (l : list A) (s : S)
    : result S :=
  match l with
  | [] => Ok s
  | a :: l' => do s' <- body a s; foldM body l' s'
  end.

(** The ASCII fold used by both packages:
    [if c >= 'A' && c <= 'Z' { c + ('a' - 'A') }]. *)
Definition is_upper (c : byte) : bool :=
  (65 <=? byteZ c) && (byteZ c <=? 90).

Definition to_lower (c : byte) : byte :=
  if is_upper c then ascii_of_N (N_of_ascii c + 32) else c.

(** The byte values [0 .. 255] in increasing order. *)
Definition all_bytes : list byte := map ascii_of_nat (seq 0 256).

(** ** Package boyermoore *)

Module boyermoore.

Record BoyerMoore : Type := mkBoyerMoore {
  pat : list byte;
  ignoreCase : bool;
  bcShift : byte -> Z;
  gsShift : list Z
}.

(** [normChar]: the text byte as it is compared with the pattern. *)
Definition normChar (bm : BoyerMoore) (c : byte) : byte :=
  if ignoreCase bm && is_upper c then ascii_of_N (N_of_ascii c + 32) else c.

(** Second loop of [buildBadCharShift]:
    [for i := 0; i < len(pat); i++ { bcShift[pat[i]] = i }],
    the pattern being consumed from index [i] on. *)
Fixpoint bc_fill (p : list byte) (i : Z) (t : byte -> Z) : byte -> Z :=
  match p with
  | [] => t
  | c :: p' => bc_fill p' (i + 1) (upd t c i)
  end.

Definition buildBadCharShift (bm : BoyerMoore) : BoyerMoore :=
  let t : byte -> Z := fun _ => -1 in
  mkBoyerMoore (pat bm) (ignoreCase bm) (bc_fill (pat bm) 0 t) (gsShift bm).

(** The [suffix] array of [buildGoodSuffixShift]; the loop state is
    [(suffix, g, f)]. *)
Definition suffix_step (p : list byte) (m : Z) (i : Z)
    (st : list Z * Z * Z) : result (list Z * Z * Z) :=
  let '(suffix, g, f) := st in
  do reuse <-
    (if g <? i then
       do x <- idx suffix (i + m - 1 - f); Ok (x <? i - g)
     else Ok false);
  if (reuse : bool) then
    do x <- idx suffix (i + m - 1 - f);
    do suffix <- set_idx suffix i x;
    Ok (suffix, g, f)
  else
    let g := i in
    let f := i in
    do g <- while (Z.to_nat (i + 2))
              (fun g => if 0 <=? g then
                          do a <- idx p g;
                          do b <- idx p (g + m - 1 - f);
                          Ok (Ascii.eqb a b)
                        else Ok false)
              (fun g => Ok (g - 1)) g;
    do suffix <- set_idx suffix i (f - g);
    Ok (suffix, g, f).

Definition compute_suffix (p : list byte) : result (list Z) :=
  let m := len p in
  let suffix := repeat 0 (length p) in
  do suffix <- set_idx suffix (m - 1) m;
  let g := m - 1 in
  let f := m - 1 in
  do st <- foldM (suffix_step p m) (reverse (seqZ 0 (m - 1))) (suffix, g, f);
  Ok (fst (fst st)).

(** The prefix rule: loop state is [(gsShift, j)]. *)
Definition gs_prefix_step (m : Z) (suffix : list Z) (i : Z)
    (st : list Z * Z) : result (list Z * Z) :=
  do x <- idx suffix i;
  if x =? i + 1 then
    while (Z.to_nat m)
      (fun '(gs, j) => Ok (j <? m - 1 - i))
      (fun '(gs, j) =>
         do y <- idx gs j;
         do gs <- (if y =? m then set_idx gs j (m - 1 - i) else Ok gs);
         Ok (gs, j + 1))
      st
  else Ok st.

Definition gs_suffix_step (m : Z) (suffix : list Z) (i : Z)
    (gs : list Z) : result (list Z) :=
  do x <- idx suffix i;
  set_idx gs (m - 1 - x) (m - 1 - i).

Definition buildGoodSuffixShift (bm : BoyerMoore) : result BoyerMoore :=
  let m := len (pat bm) in
  let gs := repeat 0 (length (pat bm)) in
  do suffix <- compute_suffix (pat bm);
  do gs <- foldM (fun i gs => set_idx gs i m) (seqZ 0 m) gs;
  let j := 0 in
  do st <- foldM (gs_prefix_step m suffix) (reverse (seqZ 0 m)) (gs, j);
  do gs <- foldM (gs_suffix_step m suffix) (seqZ 0 (m - 1)) (fst st);
  Ok (mkBoyerMoore (pat bm) (ignoreCase bm) (bcShift bm) gs).

Definition New (pattern : string) (ignoreCase : bool) : result BoyerMoore :=
  if len (list_ascii_of_string pattern) =? 0 then
    Ok (mkBoyerMoore [] ignoreCase (fun _ => 0) [])
  else
    let p := list_ascii_of_string pattern in
    let p := if ignoreCase then map to_lower p else p in
    let bm := mkBoyerMoore p ignoreCase (fun _ => 0) (repeat 0 (length p)) in
    let bm := buildBadCharShift bm in
    buildGoodSuffixShift bm.

(** The right-to-left comparison of one window:
    [for j >= 0 && pat[j] == normChar(data[s+j]) { j-- }]. *)
Definition compare_window (bm : BoyerMoore) (data : list byte) (s : Z)
    : result Z :=
  while (S (length (pat bm)))
    (fun j => if 0 <=? j then
                do a <- idx (pat bm) j;
                do b <- idx data (s + j);
                Ok (Ascii.eqb a (normChar bm b))
              else Ok false)
    (fun j => Ok (j - 1))
    (len (pat bm) - 1).

(** One iteration of the outer loop of [_findAll], on the state
    [(s, results)]. *)
Definition scan_step (bm : BoyerMoore) (data : list byte)
    (st : Z * list Z) : result (Z * list Z) :=
  let '(s, results) := st in
  let m := len (pat bm) in
  let n := len data in
  do j <- compare_window bm data s;
  if j <? 0 then
    let results := results ++ [s] in
    if s + m <? n then
      do c <- idx data (s + m);
      Ok (s + (m - bcShift bm (normChar bm c)), results)
    else Ok (s + 1, results)
  else
    do c <- idx data (s + j);
    let badCharShift := j - bcShift bm (normChar bm c) in
    do goodSuffixShift <- idx (gsShift bm) j;
    let badCharShift := if badCharShift <? 1 then 1 else badCharShift in
    if goodSuffixShift <? badCharShift then Ok (s + badCharShift, results)
    else Ok (s + goodSuffixShift, results).

Definition _findAll (bm : BoyerMoore) (data : list byte) : result (list Z) :=
  let results : list Z := [] in
  let m := len (pat bm) in
  let n := len data in
  if (m =? 0) || (n =? 0) || (n <? m) then Ok results
  else
    let s := 0 in
    do st <- while (S (length data))
               (fun st => Ok (fst st <=? n - m))
               (scan_step bm data) (s, results);
    Ok (snd st).

Definition FindAll (bm : BoyerMoore) (txt : string) : result (list Z) :=
  _findAll bm (list_ascii_of_string txt).

Definition FindAllBytes (bm : BoyerMoore) (data : list byte)
    : result (list Z) :=
  _findAll bm data.

Definition FindFirst (bm : BoyerMoore) (txt : string) : result Z :=
  do res <- FindAll bm txt;
  if 0 <? len res then idx res 0 else Ok (-1).

Definition FindFirstBytes (bm : BoyerMoore) (data : list byte) : result Z :=
  do res <- FindAllBytes bm data;
  if 0 <? len res then idx res 0 else Ok (-1).

Definition Contains (bm : BoyerMoore) (txt : string) : result bool :=
  do r <- FindFirst bm txt; Ok (negb (r =? -1)).

Definition ContainsBytes (bm : BoyerMoore) (data : list byte) : result bool :=
  do r <- FindFirstBytes bm data; Ok (negb (r =? -1)).

Definition Count (bm : BoyerMoore) (txt : string) : result Z :=
  do res <- FindAll bm txt; Ok (len res).

Definition CountBytes (bm : BoyerMoore) (data : list byte) : result Z :=
  do res <- FindAllBytes bm data; Ok (len res).

End boyermoore.

(** ** Package ahocorasick *)

Module ahocorasick.

Record ACMatch : Type := mkACMatch {
  PatternIndex : Z;
  Start : Z;
  End_ : Z
}.

Record AhoCorasick : Type := mkAhoCorasick {
  keywords : list (list byte);
  ignoreCase : bool;
  next : list (byte -> Z);
  fail : list Z;
  out : list (list Z)
}.

(** Body of the inner loop of [buildTrie], [for _, c := range k], on the
    state [(ac, node)]. *)
Definition trie_step (c : byte) (st : AhoCorasick * Z)
    : result (AhoCorasick * Z) :=
  let '(ac, node) := st in
  let cc := c in
  do row <- idx (next ac) node;
  do ac <-
    (if row cc =? 0 then
       let nxt := next ac ++ [fun _ => 0] in
       let fl := fail ac ++ [0] in
       let ou := out ac ++ [[]] in
       do row <- idx nxt node;
       do nxt <- set_idx nxt node (upd row cc (len nxt - 1));
       Ok (mkAhoCorasick (keywords ac) (ignoreCase ac) nxt fl ou)
     else Ok ac);
  do row <- idx (next ac) node;
  Ok (ac, row cc).

(** Body of the outer loop of [buildTrie], [for idx, k := range keywords]. *)
Definition insert_keyword (ik : Z * list byte) (ac : AhoCorasick)
    : result AhoCorasick :=
  let '(i, k) := ik in
  let node := 0 in
  do st <- foldM trie_step k (ac, node);
  let '(ac, node) := st in
  do o <- idx (out ac) node;
  do ou <- set_idx (out ac) node (o ++ [i]);
  Ok (mkAhoCorasick (keywords ac) (ignoreCase ac) (next ac) (fail ac) ou).

Definition buildTrie (ac : AhoCorasick) : result AhoCorasick :=
  foldM insert_keyword
    (zip (seqZ 0 (len (keywords ac))) (keywords ac)) ac.

(** First loop of [buildFailureLinks], over the byte values, on the state
    [(ac, queue)]. *)
Definition root_step (c : byte) (st : AhoCorasick * list Z)
    : result (AhoCorasick * list Z) :=
  let '(ac, queue) := st in
  do row0 <- idx (next ac) 0;
  let nx := row0 c in
  if negb (nx =? 0) then
    do fl <- set_idx (fail ac) nx 0;
    Ok (mkAhoCorasick (keywords ac) (ignoreCase ac) (next ac) fl (out ac),
        queue ++ [nx])
  else
    do row0 <- idx (next ac) 0;
    do nxt <- set_idx (next ac) 0 (upd row0 c 0);
    Ok (mkAhoCorasick (keywords ac) (ignoreCase ac) nxt (fail ac) (out ac),
        queue).

(** Inner loop of the breadth-first traversal, over the byte values, for
    the dequeued node [f]. *)
Definition link_step (f : Z) (c : byte) (st : AhoCorasick * list Z)
    : result (AhoCorasick * list Z) :=
  let '(ac, queue) := st in
  do rowf <- idx (next ac) f;
  let nx := rowf c in
  if negb (nx =? 0) then
    let queue := queue ++ [nx] in
    do failTo <- idx (fail ac) f;
    do rowt <- idx (next ac) failTo;
    do fl <- set_idx (fail ac) nx (rowt c);
    do onx <- idx (out ac) nx;
    do fnx <- idx fl nx;
    do ofl <- idx (out ac) fnx;
    do ou <- set_idx (out ac) nx (onx ++ ofl);
    Ok (mkAhoCorasick (keywords ac) (ignoreCase ac) (next ac) fl ou, queue)
  else
    do ff <- idx (fail ac) f;
    do rowt <- idx (next ac) ff;
    do rowf <- idx (next ac) f;
    do nxt <- set_idx (next ac) f (upd rowf c (rowt c));
    Ok (mkAhoCorasick (keywords ac) (ignoreCase ac) nxt (fail ac) (out ac),
        queue).

(** Body of [for len(queue) > 0]: dequeue [f] and run the inner loop. *)
Definition bfs_step (st : AhoCorasick * list Z)
    : result (AhoCorasick * list Z) :=
  let '(ac, queue) := st in
  do f <- idx queue 0;
  let queue := drop 1 queue in
  foldM (link_step f) all_bytes (ac, queue).

Definition buildFailureLinks (ac : AhoCorasick) : result AhoCorasick :=
  let queue : list Z := [] in
  do st <- foldM root_step all_bytes (ac, queue);
  do st <- while (S (length (next ac)))
             (fun st => Ok (0 <? len (snd st))) bfs_step st;
  Ok (fst st).

Definition New (patterns : list string) (ignoreCase : bool)
    : result AhoCorasick :=
  let kw :=
    map (fun p => let b := list_ascii_of_string p in
                  if ignoreCase then map to_lower b else b) patterns in
  let ac := mkAhoCorasick kw ignoreCase [fun _ => 0] [0] [[]] in
  do ac <- buildTrie ac;
  buildFailureLinks ac.

(** Body of the loop of [_findAll], [for i, c := range data], on the state
    [(node, matches)]. *)
Definition scan_byte (ac : AhoCorasick) (ic : Z * byte)
    (st : Z * list ACMatch) : result (Z * list ACMatch) :=
  let '(i, c) := ic in
  let '(node, matches) := st in
  let cc :=
    if ignoreCase ac && is_upper c then ascii_of_N (N_of_ascii c + 32)
    else c in
  do row <- idx (next ac) node;
  let node := row cc in
  do o <- idx (out ac) node;
  do matches <-
    (if 0 <? len o then
       foldM (fun patIdx matches =>
                do k <- idx (keywords ac) patIdx;
                let patLen := len k in
                Ok (matches ++ [mkACMatch patIdx (i - patLen + 1) i]))
             o matches
     else Ok matches);
  Ok (node, matches).

Definition _findAll (ac : AhoCorasick) (data : list byte)
    : result (list ACMatch) :=
  let matches : list ACMatch := [] in
  let node := 0 in
  do st <- foldM (scan_byte ac) (zip (seqZ 0 (len data)) data)
             (node, matches);
  Ok (snd st).

Definition FindAll (ac : AhoCorasick) (text : string)
    : result (list ACMatch) :=
  _findAll ac (list_ascii_of_string text).

Definition FindAllBytes (ac : AhoCorasick) (data : list byte)
    : result (list ACMatch) :=
  _findAll ac data.

Definition Contains (ac : AhoCorasick) (text : string) : result bool :=
  do ms <- FindAll ac text; Ok (0 <? len ms).

Definition ContainsBytes (ac : AhoCorasick) (data : list byte)
    : result bool :=
  do ms <- FindAllBytes ac data; Ok (0 <? len ms).

Definition Count (ac : AhoCorasick) (text : string) : result Z :=
  do ms <- FindAll ac text; Ok (len ms).

Definition CountBytes (ac : AhoCorasick) (data : list byte) : result Z :=
  do ms <- FindAllBytes ac data; Ok (len ms).

End ahocorasick.

(** ** The tests of package boyermoore *)

Module boyermoore_test.

(** The loop of [equalIntSlices], [for i := range a], over the indices
    still to be compared; it leaves the function at the first index where
    the slices differ. *)
Fixpoint equal_from (a b : list Z) (rest : list Z) : result bool :=
  match rest with
  | [] => Ok true
  | i :: rest' =>
      do x <- idx a i;
      do y <- idx b i;
      if negb (x =? y) then Ok false else equal_from a b rest'
  end.

Definition equalIntSlices (a b : list Z) : result bool :=
  if negb (len a =? len b) then Ok false
  else equal_from a b (seqZ 0 (len a)).

End boyermoore_test.

(** * Vocabulary of the specification *)

(** The case policy applied to one byte. *)
Definition fold_case (ic : bool) (c : byte) : byte :=
  if ic then to_lower c else c.

(** The pattern bytes as [New] stores them. *)
Definition folded (ic : bool) (pattern : string) : list byte :=
  map (fold_case ic) (list_ascii_of_string pattern).

(** [l[lo:hi]] *)
Definition slice {A : Type} (l : list A) (lo hi : Z) : list A :=
  take (Z.to_nat (hi - lo)) (drop (Z.to_nat lo) l).

(** The slice of [T] of length [len P] at [s] equals [P] under the case
    policy: after folding both sides when [ic] is set, byte for byte
    otherwise. *)
Definition occurs_at (ic : bool) (P T : list byte) (s : Z) : Prop :=
  0 <= s /\ s + len P <= len T /\
  map (fold_case ic) (slice T s (s + len P)) = map (fold_case ic) P.

(** [i] is the largest index of [p] holding [b]. *)
Definition is_last_index (p : list byte) (b : byte) (i : Z) : Prop :=
  0 <= i /\ p !! Z.to_nat i = Some b /\
  forall k : nat, p !! k = Some b -> Z.of_nat k <= i.

(** The table as the data model describes it: the last index of each byte
    of [p], and [-1] for the bytes that do not occur in [p]. *)
Definition bc_table_spec (p : list byte) (t : byte -> Z) : Prop :=
  forall b, (b ∈ p -> is_last_index p b (t b)) /\ (b ∉ p -> t b = -1).

(** C3 as the specification states it: the scan records a match at [s],
    its shift after the match moves the window to [s'], beyond an
    occurrence [t] that starts strictly inside the window just matched, and
    [t] is missing from the result. *)
Definition skipped_overlap (pattern : string) (ic : bool)
    (data : list byte) : Prop :=
  exists bm results s s' rs t,
    boyermoore.New pattern ic = Ok bm /\
    boyermoore.FindAllBytes bm data = Ok results /\
    s ∈ results /\
    boyermoore.scan_step bm data (s, rs) = Ok (s', rs ++ [s]) /\
    s < t < s + len (boyermoore.pat bm) /\
    occurs_at ic (list_ascii_of_string pattern) data t /\
    t < s' /\ t ∉ results.

(** Pattern number [j], spelled [P], is reported with start [s]. *)
Definition reported (ms : list ahocorasick.ACMatch) (j : nat) (P : string)
    (s : Z) : Prop :=
  ahocorasick.mkACMatch (Z.of_nat j) s
    (s + len (list_ascii_of_string P) - 1) ∈ ms.

(** Every occurrence of every pattern of the list is reported. *)
Definition all_reported (patterns : list string) (ic : bool)
    (data : list byte) (ms : list ahocorasick.ACMatch) : Prop :=
  forall (j : nat) P s, patterns !! j = Some P ->
    occurs_at ic (list_ascii_of_string P) data s -> reported ms j P s.

(** No record is attributed to an empty pattern. *)
Definition no_empty_pattern_match (patterns : list string)
    (ms : list ahocorasick.ACMatch) : Prop :=
  forall r (j : nat), r ∈ ms -> ahocorasick.PatternIndex r = Z.of_nat j ->
    patterns !! j <> Some ""%string.

Definition nonempty {A : Type} (l : list A) : bool :=
  match l with [] => false | _ :: _ => true end.

(** * Generic facts about the outcomes and the loops *)

Lemma bind_Ok {A B} (r : result A) (k : A -> result B) b :
  bind r k = Ok b -> exists a, r = Ok a /\ k a = Ok b.
Proof. destruct r; simpl; intros; eauto; discriminate. Qed.

Lemma map_fmap {A B} (f : A -> B) (l : list A) : map f l = f <$> l.
Proof.
  induction l as [|a l IH]; simpl; [reflexivity|]. rewrite IH. reflexivity.
Qed.

Lemma idx_Ok {A} (l : list A) i x :
  idx l i = Ok x <-> 0 <= i /\ l !! Z.to_nat i = Some x.
Proof.
  unfold idx. destruct (Z.leb_spec 0 i).
  - destruct (l !! Z.to_nat i) eqn:E; split; intros H'.
    + injection H' as ->. auto.
    + destruct H' as [_ [= ->]]. reflexivity.
    + discriminate.
    + destruct H' as [_ ?]; discriminate.
  - split; [discriminate | lia].
Qed.

Lemma idx_in_range {A} (l : list A) i :
  0 <= i < len l -> exists x, idx l i = Ok x /\ l !! Z.to_nat i = Some x.
Proof.
  intros Hi. destruct (lookup_lt_is_Some_2 l (Z.to_nat i)) as [x Hx].
  { lia. }
  exists x; split; [apply idx_Ok|]; auto with lia.
Qed.

Lemma idx_bound {A} (l : list A) i x : idx l i = Ok x -> 0 <= i < len l.
Proof.
  intros [H1 H2]%idx_Ok. apply lookup_lt_Some in H2. lia.
Qed.

Lemma set_idx_Ok {A} (l : list A) i x l' :
  set_idx l i x = Ok l' <-> 0 <= i < len l /\ l' = <[Z.to_nat i := x]> l.
Proof.
  unfold set_idx.
  destruct (Z.leb_spec 0 i), (Z.ltb_spec i (len l)); simpl;
    (split; [intros [= <-] || discriminate | intros [? ->]]); auto with lia.
Qed.

Lemma set_idx_in_range {A} (l : list A) i x :
  0 <= i < len l -> set_idx l i x = Ok (<[Z.to_nat i := x]> l).
Proof. intros; apply set_idx_Ok; auto. Qed.

(** Total correctness of [while]: an invariant and a variant below the
    fuel give a final state. *)
Lemma while_rule {St} (I : St -> Prop) (mu : St -> nat) cond body :
  (forall s, I s -> exists b, cond s = Ok b) ->
  (forall s, I s -> cond s = Ok true ->
     exists s', body s = Ok s' /\ I s' /\ (mu s' < mu s)%nat) ->
  forall fuel s, I s -> (mu s < fuel)%nat ->
  exists s', while fuel cond body s = Ok s' /\ I s' /\ cond s' = Ok false.
Proof.
  intros Hc Hb fuel; induction fuel as [|k IH]; intros s Hs Hmu; [lia|].
  simpl. destruct (Hc s Hs) as [b Eb]. rewrite Eb; simpl.
  destruct b; [|eauto].
  destruct (Hb s Hs Eb) as (s' & Es & Hs' & Hlt). rewrite Es; simpl.
  apply IH; [assumption | lia].
Qed.

(** Partial correctness of [while]: whatever it returns satisfies the
    invariant and falsifies the condition. *)
Lemma while_inv {St} (I : St -> Prop) cond body :
  (forall s s', I s -> cond s = Ok true -> body s = Ok s' -> I s') ->
  forall fuel s s', I s -> while fuel cond body s = Ok s' ->
  I s' /\ cond s' = Ok false.
Proof.
  intros Hb fuel; induction fuel as [|k IH]; intros s s' Hs; simpl;
    [discriminate|].
  intros (b & Eb & H)%bind_Ok. destruct b.
  - apply bind_Ok in H as (s1 & E1 & H).
    apply (IH s1 s'); [eapply Hb; eassumption | exact H].
  - injection H as <-. auto.
Qed.

Lemma seqZ_S_end (n : nat) :
  seqZ 0 (Z.of_nat (S n)) = seqZ 0 (Z.of_nat n) ++ [Z.of_nat n].
Proof.
  replace (Z.of_nat (S n)) with (Z.of_nat n + 1) by lia.
  rewrite seqZ_app by lia. f_equal.
Qed.

(** A counting loop upwards: [I i] holds before index [i] is processed. *)
Lemma foldM_up {St} (I : Z -> St -> Prop) body n :
  (forall i s, 0 <= i < n -> I i s ->
     exists s', body i s = Ok s' /\ I (i + 1) s') ->
  forall s, 0 <= n -> I 0 s ->
  exists s', foldM body (seqZ 0 n) s = Ok s' /\ I n s'.
Proof.
  intros Hb s Hn H0.
  assert (G : forall k i s, 0 <= i -> i + Z.of_nat k = n -> I i s ->
            exists s', foldM body (seqZ i (Z.of_nat k)) s = Ok s' /\ I n s').
  { induction k as [|k IH]; intros i s0 Hi Hk Hs.
    - exists s0. replace i with n in Hs by lia. auto.
    - rewrite Nat2Z.inj_succ, seqZ_cons by lia. simpl.
      destruct (Hb i s0) as (s1 & E1 & H1); [lia|assumption|].
      rewrite E1; simpl.
      replace (Z.pred (Z.succ (Z.of_nat k))) with (Z.of_nat k) by lia.
      apply IH; [lia|lia|assumption]. }
  destruct (G (Z.to_nat n) 0 s) as (s' & E & H); [lia|lia|assumption|].
  rewrite Z2Nat.id in E by lia. eauto.
Qed.

(** A counting loop downwards: [I i] holds when the indices below [i]
    remain to be processed. *)
Lemma foldM_down {St} (I : Z -> St -> Prop) body n :
  (forall i s, 0 <= i < n -> I (i + 1) s ->
     exists s', body i s = Ok s' /\ I i s') ->
  forall s, 0 <= n -> I n s ->
  exists s', foldM body (reverse (seqZ 0 n)) s = Ok s' /\ I 0 s'.
Proof.
  intros Hb s Hn.
  assert (G : forall k s, Z.of_nat k <= n -> I (Z.of_nat k) s ->
            exists s', foldM body (reverse (seqZ 0 (Z.of_nat k))) s = Ok s'
                       /\ I 0 s').
  { induction k as [|k IH]; intros s0 Hk Hs.
    - exists s0; auto.
    - rewrite seqZ_S_end, reverse_snoc. simpl.
      destruct (Hb (Z.of_nat k) s0) as (s1 & E1 & H1); [lia| |].
      { replace (Z.of_nat k + 1) with (Z.of_nat (S k)) by lia. assumption. }
      rewrite E1; simpl. apply IH; [lia|assumption]. }
  intros Hs. destruct (G (Z.to_nat n) s) as (s' & E & H); [lia| |].
  - rewrite Z2Nat.id by lia. assumption.
  - rewrite Z2Nat.id in E by lia. eauto.
Qed.

(** Total correctness of [while] with an invariant indexed by a bound on
    the number of iterations left. *)
Lemma while_rule_ix {St} (I : nat -> St -> Prop) cond body :
  (forall k s, I k s -> exists b, cond s = Ok b) ->
  (forall k s, I k s -> cond s = Ok true ->
     exists s' k', body s = Ok s' /\ I k' s' /\ (k' < k)%nat) ->
  forall fuel k s, I k s -> (k < fuel)%nat ->
  exists s' k', while fuel cond body s = Ok s' /\ I k' s' /\
                cond s' = Ok false.
Proof.
  intros Hc Hb fuel; induction fuel as [|n IH]; intros k s Hs Hk; [lia|].
  simpl. destruct (Hc k s Hs) as [b Eb]. rewrite Eb; simpl.
  destruct b; [|eauto].
  destruct (Hb k s Hs Eb) as (s' & k' & Es & Hs' & Hlt). rewrite Es; simpl.
  apply (IH k'); [assumption | lia].
Qed.

(** A loop over a list: [I dn] holds when the elements [dn] have been
    processed. *)
Lemma foldM_prefix {A St} (I : list A -> St -> Prop) body (l : list A) :
  (forall dn a rest s, l = dn ++ a :: rest -> I dn s ->
     exists s', body a s = Ok s' /\ I (dn ++ [a]) s') ->
  forall s, I [] s -> exists s', foldM body l s = Ok s' /\ I l s'.
Proof.
  intros Hb.
  assert (G : forall rest dn s, l = dn ++ rest -> I dn s ->
            exists s', foldM body rest s = Ok s' /\ I l s').
  { induction rest as [|a rest IH]; intros dn s E Hs.
    - rewrite app_nil_r in E. subst dn. exists s. auto.
    - simpl. destruct (Hb dn a rest s E Hs) as (s1 & E1 & H1).
      rewrite E1. simpl. apply (IH (dn ++ [a])); [|assumption].
      rewrite <- app_assoc. exact E. }
  intros s Hs. apply (G l [] s); auto.
Qed.

(** * The single-pattern matcher *)

Section BoyerMooreProofs.

Import boyermoore.

(** ** The good-suffix table *)

(** Every entry of a list of integers, by position. *)
Definition entries (P : Z -> Z -> Prop) (l : list Z) : Prop :=
  forall k x, l !! k = Some x -> P (Z.of_nat k) x.

Lemma entries_insert P l i x :
  entries P l -> P i x -> 0 <= i -> entries P (<[Z.to_nat i := x]> l).
Proof.
  intros Hl Hx Hi k y. rewrite list_lookup_insert. case_decide as Hk.
  - intros [= <-]. destruct Hk as [<- _]. rewrite Z2Nat.id by lia. exact Hx.
  - apply Hl.
Qed.

Lemma entries_repeat P (x : Z) n :
  (forall k, 0 <= k -> P k x) -> entries P (repeat x n).
Proof.
  intros HP k y Hk. apply list_elem_of_lookup_2 in Hk.
  apply list_elem_of_In, repeat_spec in Hk. subst y. apply HP. lia.
Qed.

Lemma idx_insert {A} (l : list A) i x k :
  0 <= i < len l -> 0 <= k ->
  idx (<[Z.to_nat i := x]> l) k = if decide (k = i) then Ok x else idx l k.
Proof.
  intros Hi Hk. unfold idx. destruct (Z.leb_spec 0 k); [|lia].
  rewrite list_lookup_insert. case_decide as Hd.
  - rewrite decide_True by lia. reflexivity.
  - rewrite decide_False by lia. reflexivity.
Qed.

Ltac use_idx l i :=
  let x := fresh "x" in let E := fresh "E" in let L := fresh "L" in
  destruct (idx_in_range l i) as (x & E & L); [try lia|rewrite ?E; simpl].

(** *** The suffix array *)

(** Positions [a] and [b] of the pattern hold the same byte. *)
Definition same (p : list byte) (a b : Z) : Prop :=
  exists x, idx p a = Ok x /\ idx p b = Ok x.

(** Positions [a] and [b] of the pattern hold different bytes. *)
Definition differ (p : list byte) (a b : Z) : Prop :=
  exists x y, idx p a = Ok x /\ idx p b = Ok y /\ x <> y.

(** [x] is the length of the longest common suffix of [p[0..i]] and [p]. *)
Definition lcs_spec (p : list byte) (i x : Z) : Prop :=
  0 <= x <= i + 1 /\
  (forall r, 0 <= r < x -> same p (i - r) (len p - 1 - r)) /\
  (x <= i -> differ p (i - x) (len p - 1 - x)).

Lemma same_refl p a : 0 <= a < len p -> same p a a.
Proof. intros Ha. use_idx p a. exists x. auto. Qed.

Lemma same_trans p a b c : same p a b -> same p b c -> same p a c.
Proof.
  intros (x & Ea & Eb) (y & Eb' & Ec). exists x. split; congruence.
Qed.

Lemma same_differ p a b c : same p a b -> differ p b c -> differ p a c.
Proof.
  intros (x & Ea & Eb) (y & z & Eb' & Ec & Hne). exists x, z.
  split_and!; congruence.
Qed.

Lemma same_not_differ p a b : same p a b -> differ p a b -> False.
Proof.
  intros (x & Ea & Eb) (y & z & Ea' & Eb' & Hne). congruence.
Qed.

Lemma lcs_unique p i x y : lcs_spec p i x -> lcs_spec p i y -> x = y.
Proof.
  intros (Hx & Sx & Dx) (Hy & Sy & Dy).
  destruct (Z.lt_trichotomy x y) as [Hlt|[Heq|Hgt]]; [|assumption|]; exfalso.
  - apply (same_not_differ p (i - x) (len p - 1 - x)); [apply Sy|apply Dx]; lia.
  - apply (same_not_differ p (i - y) (len p - 1 - y)); [apply Sx|apply Dy]; lia.
Qed.

Lemma suffix_scan_ok (p : list byte) (m i : Z) :
  len p = m -> 0 <= i < m - 1 ->
  exists g,
    while (Z.to_nat (i + 2))
      (fun g => if 0 <=? g then
                  do a <- idx p g;
                  do b <- idx p (g + m - 1 - i);
                  Ok (Ascii.eqb a b)
                else Ok false)
      (fun g => Ok (g - 1)) i = Ok g /\ -1 <= g <= i /\
    (forall k, g < k <= i -> same p k (k + m - 1 - i)) /\
    (0 <= g -> differ p g (g + m - 1 - i)).
Proof.
  intros Hm Hi.
  destruct (while_rule
    (fun g => -1 <= g <= i /\ forall k, g < k <= i -> same p k (k + m - 1 - i))
    (fun g => Z.to_nat (g + 1))
    (fun g => if 0 <=? g then
                  do a <- idx p g;
                  do b <- idx p (g + m - 1 - i);
                  Ok (Ascii.eqb a b)
                else Ok false)
    (fun g => Ok (g - 1))) with (fuel := Z.to_nat (i + 2)) (s := i)
    as (g & E & [Hg Hs] & Hc).
  - intros g [Hg _]. destruct (Z.leb_spec 0 g); [|eauto].
    use_idx p g. use_idx p (g + m - 1 - i). eauto.
  - intros g [Hg Hs] Hc. exists (g - 1). split; [reflexivity|].
    destruct (Z.leb_spec 0 g); [|discriminate].
    split; [|lia]. split; [lia|]. intros k Hk.
    destruct (Z.eq_dec k g) as [->|]; [|apply Hs; lia].
    apply bind_Ok in Hc as (a & Ea & Hc).
    apply bind_Ok in Hc as (b & Eb & Hc). injection Hc as Hc.
    apply Ascii.eqb_eq in Hc. subst b. exists a. auto.
  - split; [lia|]. intros; lia.
  - lia.
  - exists g. split_and!; auto; try lia. intros Hg0.
    destruct (Z.leb_spec 0 g); [|lia].
    apply bind_Ok in Hc as (a & Ea & Hc).
    apply bind_Ok in Hc as (b & Eb & Hc). injection Hc as Hc.
    apply Ascii.eqb_neq in Hc. exists a, b. auto.
Qed.

(** The state of the loop when the indices below [i] remain: the entries
    from [i] on are final and [p[g+1..f]] is a copy of a suffix of [p]. *)
Definition suffix_inv (p : list byte) (i : Z) (st : list Z * Z * Z) : Prop :=
  let '(suffix, g, f) := st in
  len suffix = len p /\ -1 <= g <= f /\ i <= f <= len p - 1 /\
  (forall k, i <= k < len p ->
     exists x, idx suffix k = Ok x /\ lcs_spec p k x) /\
  (forall k, g < k <= f -> same p k (k + len p - 1 - f)) /\
  (f = len p - 1 -> g = len p - 1).

Lemma suffix_step_ok (p : list byte) (i : Z) st :
  0 <= i < len p - 1 -> suffix_inv p (i + 1) st ->
  exists st', suffix_step p (len p) i st = Ok st' /\ suffix_inv p i st'.
Proof.
  intros Hi. destruct st as [[suffix g] f].
  intros (Hl & Hg & Hf & Hs & Hw & Hinit).
  unfold suffix_step. use_idx suffix (i + len p - 1 - f).
  assert (Hkeep : forall suffix' g' f' y,
    suffix' = <[Z.to_nat i := y]> suffix -> lcs_spec p i y ->
    -1 <= g' <= f' -> i <= f' <= len p - 1 ->
    (forall k, g' < k <= f' -> same p k (k + len p - 1 - f')) ->
    (f' = len p - 1 -> g' = len p - 1) ->
    suffix_inv p i (suffix', g', f')).
  { intros suffix' g' f' y -> Hy Hg' Hf' Hw' Hinit'.
    split_and!; auto; try lia.
    - rewrite length_insert. exact Hl.
    - intros k Hk. rewrite idx_insert by lia. case_decide as Hd.
      + subst k. eauto.
      + apply Hs. lia. }
  assert (Hscan : exists st',
    (do g0 <- while (Z.to_nat (i + 2))
               (fun g0 => if 0 <=? g0 then
                            do a <- idx p g0;
                            do b <- idx p (g0 + len p - 1 - i);
                            Ok (Ascii.eqb a b)
                          else Ok false)
               (fun g0 => Ok (g0 - 1)) i;
     do suffix0 <- set_idx suffix i (i - g0);
     Ok (suffix0, g0, i)) = Ok st' /\ suffix_inv p i st').
  { destruct (suffix_scan_ok p (len p) i eq_refl Hi)
      as (g' & -> & Hg' & Hs' & Hd').
    cbn [bind]. rewrite set_idx_in_range by lia. cbn [bind].
    eexists; split; [reflexivity|].
    apply (Hkeep _ g' i (i - g')); auto; try lia.
    split_and!; try lia.
    - intros r Hr. replace (len p - 1 - r) with (i - r + len p - 1 - i) by lia.
      apply Hs'. lia.
    - intros Hle. replace (i - (i - g')) with g' by lia.
      replace (len p - 1 - (i - g')) with (g' + len p - 1 - i) by lia.
      apply Hd'. lia. }
  destruct (Z.ltb_spec g i) as [Hgi|Hgi]; cbn [bind]; [|exact Hscan].
  destruct (Z.ltb_spec x (i - g)) as [Hxi|Hxi]; cbn [bind]; [|exact Hscan].
  rewrite set_idx_in_range by lia. cbn [bind].
  eexists; split; [reflexivity|].
  assert (Hf1 : f < len p - 1) by lia.
  destruct (Hs (i + len p - 1 - f)) as (x' & Ex & Hx0 & Hxs & Hxd); [lia|].
  assert (x' = x) as -> by congruence.
  apply (Hkeep _ g f x); auto; try lia.
  split_and!; try lia.
  - intros r Hr. eapply same_trans; [apply (Hw (i - r)); lia|].
    replace (i - r + len p - 1 - f) with (i + len p - 1 - f - r) by lia.
    apply Hxs. lia.
  - intros Hle. eapply same_differ; [apply (Hw (i - x)); lia|].
    replace (i - x + len p - 1 - f) with (i + len p - 1 - f - x) by lia.
    apply Hxd. lia.
Qed.

Lemma compute_suffix_ok (p : list byte) :
  0 < len p ->
  exists suffix, compute_suffix p = Ok suffix /\ len suffix = len p /\
    forall k, 0 <= k < len p ->
      exists x, idx suffix k = Ok x /\ lcs_spec p k x.
Proof.
  intros Hp. unfold compute_suffix.
  rewrite set_idx_in_range by (rewrite repeat_length; lia).
  cbn [bind].
  destruct (foldM_down (suffix_inv p) (suffix_step p (len p)) (len p - 1))
    with (s := (<[Z.to_nat (len p - 1) := len p]> (repeat 0 (length p)),
                len p - 1, len p - 1))
    as ([[suffix g] f] & E & Hl & _ & _ & Hs & _).
  - intros i st Hi Hst. apply suffix_step_ok; auto with lia.
  - lia.
  - assert (Hlen : len (<[Z.to_nat (len p - 1) := len p]>
                          (repeat 0 (length p))) = len p).
    { rewrite length_insert, repeat_length. reflexivity. }
    split; [exact Hlen|]. split; [lia|]. split; [lia|].
    split; [|split; [intros; lia|auto]].
    intros k Hk. assert (k = len p - 1) as -> by lia.
    rewrite idx_insert by (rewrite ?repeat_length; lia).
    rewrite decide_True by reflexivity.
    eexists; split; [reflexivity|]. split; [lia|]. split; [|lia].
    intros r Hr. apply same_refl. lia.
  - rewrite E. cbn [bind fst]. eauto.
Qed.

(** *** The table *)

Definition gs_inv (m : Z) (gs : list Z) : Prop :=
  len gs = m /\ entries (fun _ x => 1 <= x <= m) gs.

(** The rule of the matching suffix: the entry at the mismatch position
    that the suffix ending at [i] determines is at most the shift that
    aligns this suffix. *)
Definition gs_suffix_rule (p : list byte) (suffix gs : list Z) (n : Z)
    : Prop :=
  forall i x g, 0 <= i < n -> idx suffix i = Ok x ->
    idx gs (len p - 1 - x) = Ok g -> g <= len p - 1 - i.

(** The rule of the matching prefix: when [p[0..i]] is a suffix of [p],
    every entry before [len p - 1 - i] is at most the shift that aligns
    this prefix. *)
Definition gs_prefix_rule (p : list byte) (suffix gs : list Z) (n : Z)
    : Prop :=
  forall j i g, 0 <= j -> n <= i < len p -> idx suffix i = Ok (i + 1) ->
    j < len p - 1 - i -> idx gs j = Ok g -> g <= len p - 1 - i.

Lemma idx_entry (l : list Z) (P : Z -> Z -> Prop) j g :
  entries P l -> idx l j = Ok g -> P j g.
Proof.
  intros He [Hj Hl]%idx_Ok. apply He in Hl. rewrite Z2Nat.id in Hl by lia.
  exact Hl.
Qed.

Lemma gs_init_ok (m : Z) (gs : list Z) :
  len gs = m -> 0 < m ->
  exists gs', foldM (fun i gs => set_idx gs i m) (seqZ 0 m) gs = Ok gs' /\
              len gs' = m /\ entries (fun _ x => x = m) gs'.
Proof.
  intros Hl Hm.
  destruct (foldM_up
    (fun i gs => len gs = m /\ entries (fun k x => k < i -> x = m) gs)
    (fun i gs => set_idx gs i m) m) with (s := gs) as (gs' & E & Hl' & He).
  - intros i s Hi [Hs He]. rewrite set_idx_in_range by lia.
    eexists; split; [reflexivity|]. split; [rewrite length_insert; lia|].
    intros k x. rewrite list_lookup_insert. case_decide.
    + intros [= <-]. lia.
    + intros Hk Hlt. apply (He k x Hk).
      assert (Z.of_nat k <> i) by (apply lookup_lt_Some in Hk; lia). lia.
  - lia.
  - split; [assumption|]. intros k x Hk. lia.
  - exists gs'. split; [assumption|]. split; [assumption|].
    intros k x Hk. apply (He k x Hk). apply lookup_lt_Some in Hk. lia.
Qed.

(** The state [(gs, j)] of the second loop when the indices below [i]
    remain. *)
Definition gs_prefix_inv (p : list byte) (suffix : list Z) (i : Z)
    (st : list Z * Z) : Prop :=
  let '(gs, j) := st in
  len gs = len p /\ 0 <= j /\
  entries (fun k x => k < x <= len p) gs /\
  (forall i', i <= i' < len p -> idx suffix i' = Ok (i' + 1) ->
     len p - 1 - i' <= j) /\
  gs_prefix_rule p suffix gs i /\
  (forall k g, 0 <= k < j -> idx gs k = Ok g -> g <= len p - 1 - i) /\
  (forall k g, j <= k -> idx gs k = Ok g -> g = len p).

Lemma gs_prefix_step_ok (p : list byte) (suffix : list Z) (i : Z) st :
  len suffix = len p -> 0 <= i < len p ->
  gs_prefix_inv p suffix (i + 1) st ->
  exists st', gs_prefix_step (len p) suffix i st = Ok st' /\
              gs_prefix_inv p suffix i st'.
Proof.
  intros Hl Hi Hst. unfold gs_prefix_step. use_idx suffix i.
  destruct st as [gs0 j0]. destruct Hst as (Hg & Hj & He & Ha & Hb & Hc & Hd).
  destruct (Z.eqb_spec x (i + 1)) as [->|Hx].
  - destruct (while_rule
      (fun st : list Z * Z =>
         len (fst st) = len p /\ j0 <= snd st /\
         entries (fun k x => k < x <= len p) (fst st) /\
         gs_prefix_rule p suffix (fst st) (i + 1) /\
         (forall k g, 0 <= k < snd st -> idx (fst st) k = Ok g ->
            g <= len p - 1 - i) /\
         (forall k g, snd st <= k -> idx (fst st) k = Ok g -> g = len p))
      (fun st => Z.to_nat (len p - 1 - i - snd st))
      (fun '(gs, j) => Ok (j <? len p - 1 - i))
      (fun '(gs, j) =>
         do y <- idx gs j;
         do gs <- (if y =? len p then set_idx gs j (len p - 1 - i) else Ok gs);
         Ok (gs, j + 1)))
      with (fuel := Z.to_nat (len p)) (s := (gs0, j0))
      as ([gs1 j1] & E' & (Hg1 & Hj01 & He1 & Hb1 & Hc1 & Hd1) & Hcond).
    + intros [gs j] _. eauto.
    + intros [gs j] (Hg' & Hj0' & He' & Hb' & Hc' & Hd') Hcnd.
      simpl in *. injection Hcnd as Hcnd. apply Z.ltb_lt in Hcnd.
      use_idx gs j. rewrite (Hd' j x ltac:(lia) E0), Z.eqb_refl.
      rewrite set_idx_in_range by lia. cbn [bind].
      eexists; split; [reflexivity|]. simpl.
      assert (Hidx : forall k, 0 <= k ->
        idx (<[Z.to_nat j := len p - 1 - i]> gs) k
        = if decide (k = j) then Ok (len p - 1 - i) else idx gs k).
      { intros k Hk. apply idx_insert; lia. }
      split; [|lia]. split_and!; try lia.
      * rewrite length_insert. exact Hg'.
      * apply entries_insert; [assumption|cbv beta; lia|lia].
      * intros k i' g Hk Hi' Hs' Hlt. rewrite Hidx by lia.
        case_decide as Hdk; [|apply Hb'; auto].
        subst k. specialize (Ha i' Hi' Hs'). lia.
      * intros k g Hk. rewrite Hidx by lia.
        case_decide as Hdk; [intros [= <-]; lia|].
        apply Hc'. lia.
      * intros k g Hk. rewrite Hidx by lia.
        rewrite decide_False by lia. apply Hd'. lia.
    + simpl. split_and!; auto; try lia.
      intros k g Hk Hgk. specialize (Hc k g Hk Hgk). lia.
    + simpl. lia.
    + exists (gs1, j1). split; [exact E'|]. simpl in *.
      injection Hcond as Hcond. apply Z.ltb_ge in Hcond.
      assert (Ha1 : forall i', i <= i' < len p ->
                idx suffix i' = Ok (i' + 1) -> len p - 1 - i' <= j1).
      { intros i' Hi' Hs'. destruct (Z.eq_dec i' i) as [->|]; [lia|].
        specialize (Ha i' ltac:(lia) Hs'). lia. }
      assert (Hb2 : gs_prefix_rule p suffix gs1 i).
      { intros k i' g Hk Hi' Hs' Hlt Hgk.
        destruct (Z.eq_dec i' i) as [->|]; [|apply (Hb1 k i' g); auto; lia].
        apply (Hc1 k g); [lia|assumption]. }
      split_and!; auto; lia.
  - exists (gs0, j0). split; [reflexivity|].
    assert (Ha1 : forall i', i <= i' < len p ->
              idx suffix i' = Ok (i' + 1) -> len p - 1 - i' <= j0).
    { intros i' Hi' Hs'. destruct (Z.eq_dec i' i) as [->|].
      - rewrite E in Hs'. injection Hs' as Hs'. contradiction.
      - apply Ha; [lia|assumption]. }
    assert (Hb2 : gs_prefix_rule p suffix gs0 i).
    { intros k i' g Hk Hi' Hs' Hlt Hgk.
      destruct (Z.eq_dec i' i) as [->|]; [|apply (Hb k i' g); auto; lia].
      rewrite E in Hs'. injection Hs' as Hs'. contradiction. }
    assert (Hc2 : forall k g, 0 <= k < j0 -> idx gs0 k = Ok g ->
              g <= len p - 1 - i).
    { intros k g Hk Hgk. specialize (Hc k g Hk Hgk). lia. }
    split_and!; auto.
Qed.

(** The table in the third loop, when the indices below [i] have been
    processed. *)
Definition gs_suffix_inv (p : list byte) (suffix : list Z) (i : Z)
    (gs : list Z) : Prop :=
  gs_inv (len p) gs /\ gs_suffix_rule p suffix gs i /\
  gs_prefix_rule p suffix gs 0.

Lemma gs_suffix_step_ok (p : list byte) (suffix : list Z) (i : Z) gs :
  len suffix = len p ->
  (forall k, 0 <= k < len p ->
     exists x, idx suffix k = Ok x /\ lcs_spec p k x) ->
  0 <= i < len p - 1 -> gs_suffix_inv p suffix i gs ->
  exists gs', gs_suffix_step (len p) suffix i gs = Ok gs' /\
              gs_suffix_inv p suffix (i + 1) gs'.
Proof.
  intros Hl Hs Hi ([Hg Hge] & Hf & Hgp). unfold gs_suffix_step.
  destruct (Hs i) as (x & Ex & Hx & _); [lia|]. rewrite Ex. cbn [bind].
  rewrite set_idx_in_range by lia. eexists; split; [reflexivity|].
  assert (Hidx : forall k, 0 <= k ->
    idx (<[Z.to_nat (len p - 1 - x) := len p - 1 - i]> gs) k
    = if decide (k = len p - 1 - x) then Ok (len p - 1 - i) else idx gs k).
  { intros k Hk. apply idx_insert; lia. }
  split_and!.
  - split; [rewrite length_insert; lia|].
    apply entries_insert; [assumption|cbv beta; lia|lia].
  - intros i' x' g Hi' Ex' Hgk.
    destruct (Hs i') as (x'' & Ex'' & Hx'' & _); [lia|].
    assert (x'' = x') as -> by congruence.
    rewrite Hidx in Hgk by lia. case_decide as Hd.
    + injection Hgk as <-. lia.
    + destruct (Z.eq_dec i' i) as [->|].
      * exfalso. apply Hd. congruence.
      * apply (Hf i' x' g); auto. lia.
  - intros k i' g Hk Hi' Hs' Hlt Hgk.
    rewrite Hidx in Hgk by lia. case_decide as Hd.
    + injection Hgk as <-. lia.
    + apply (Hgp k i' g); auto.
Qed.

(** [d] is a plausible shift after a mismatch at [j]: the pattern moved by
    [d] agrees with the suffix that matched, and brings another byte to
    position [j]. *)
Definition plausible (p : list byte) (j d : Z) : Prop :=
  (forall k, j < k < len p -> d <= k -> same p (k - d) k) /\
  (d <= j -> differ p (j - d) j).

(** No entry of the table exceeds a plausible shift. *)
Definition gs_min (p : list byte) (gs : list Z) : Prop :=
  forall j d g, 0 <= j < len p -> idx gs j = Ok g -> 1 <= d < g ->
    ~ plausible p j d.

Lemma gs_rules_min (p : list byte) (suffix gs : list Z) :
  (forall k, 0 <= k < len p ->
     exists x, idx suffix k = Ok x /\ lcs_spec p k x) ->
  gs_inv (len p) gs ->
  gs_suffix_rule p suffix gs (len p - 1) ->
  gs_prefix_rule p suffix gs 0 ->
  gs_min p gs.
Proof.
  intros Hs [Hl He] Hsr Hpr j d g Hj Eg Hd [Hsame Hdiff].
  pose proof (idx_entry _ _ _ _ He Eg) as Hg. simpl in Hg.
  destruct (Hs (len p - 1 - d)) as (x & Ex & Hx); [lia|].
  destruct (Z.le_gt_cases d j) as [Hdj|Hdj].
  - assert (Hx' : lcs_spec p (len p - 1 - d) (len p - 1 - j)).
    { split_and!; try lia.
      - intros r Hr.
        replace (len p - 1 - d - r) with (len p - 1 - r - d) by lia.
        apply Hsame; lia.
      - intros _.
        replace (len p - 1 - d - (len p - 1 - j)) with (j - d) by lia.
        replace (len p - 1 - (len p - 1 - j)) with j by lia.
        apply Hdiff. lia. }
    rewrite (lcs_unique _ _ _ _ Hx Hx') in Ex.
    assert (g <= len p - 1 - (len p - 1 - d)); [|lia].
    apply (Hsr (len p - 1 - d) (len p - 1 - j) g); [lia|assumption|].
    replace (len p - 1 - (len p - 1 - j)) with j by lia. exact Eg.
  - assert (Hx' : lcs_spec p (len p - 1 - d) (len p - 1 - d + 1)).
    { split_and!; try lia.
      intros r Hr.
      replace (len p - 1 - d - r) with (len p - 1 - r - d) by lia.
      apply Hsame; lia. }
    rewrite (lcs_unique _ _ _ _ Hx Hx') in Ex.
    assert (g <= len p - 1 - (len p - 1 - d)); [|lia].
    apply (Hpr j (len p - 1 - d) g); auto; lia.
Qed.

Lemma buildGoodSuffixShift_ok (bm : BoyerMoore) :
  0 < len (pat bm) ->
  exists gs,
    buildGoodSuffixShift bm =
      Ok (mkBoyerMoore (pat bm) (ignoreCase bm) (bcShift bm) gs) /\
    gs_inv (len (pat bm)) gs /\ gs_min (pat bm) gs.
Proof.
  intros Hm. unfold buildGoodSuffixShift.
  destruct (compute_suffix_ok (pat bm) Hm) as (suffix & -> & Hl & Hs).
  cbn [bind].
  destruct (gs_init_ok (len (pat bm)) (repeat 0 (length (pat bm))))
    as (gs1 & -> & Hl1 & H1); [rewrite repeat_length; lia|lia|]. cbn [bind].
  destruct (foldM_down (gs_prefix_inv (pat bm) suffix)
    (gs_prefix_step (len (pat bm)) suffix) (len (pat bm)))
    with (s := (gs1, 0))
    as ([gs2 j2] & -> & Hl2 & _ & He2 & _ & Hp2 & _); [|lia| |].
  { intros i st Hi Hst. apply gs_prefix_step_ok; auto with lia. }
  { assert (He1 : entries (fun k x => k < x <= len (pat bm)) gs1).
    { intros k x Hk. pose proof (H1 k x Hk) as Hx. simpl in Hx.
      apply lookup_lt_Some in Hk. lia. }
    assert (Hd1 : forall k g, 0 <= k -> idx gs1 k = Ok g -> g = len (pat bm)).
    { intros k g Hk Hg. apply (idx_entry _ _ _ _ H1 Hg). }
    split; [assumption|]. split; [lia|]. split; [assumption|].
    split; [intros; lia|]. split; [intros j i g Hj Hi; lia|].
    split; [intros; lia|assumption]. }
  cbn [bind fst].
  destruct (foldM_up (gs_suffix_inv (pat bm) suffix)
    (gs_suffix_step (len (pat bm)) suffix) (len (pat bm) - 1))
    with (s := gs2) as (gs3 & -> & H3 & Hsr & Hpr); [|lia| |].
  { intros i gs Hi Hgs. apply gs_suffix_step_ok; auto. }
  { split; [|split; [intros i x g Hi; lia|assumption]].
    split; [assumption|]. intros k x Hk. pose proof (He2 k x Hk) as Hx.
    simpl in Hx. lia. }
  cbn [bind]. eexists; split; [reflexivity|]. split; [assumption|].
  eapply gs_rules_min; eauto.
Qed.

(** ** The bad-character table *)

Lemma bc_fill_notin (p : list byte) i t c :
  c ∉ p -> bc_fill p i t c = t c.
Proof.
  revert i t. induction p as [|a p IH]; intros i t Hc; simpl; [reflexivity|].
  apply not_elem_of_cons in Hc as [Hne Hc]. rewrite IH by assumption.
  unfold upd. destruct (Ascii.eqb_spec c a); congruence.
Qed.

Lemma bc_fill_in (p : list byte) i t c :
  c ∈ p ->
  exists k : nat, p !! k = Some c /\ bc_fill p i t c = i + Z.of_nat k /\
    forall k' : nat, p !! k' = Some c -> (k' <= k)%nat.
Proof.
  revert i t. induction p as [|a p IH]; intros i t Hc; simpl.
  { inversion Hc. }
  destruct (decide (c ∈ p)) as [Hin|Hnin].
  - destruct (IH (i + 1) (upd t a i) Hin) as (k & Hk & E & Hmax).
    exists (S k). split; [exact Hk|]. split; [lia|].
    intros [|k'] Hk'; [lia|]. apply Hmax in Hk'. lia.
  - apply elem_of_cons in Hc as [->|Hc]; [|contradiction].
    exists 0%nat. split; [reflexivity|]. split.
    + rewrite bc_fill_notin by assumption. unfold upd.
      rewrite Ascii.eqb_refl. lia.
    + intros [|k'] Hk'; [lia|]. simpl in Hk'.
      apply list_elem_of_lookup_2 in Hk'. contradiction.
Qed.

(** ** Matchers built by [New] *)

Lemma normChar_fold bm c : normChar bm c = fold_case (ignoreCase bm) c.
Proof.
  unfold normChar, fold_case, to_lower. destruct (ignoreCase bm); reflexivity.
Qed.

Lemma folded_eq (ic : bool) pattern :
  (if ic then map to_lower (list_ascii_of_string pattern)
   else list_ascii_of_string pattern) = folded ic pattern.
Proof.
  unfold folded, fold_case. destruct ic; [reflexivity|].
  symmetry. apply map_id.
Qed.

Definition bm_wf (bm : BoyerMoore) : Prop :=
  0 < len (pat bm) /\
  gs_inv (len (pat bm)) (gsShift bm) /\
  bcShift bm = bc_fill (pat bm) 0 (fun _ => -1) /\
  gs_min (pat bm) (gsShift bm).

Lemma New_empty ic : New "" ic = Ok (mkBoyerMoore [] ic (fun _ => 0) []).
Proof. reflexivity. Qed.

Lemma New_nonempty pattern ic :
  pattern <> ""%string ->
  exists bm, New pattern ic = Ok bm /\ pat bm = folded ic pattern /\
             ignoreCase bm = ic /\ bm_wf bm.
Proof.
  intros Hne. unfold New.
  assert (Hl : 0 < len (list_ascii_of_string pattern)).
  { destruct pattern; [congruence|simpl; lia]. }
  destruct (Z.eqb_spec (len (list_ascii_of_string pattern)) 0); [lia|].
  rewrite folded_eq.
  assert (Hf : 0 < len (folded ic pattern)).
  { unfold folded. rewrite length_map. exact Hl. }
  destruct (buildGoodSuffixShift_ok
    (buildBadCharShift (mkBoyerMoore (folded ic pattern) ic (fun _ => 0)
       (repeat 0 (length (folded ic pattern)))))) as (gs & E & Hgs & Hmin).
  { exact Hf. }
  rewrite E. eexists; split; [reflexivity|]. simpl.
  split_and!; try reflexivity. split_and!; simpl; auto.
Qed.

Lemma bm_wf_bc_bounds bm c :
  bm_wf bm -> -1 <= bcShift bm c < len (pat bm).
Proof.
  intros (Hm & _ & -> & _). destruct (decide (c ∈ pat bm)) as [Hin|Hnin].
  - destruct (bc_fill_in (pat bm) 0 (fun _ => -1) c Hin) as (k & Hk & -> & _).
    apply lookup_lt_Some in Hk. lia.
  - rewrite bc_fill_notin by assumption. lia.
Qed.

Lemma bm_wf_bc_last bm c (k : nat) :
  bm_wf bm -> pat bm !! k = Some c -> Z.of_nat k <= bcShift bm c.
Proof.
  intros (_ & _ & -> & _) Hk.
  destruct (bc_fill_in (pat bm) 0 (fun _ => -1) c) as (k0 & _ & -> & Hmax).
  { eapply list_elem_of_lookup_2; eassumption. }
  apply Hmax in Hk. lia.
Qed.

(** ** The scanning loop *)

(** Position [k] of the pattern agrees with the window at [s]. *)
Definition agree (bm : BoyerMoore) (data : list byte) (s k : Z) : Prop :=
  exists a b, idx (pat bm) k = Ok a /\ idx data (s + k) = Ok b /\
              a = normChar bm b.

(** The whole window at [s] matches. *)
Definition window_match (bm : BoyerMoore) (data : list byte) (s : Z) : Prop :=
  0 <= s /\ s + len (pat bm) <= len data /\
  forall k, 0 <= k < len (pat bm) -> agree bm data s k.

Lemma compare_window_spec bm data s :
  0 <= s <= len data - len (pat bm) ->
  exists j, compare_window bm data s = Ok j /\ -1 <= j < len (pat bm) /\
    (forall k, j < k < len (pat bm) -> agree bm data s k) /\
    (0 <= j -> ~ agree bm data s j).
Proof.
  intros Hs. unfold compare_window.
  destruct (while_rule
    (fun j => -1 <= j < len (pat bm) /\
              forall k, j < k < len (pat bm) -> agree bm data s k)
    (fun j => Z.to_nat (j + 1))
    (fun j => if 0 <=? j then
                do a <- idx (pat bm) j;
                do b <- idx data (s + j);
                Ok (Ascii.eqb a (normChar bm b))
              else Ok false)
    (fun j => Ok (j - 1)))
    with (fuel := S (length (pat bm))) (s := len (pat bm) - 1)
    as (j & E & [Hj Hk] & Hc).
  - intros j [Hj _]. destruct (Z.leb_spec 0 j); [|eauto].
    use_idx (pat bm) j. use_idx data (s + j). eauto.
  - intros j [Hj Hk] Hc. exists (j - 1). split; [reflexivity|].
    destruct (Z.leb_spec 0 j); [|discriminate].
    split; [|lia]. split; [lia|]. intros k Hkr.
    destruct (Z.eq_dec k j) as [->|]; [|apply Hk; lia].
    apply bind_Ok in Hc as (a & Ea & Hc).
    apply bind_Ok in Hc as (b & Eb & Hc). injection Hc as Hc.
    exists a, b. split_and!; auto. apply Ascii.eqb_eq. exact Hc.
  - split; [lia|]. intros; lia.
  - lia.
  - exists j. split_and!; auto; try lia. intros Hj0 (a & b & Ea & Eb & Hab).
    destruct (Z.leb_spec 0 j); [|lia].
    rewrite Ea, Eb in Hc. simpl in Hc. injection Hc as Hc.
    apply Ascii.eqb_neq in Hc. contradiction.
Qed.

Lemma window_match_iff bm data s j :
  0 <= s <= len data - len (pat bm) -> -1 <= j < len (pat bm) ->
  (forall k, j < k < len (pat bm) -> agree bm data s k) ->
  (0 <= j -> ~ agree bm data s j) ->
  (window_match bm data s <-> j < 0).
Proof.
  intros Hs Hj Hk Hn. split.
  - intros (_ & _ & Hw). destruct (Z.lt_ge_cases j 0) as [|Hj0]; [assumption|].
    exfalso. apply (Hn ltac:(lia)). apply Hw. lia.
  - intros Hlt. split_and!; try lia. intros k Hkr. apply Hk. lia.
Qed.

Lemma gs_inv_lookup m gs j :
  gs_inv m gs -> 0 <= j < m ->
  exists x, idx gs j = Ok x /\ 1 <= x <= m.
Proof.
  intros [Hl He] Hj. use_idx gs j. exists x. split; [reflexivity|].
  exact (He _ _ L).
Qed.

(** The window start after one iteration, from the source. *)
Definition post_match (bm : BoyerMoore) (data : list byte) (s s' : Z) : Prop :=
  if s + len (pat bm) <? len data then
    exists c, idx data (s + len (pat bm)) = Ok c /\
              s' = s + (len (pat bm) - bcShift bm (normChar bm c))
  else s' = s + 1.

Definition post_mismatch (bm : BoyerMoore) (data : list byte) (s j s' : Z)
    : Prop :=
  exists c g, idx data (s + j) = Ok c /\ idx (gsShift bm) j = Ok g /\
              s' = s + Z.max (Z.max 1 (j - bcShift bm (normChar bm c))) g.

Lemma scan_step_spec bm data s results :
  bm_wf bm -> 0 <= s <= len data - len (pat bm) ->
  exists s' results',
    scan_step bm data (s, results) = Ok (s', results') /\ s < s' /\
    ((window_match bm data s /\ results' = results ++ [s] /\
      post_match bm data s s') \/
     (exists j, 0 <= j < len (pat bm) /\ ~ agree bm data s j /\
        (forall k, j < k < len (pat bm) -> agree bm data s k) /\
        results' = results /\ post_mismatch bm data s j s')).
Proof.
  intros Hwf Hs. pose proof Hwf as (Hm & Hgs & Hbc & _).
  unfold scan_step.
  destruct (compare_window_spec bm data s Hs) as (j & -> & Hj & Hk & Hn).
  simpl. destruct (Z.ltb_spec j 0) as [Hj0|Hj0].
  - assert (Hw : window_match bm data s).
    { eapply window_match_iff; eauto. }
    unfold post_match. destruct (Z.ltb_spec (s + len (pat bm)) (len data)).
    + use_idx data (s + len (pat bm)).
      pose proof (bm_wf_bc_bounds bm (normChar bm x) Hwf).
      eexists _, _; split; [reflexivity|]. split; [lia|]. left.
      split_and!; eauto.
    + eexists _, _; split; [reflexivity|]. split; [lia|]. left.
      split_and!; eauto.
  - use_idx data (s + j).
    destruct (gs_inv_lookup _ _ j Hgs) as (g & Eg & Hg); [lia|].
    rewrite Eg; simpl.
    set (b := j - bcShift bm (normChar bm x)).
    assert (Hclamp : (if b <? 1 then 1 else b) = Z.max 1 b).
    { destruct (Z.ltb_spec b 1); lia. }
    rewrite Hclamp.
    assert (Hres : forall s', s' = s + Z.max (Z.max 1 b) g ->
      exists j0, 0 <= j0 < len (pat bm) /\ ~ agree bm data s j0 /\
        (forall k, j0 < k < len (pat bm) -> agree bm data s k) /\
        results = results /\ post_mismatch bm data s j0 s').
    { intros s' ->. exists j. split_and!; auto; try lia.
      exists x, g. auto. }
    destruct (Z.ltb_spec g (Z.max 1 b)).
    + eexists _, _; split; [reflexivity|]. split; [lia|]. right.
      apply Hres. lia.
    + eexists _, _; split; [reflexivity|]. split; [lia|]. right.
      apply Hres. lia.
Qed.

(** *** Shifts never pass an occurrence *)

Lemma agree_inv bm data s k :
  agree bm data s k ->
  exists b, idx data (s + k) = Ok b /\
            pat bm !! Z.to_nat k = Some (normChar bm b) /\ 0 <= k.
Proof.
  intros (a & b & [Hk Ea]%idx_Ok & Eb & ->). eauto.
Qed.

Lemma idx_fun {A} (l : list A) i x y :
  idx l i = Ok x -> idx l i = Ok y -> x = y.
Proof. congruence. Qed.

(** The shift after a full match aligns the text byte just after the
    window with its last occurrence in the pattern: no window in between
    can match. *)
Lemma post_match_safe bm data s s' t :
  bm_wf bm -> post_match bm data s s' -> s < t ->
  window_match bm data t -> s' <= t.
Proof.
  intros Hwf Hp Hst (_ & _ & Ht). unfold post_match in Hp.
  destruct (Z.ltb_spec (s + len (pat bm)) (len data)); [|lia].
  destruct Hp as (c & Ec & ->).
  pose proof (bm_wf_bc_bounds bm (normChar bm c) Hwf).
  destruct (Z.le_gt_cases t (s + len (pat bm))); [|lia].
  destruct (agree_inv bm data t (s + len (pat bm) - t)) as (b & Eb & Hb & _).
  { apply Ht. lia. }
  replace (t + (s + len (pat bm) - t)) with (s + len (pat bm)) in Eb by lia.
  rewrite (idx_fun _ _ _ _ Eb Ec) in Hb.
  apply (bm_wf_bc_last bm _ _ Hwf) in Hb. lia.
Qed.

(** The bad-character shift after a mismatch at [j]. *)
Lemma bad_char_safe bm data s j c t :
  bm_wf bm -> idx data (s + j) = Ok c -> j < len (pat bm) -> s < t ->
  window_match bm data t -> s + (j - bcShift bm (normChar bm c)) <= t.
Proof.
  intros Hwf Ec Hj Hst (_ & _ & Ht).
  pose proof (bm_wf_bc_bounds bm (normChar bm c) Hwf).
  pose proof (idx_bound _ _ _ Ec).
  destruct (Z.le_gt_cases (s + (j - bcShift bm (normChar bm c))) t);
    [assumption|exfalso].
  destruct (agree_inv bm data t (s + j - t)) as (b & Eb & Hb & _).
  { apply Ht. lia. }
  replace (t + (s + j - t)) with (s + j) in Eb by lia.
  rewrite (idx_fun _ _ _ _ Eb Ec) in Hb.
  apply (bm_wf_bc_last bm _ _ Hwf) in Hb. lia.
Qed.


(** The good-suffix shift after a mismatch at [j]. *)
Lemma gs_safe bm data s j g t :
  bm_wf bm -> 0 <= j < len (pat bm) ->
  (forall k, j < k < len (pat bm) -> agree bm data s k) ->
  ~ agree bm data s j -> idx (gsShift bm) j = Ok g ->
  s < t < s + g -> window_match bm data t -> False.
Proof.
  intros Hwf Hj Hk Hn Eg Ht (_ & _ & Hw).
  pose proof Hwf as (Hm & _ & _ & Hmin).
  apply (Hmin j (t - s) g Hj Eg ltac:(lia)). split.
  - intros k Hkr Hd.
    destruct (Hk k Hkr) as (a & b & Ea & Eb & Hab).
    destruct (Hw (k - (t - s))) as (a' & b' & Ea' & Eb' & Hab'); [lia|].
    replace (t + (k - (t - s))) with (s + k) in Eb' by lia.
    assert (b' = b) as -> by congruence.
    exists a. split; congruence.
  - intros Hd.
    destruct (Hw (j - (t - s))) as (a' & b' & Ea' & Eb' & Hab'); [lia|].
    replace (t + (j - (t - s))) with (s + j) in Eb' by lia.
    destruct (idx_in_range (pat bm) j Hj) as (a & Ea & _).
    exists a', a. split_and!; auto. intros ->.
    apply Hn. exists a, b'. auto.
Qed.

(** No window between two consecutive window starts matches. *)
Lemma scan_step_no_skip bm data s rs s' rs' t :
  bm_wf bm -> 0 <= s <= len data - len (pat bm) ->
  scan_step bm data (s, rs) = Ok (s', rs') ->
  s < t < s' -> ~ window_match bm data t.
Proof.
  intros Hwf Hs E Ht Hw.
  destruct (scan_step_spec bm data s rs Hwf Hs)
    as (s1 & rs1 & E1 & _ & [(_ & _ & Hp)|(j & Hj & Hn & Hk & _ & Hp)]);
    rewrite E in E1; injection E1 as <- <-.
  - pose proof (post_match_safe bm data s s' t Hwf Hp ltac:(lia) Hw). lia.
  - destruct Hp as (c & g & Ec & Eg & ->).
    pose proof (bad_char_safe bm data s j c t Hwf Ec ltac:(lia) ltac:(lia) Hw).
    apply (gs_safe bm data s j g t Hwf Hj Hk Hn Eg); [lia|exact Hw].
Qed.

(** The loop invariant of [_findAll]: the recorded starts are matching
    windows, in increasing order, all before [s]. *)
Definition scan_inv (bm : BoyerMoore) (data : list byte) (st : Z * list Z)
    : Prop :=
  0 <= fst st /\
  Forall (fun r => window_match bm data r /\ r < fst st) (snd st) /\
  forall t, t < fst st -> window_match bm data t -> t ∈ snd st.

Lemma scan_inv_step bm data st :
  bm_wf bm -> scan_inv bm data st ->
  fst st <= len data - len (pat bm) ->
  exists st', scan_step bm data st = Ok st' /\ scan_inv bm data st' /\
              fst st < fst st'.
Proof.
  intros Hwf (Hs & Hrs & Hall) Hle. destruct st as [s results]. simpl in *.
  destruct (scan_step_spec bm data s results Hwf)
    as (s' & results' & E & Hlt & H); [lia|].
  pose proof (fun t => scan_step_no_skip bm data s results s' results' t Hwf
                ltac:(lia) E) as Hskip.
  exists (s', results'). split; [assumption|]. split; [|assumption].
  assert (Hmono : Forall (fun r => window_match bm data r /\ r < s') results).
  { eapply Forall_impl; [exact Hrs|]. simpl. intros r [? ?].
    split; [assumption|lia]. }
  split; [simpl; lia|]. simpl.
  destruct H as [(Hw & -> & _)|(j & Hj & Hn & _ & -> & _)].
  - split.
    + apply Forall_app. split; [assumption|]. constructor; [|constructor].
      split; [assumption|lia].
    + intros t Ht Hwt. apply elem_of_app.
      destruct (Z.lt_trichotomy t s) as [Hts|[->|Hts]].
      * left. apply Hall; assumption.
      * right. apply list_elem_of_singleton. reflexivity.
      * exfalso. apply (Hskip t); [lia|assumption].
  - split; [assumption|].
    intros t Ht Hwt. destruct (Z.lt_trichotomy t s) as [Hts|[->|Hts]].
    + apply Hall; assumption.
    + exfalso. apply Hn. apply Hwt. lia.
    + exfalso. apply (Hskip t); [lia|assumption].
Qed.

Lemma findAll_wf bm data :
  bm_wf bm ->
  exists results, _findAll bm data = Ok results /\
                  Forall (window_match bm data) results /\
                  forall t, window_match bm data t -> t ∈ results.
Proof.
  intros Hwf. pose proof Hwf as (Hm & _). unfold _findAll.
  destruct (Z.eqb_spec (len (pat bm)) 0); [lia|].
  destruct (Z.eqb_spec (len data) 0); cbn [orb].
  { exists []. split_and!; auto. intros t (? & ? & _). lia. }
  destruct (Z.ltb_spec (len data) (len (pat bm))); cbn [orb].
  { exists []. split_and!; auto. intros t (? & ? & _). lia. }
  destruct (while_rule (scan_inv bm data)
    (fun st => Z.to_nat (len data - len (pat bm) + 1 - fst st))
    (fun st => Ok (fst st <=? len data - len (pat bm)))
    (scan_step bm data))
    with (fuel := S (length data)) (s := (0, @nil Z))
    as (st & -> & (_ & Hst & Hall) & Hc).
  - eauto.
  - intros st Hst [= Hc]. apply Z.leb_le in Hc.
    destruct (scan_inv_step bm data st Hwf Hst Hc) as (st' & E & Hst' & Hlt).
    exists st'. split_and!; auto. lia.
  - split; simpl; [lia|]. split; [constructor|].
    intros t Ht (? & _). lia.
  - simpl. lia.
  - simpl. eexists; split; [reflexivity|].
    injection Hc as Hc. apply Z.leb_gt in Hc. split.
    + eapply Forall_impl; [exact Hst|]. simpl. tauto.
    + intros t Hw. apply Hall; [|assumption]. destruct Hw as (? & ? & _). lia.
Qed.

Lemma findAll_degenerate bm data :
  len (pat bm) = 0 \/ len data = 0 \/ len data < len (pat bm) ->
  _findAll bm data = Ok [].
Proof.
  intros H. unfold _findAll.
  destruct (Z.eqb_spec (len (pat bm)) 0); [reflexivity|].
  destruct (Z.eqb_spec (len data) 0); [reflexivity|].
  destruct (Z.ltb_spec (len data) (len (pat bm))); [reflexivity|]. lia.
Qed.

Lemma occurs_at_lookup ic P T s :
  occurs_at ic P T s <->
  0 <= s /\ s + len P <= len T /\
  forall (k : nat) c, P !! k = Some c ->
    exists d, T !! (Z.to_nat s + k)%nat = Some d /\
              fold_case ic d = fold_case ic c.
Proof.
  unfold occurs_at, slice. split; intros (Hs & Hl & H); split_and!; auto.
  - intros k c Hk. pose proof (lookup_lt_Some _ _ _ Hk) as Hlt.
    apply (f_equal (fun l => l !! k)) in H.
    rewrite !map_fmap, !list_lookup_fmap, lookup_take_lt, lookup_drop, Hk in H
      by lia.
    destruct (T !! (Z.to_nat s + k)%nat) as [d|]; [|discriminate].
    injection H as H. eauto.
  - rewrite !map_fmap. apply list_eq. intros k.
    rewrite !list_lookup_fmap.
    destruct (P !! k) as [c|] eqn:Hk.
    + pose proof (lookup_lt_Some _ _ _ Hk) as Hlt.
      rewrite lookup_take_lt, lookup_drop by lia.
      destruct (H k c Hk) as (d & -> & Hd). simpl. congruence.
    + apply lookup_ge_None in Hk.
      rewrite lookup_take_ge by lia. reflexivity.
Qed.

Lemma window_match_occurs bm ic P T s :
  pat bm = map (fold_case ic) P -> ignoreCase bm = ic ->
  (window_match bm T s <-> occurs_at ic P T s).
Proof.
  intros Hp Hic. rewrite occurs_at_lookup. unfold window_match, agree.
  rewrite Hp, length_map.
  split; intros (Hs & Hl & H); split_and!; auto.
  - intros k c Hk. pose proof (lookup_lt_Some _ _ _ Hk) as Hlt.
    destruct (H (Z.of_nat k)) as (a & b & [_ Ea]%idx_Ok & [_ Eb]%idx_Ok & Hab);
      [lia|].
    rewrite Nat2Z.id, map_fmap, list_lookup_fmap, Hk in Ea. injection Ea as <-.
    replace (Z.to_nat (s + Z.of_nat k)) with (Z.to_nat s + k)%nat in Eb by lia.
    exists b. split; [assumption|]. rewrite normChar_fold, Hic in Hab. auto.
  - intros k Hk.
    destruct (lookup_lt_is_Some_2 P (Z.to_nat k)) as [c Hc]; [lia|].
    destruct (H _ _ Hc) as (d & Hd & Hdc).
    exists (fold_case ic c), d. split_and!.
    + apply idx_Ok. split; [lia|].
      rewrite map_fmap, list_lookup_fmap, Hc. reflexivity.
    + apply idx_Ok. split; [lia|].
      replace (Z.to_nat (s + k)) with (Z.to_nat s + Z.to_nat k)%nat by lia.
      assumption.
    + rewrite normChar_fold, Hic. auto.
Qed.

(** ** Theorems about the single-pattern matcher *)

(** Every matcher [New] builds terminates on every input, with matching
    windows only. *)
Lemma New_total pattern ic :
  exists bm, New pattern ic = Ok bm /\ pat bm = folded ic pattern /\
             ignoreCase bm = ic /\
             (pattern <> ""%string -> bm_wf bm).
Proof.
  destruct (string_dec pattern "") as [->|Hne].
  - eexists; split; [apply New_empty|]. split_and!; auto. congruence.
  - destruct (New_nonempty pattern ic Hne) as (bm & E & Hp & Hi & Hwf).
    exists bm. auto.
Qed.

Lemma findAll_New pattern ic data :
  exists bm results,
    New pattern ic = Ok bm /\ _findAll bm data = Ok results /\
    Forall (occurs_at ic (list_ascii_of_string pattern) data) results /\
    (pattern <> ""%string ->
     forall t, occurs_at ic (list_ascii_of_string pattern) data t ->
               t ∈ results).
Proof.
  destruct (New_total pattern ic) as (bm & E & Hp & Hi & Hwf).
  exists bm. destruct (string_dec pattern "") as [->|Hne].
  - exists []. split_and!; auto; [|congruence]. apply findAll_degenerate. left.
    rewrite Hp. reflexivity.
  - destruct (findAll_wf bm data (Hwf Hne)) as (results & Er & Hr & Hall).
    exists results. split_and!; auto.
    + eapply Forall_impl; [exact Hr|]. intros s Hs.
      eapply window_match_occurs; eauto.
    + intros _ t Ht. apply Hall. eapply window_match_occurs; eauto.
Qed.

Lemma bm_search (pattern : string) (ic : bool) (data : list byte) :
  exists bm results,
    New pattern ic = Ok bm /\
    FindAllBytes bm data = Ok results /\
    FindAll bm (string_of_list_ascii data) = Ok results /\
    Forall (occurs_at ic (list_ascii_of_string pattern) data) results /\
    (pattern <> ""%string ->
     forall t, occurs_at ic (list_ascii_of_string pattern) data t ->
               t ∈ results).
Proof.
  destruct (findAll_New pattern ic data) as (bm & results & E & Er & H).
  exists bm, results. unfold FindAll, FindAllBytes.
  rewrite list_ascii_of_string_of_list_ascii. auto.
Qed.

(** C1. Every start index returned by [FindAll]/[FindAllBytes] of the
    single-pattern matcher is an occurrence of the pattern under the active
    case policy: the slice of the text of the pattern's length at that
    index equals the pattern, after ASCII folding of both sides when
    [ignoreCase] is set, byte for byte otherwise.  The search itself always
    returns. *)
Theorem bm_findAll_sound (pattern : string) (ic : bool) (data : list byte) :
  exists bm results,
    New pattern ic = Ok bm /\
    FindAllBytes bm data = Ok results /\
    FindAll bm (string_of_list_ascii data) = Ok results /\
    Forall (occurs_at ic (list_ascii_of_string pattern) data) results.
Proof.
  destruct (bm_search pattern ic data) as (bm & results & E & Eb & Es & H & _).
  exists bm, results. auto.
Qed.

(** C6. The single-pattern matcher returns the empty result, without
    failing, whenever the pattern is empty, the input is empty or the
    pattern is longer than the input. *)
Theorem bm_findAll_empty (pattern : string) (ic : bool) (data : list byte) :
  len (list_ascii_of_string pattern) = 0 \/ len data = 0 \/
  len data < len (list_ascii_of_string pattern) ->
  exists bm,
    New pattern ic = Ok bm /\
    FindAllBytes bm data = Ok [] /\
    FindAll bm (string_of_list_ascii data) = Ok [].
Proof.
  intros H. destruct (New_total pattern ic) as (bm & E & Hp & _).
  exists bm. unfold FindAll, FindAllBytes.
  rewrite list_ascii_of_string_of_list_ascii.
  split_and!; auto; apply findAll_degenerate;
    rewrite Hp; unfold folded; rewrite length_map; exact H.
Qed.

Lemma bm_findAll_empty_witness :
  exists bm,
    New "ABCDEFG" false = Ok bm /\
    FindAllBytes bm (list_ascii_of_string "ABC") = Ok [] /\
    FindAll bm (string_of_list_ascii (list_ascii_of_string "ABC")) = Ok [].
Proof.
  apply (bm_findAll_empty "ABCDEFG" false (list_ascii_of_string "ABC")).
  right; right. simpl. lia.
Defined.

(** *** C7: the bad-character table *)

Lemma bc_fill_spec (p : list byte) :
  bc_table_spec p (bc_fill p 0 (fun _ => -1)).
Proof.
  intros b. split; intros Hb.
  - destruct (bc_fill_in p 0 (fun _ => -1) b Hb) as (k & Hk & -> & Hmax).
    split_and!; [lia| |].
    + replace (Z.to_nat (0 + Z.of_nat k)) with k by lia. exact Hk.
    + intros k' Hk'. apply Hmax in Hk'. lia.
  - apply bc_fill_notin. exact Hb.
Qed.

(** C7 as stated fails on the empty pattern: [New] returns early with a
    zeroed table, so a byte that does not occur is mapped to 0, not -1. *)
Lemma bm_bad_char_table_empty_pattern :
  exists bm, New "" false = Ok bm /\
             ~ bc_table_spec (folded false "") (bcShift bm).
Proof.
  eexists; split; [reflexivity|]. simpl. intros H.
  destruct (H "a"%char) as [_ H']. specialize (H' ltac:(apply not_elem_of_nil)).
  discriminate.
Qed.

(** C7, amended. For every non-empty pattern the table built by [New] maps
    each byte to the largest index of the folded pattern holding it, and
    to -1 when the byte does not occur; for the empty pattern [New] leaves
    the table zeroed. *)
Theorem bm_bad_char_table (pattern : string) (ic : bool) :
  exists bm,
    New pattern ic = Ok bm /\ pat bm = folded ic pattern /\
    (pattern <> ""%string -> bc_table_spec (folded ic pattern) (bcShift bm)) /\
    (pattern = ""%string -> forall b, bcShift bm b = 0).
Proof.
  destruct (New_total pattern ic) as (bm & E & Hp & _ & Hwf).
  exists bm. split_and!; auto.
  - intros Hne. destruct (Hwf Hne) as (_ & _ & -> & _). rewrite Hp.
    apply bc_fill_spec.
  - intros ->. rewrite New_empty in E. injection E as <-. reflexivity.
Qed.

Lemma bm_bad_char_table_witness :
  exists bm, New "ABA" false = Ok bm /\
             bc_table_spec (folded false "ABA") (bcShift bm).
Proof.
  destruct (bm_bad_char_table "ABA" false) as (bm & E & _ & H & _).
  exists bm. split; [exact E|]. apply H. discriminate.
Defined.

(** *** C10: termination of the scan *)

(** C10. The scan of the single-pattern matcher terminates on every input;
    for a non-empty pattern every bad-character entry is at most [m - 1]
    (so the shift after a match is at least 1), every good-suffix entry is
    at least 1, and each iteration of the outer loop strictly increases
    the window start: after a match by [m - bcShift[b]] or by exactly 1,
    after a mismatch by the maximum of the clamped bad-character shift and
    the good-suffix entry. *)
Theorem bm_scan_terminates (pattern : string) (ic : bool) (data : list byte) :
  exists bm results,
    New pattern ic = Ok bm /\ FindAllBytes bm data = Ok results /\
    (pattern <> ""%string ->
       (forall b, bcShift bm b <= len (pat bm) - 1) /\
       len (gsShift bm) = len (pat bm) /\
       Forall (fun g => 1 <= g) (gsShift bm) /\
       forall s rs, 0 <= s <= len data - len (pat bm) ->
         exists s' rs',
           scan_step bm data (s, rs) = Ok (s', rs') /\ s < s' /\
           (post_match bm data s s' \/
            exists j, post_mismatch bm data s j s')).
Proof.
  destruct (findAll_New pattern ic data) as (bm & results & E & Er & _ & _).
  exists bm, results. split_and!; auto. intros Hne.
  destruct (New_nonempty pattern ic Hne) as (bm' & E' & _ & _ & Hwf).
  assert (bm' = bm) as -> by congruence.
  pose proof Hwf as (Hm & [Hl He] & Hbc & _). split_and!.
  - intros b. pose proof (bm_wf_bc_bounds bm b Hwf). lia.
  - exact Hl.
  - apply Forall_lookup. intros k g Hk. apply (He k g Hk).
  - intros s rs Hs.
    destruct (scan_step_spec bm data s rs Hwf Hs)
      as (s' & rs' & Es & Hlt & [(_ & _ & Hp)|(j & _ & _ & _ & _ & Hp)]);
      exists s', rs'; eauto.
Qed.

Lemma bm_scan_terminates_witness :
  exists bm s' rs',
    New "AB" false = Ok bm /\
    scan_step bm (list_ascii_of_string "ABABAB") (2, [0]) = Ok (s', rs') /\
    2 < s'.
Proof.
  destruct (bm_scan_terminates "AB" false (list_ascii_of_string "ABABAB"))
    as (bm & results & E & _ & H).
  destruct (H ltac:(discriminate)) as (_ & Hl & _ & Hs).
  destruct (Hs 2 [0]) as (s' & rs' & Es & Hlt & _).
  { rewrite <- Hl. pose proof E as E0. vm_compute in E0.
    injection E0 as <-. simpl. lia. }
  exists bm, s', rs'. auto.
Defined.

(** *** C3: the shift after a full match *)

Lemma recorded_step bm data s rs s' :
  bm_wf bm -> 0 <= s <= len data - len (pat bm) ->
  scan_step bm data (s, rs) = Ok (s', rs ++ [s]) ->
  window_match bm data s /\ post_match bm data s s'.
Proof.
  intros Hwf Hs E.
  destruct (scan_step_spec bm data s rs Hwf Hs)
    as (s1 & rs1 & E1 & _ & [(Hw & _ & Hp)|(j & _ & _ & _ & Hrs & _)]);
    rewrite E in E1; injection E1 as <- <-.
  - auto.
  - apply (f_equal length) in Hrs. rewrite length_app in Hrs.
    simpl in Hrs. lia.
Qed.

(** C3 fails on the code: no pattern and no text exhibit such a skip. *)
Lemma bm_no_skipped_overlap :
  ~ exists pattern ic data, skipped_overlap pattern ic data.
Proof.
  intros (pattern & ic & data & bm & results & s & s' & rs & t &
          E & Ef & Hin & Estep & Ht & Hocc & Hlt & _).
  destruct (New_total pattern ic) as (bm' & E' & Hp & Hic & Hwf).
  assert (bm' = bm) as -> by congruence.
  destruct (string_dec pattern "") as [->|Hne].
  { unfold FindAllBytes in Ef.
    rewrite findAll_degenerate in Ef by (left; rewrite Hp; reflexivity).
    injection Ef as <-. inversion Hin. }
  specialize (Hwf Hne).
  destruct (findAll_wf bm data Hwf) as (results' & Ef' & Hall & _).
  unfold FindAllBytes in Ef. assert (results' = results) as -> by congruence.
  rewrite Forall_forall in Hall. pose proof (Hall s Hin) as (Hs0 & Hsl & _).
  destruct (recorded_step bm data s rs s' Hwf ltac:(lia) Estep) as [_ Hpost].
  assert (Hw : window_match bm data t).
  { eapply window_match_occurs; eauto. }
  pose proof (post_match_safe bm data s s' t Hwf Hpost ltac:(lia) Hw). lia.
Qed.

Lemma post_match_never_skips (pattern : string) (ic : bool)
    (data : list byte) (bm : BoyerMoore) (s s' t : Z) (rs : list Z) :
  New pattern ic = Ok bm ->
  0 <= s <= len data - len (pat bm) ->
  scan_step bm data (s, rs) = Ok (s', rs ++ [s]) ->
  s < t -> occurs_at ic (list_ascii_of_string pattern) data t ->
  s' <= t.
Proof.
  intros E Hs Estep Hst Hocc.
  destruct (New_total pattern ic) as (bm' & E' & Hp & Hic & Hwf).
  assert (bm' = bm) as -> by congruence.
  destruct (string_dec pattern "") as [->|Hne].
  { rewrite New_empty in E. injection E as <-.
    unfold scan_step, compare_window in Estep. simpl in Estep.
    destruct (s + Z.of_nat 0 <? len data).
    - destruct (idx data (s + Z.of_nat 0)); simpl in Estep; try discriminate.
      injection Estep as <-. lia.
    - injection Estep as <-. lia. }
  specialize (Hwf Hne).
  destruct (recorded_step bm data s rs s' Hwf Hs Estep) as [_ Hpost].
  eapply post_match_safe; eauto. eapply window_match_occurs; eauto.
Qed.

(** C3, amended. The single-pattern matcher never skips an occurrence:
    after a full match at [s] the bad-character shift moves the window no
    further than the next occurrence of the pattern, and every occurrence
    of a non-empty pattern, also one that starts strictly inside a window
    just matched, is in the result of [FindAll]/[FindAllBytes]. *)
Theorem bm_findAll_complete (pattern : string) (ic : bool)
    (data : list byte) :
  exists bm results,
    New pattern ic = Ok bm /\
    FindAllBytes bm data = Ok results /\
    FindAll bm (string_of_list_ascii data) = Ok results /\
    (pattern <> ""%string ->
     forall t, occurs_at ic (list_ascii_of_string pattern) data t ->
               t ∈ results) /\
    (forall s s' rs t,
       0 <= s <= len data - len (pat bm) ->
       scan_step bm data (s, rs) = Ok (s', rs ++ [s]) ->
       s < t -> occurs_at ic (list_ascii_of_string pattern) data t ->
       s' <= t).
Proof.
  destruct (bm_search pattern ic data)
    as (bm & results & E & Eb & Es & _ & Hall).
  exists bm, results. split_and!; auto.
  intros s s' rs t Hs Estep Hst Hocc.
  eapply post_match_never_skips; eauto.
Qed.

Lemma bm_findAll_complete_witness :
  exists bm results,
    New "aa" false = Ok bm /\
    FindAllBytes bm (list_ascii_of_string "aaa") = Ok results /\
    0 ∈ results /\ 1 ∈ results.
Proof.
  destruct (bm_findAll_complete "aa" false (list_ascii_of_string "aaa"))
    as (bm & results & E & Eb & _ & H & _).
  exists bm, results. split_and!; auto.
  - apply H; [discriminate|]. split_and!; simpl; try lia. reflexivity.
  - apply H; [discriminate|]. split_and!; simpl; try lia. reflexivity.
Defined.

End BoyerMooreProofs.

(** * Tries and longest suffixes *)

Lemma suffix_cons_cases {A} (x : list A) a w :
  x `suffix_of` a :: w -> x = a :: w \/ x `suffix_of` w.
Proof.
  destruct x; [right; apply suffix_nil|apply suffix_cons_inv].
Qed.

(** The keyword trie, seen through the label of each node: [lab] gives
    the string spelled from the root to each node and [t] is the
    transition table of the trie, with 0 for a missing edge. *)
Section Trie.

Variable lab : list (list byte).
Variable t : Z -> byte -> Z.

Definition valid (v : Z) : Prop := 0 <= v < len lab.

Definition L (v : Z) : list byte := default [] (lab !! Z.to_nat v).

Record trie : Prop := {
  tr_root : L 0 = [];
  tr_size : 0 < len lab;
  tr_inj : forall u v, valid u -> valid v -> L u = L v -> u = v;
  tr_edge : forall v c, valid v ->
    t v c = 0 \/ (valid (t v c) /\ L (t v c) = L v ++ [c]);
  tr_parent : forall u w c, valid u -> L u = w ++ [c] ->
    exists v, valid v /\ L v = w /\ t v c = u
}.

(** [w] is spelled by some node. *)
Definition in_trie (w : list byte) : Prop := exists v, valid v /\ L v = w.

(** [u] spells the longest suffix of [w] that the trie contains. *)
Definition is_lsuf (w : list byte) (u : Z) : Prop :=
  valid u /\ L u `suffix_of` w /\
  forall v, valid v -> L v `suffix_of` w -> (length (L v) <= length (L u))%nat.

Hypothesis Htrie : trie.

Lemma valid_root : valid 0.
Proof. destruct Htrie. unfold valid. lia. Qed.

Lemma root_only_empty v : valid v -> L v = [] -> v = 0.
Proof.
  intros Hv He. apply (tr_inj Htrie); auto using valid_root.
  rewrite He. symmetry. apply (tr_root Htrie).
Qed.

Lemma in_trie_snoc w c : in_trie (w ++ [c]) -> in_trie w.
Proof.
  intros (u & Hu & Eu).
  destruct (tr_parent Htrie u w c Hu Eu) as (v & Hv & Ev & _).
  exists v; auto.
Qed.

Lemma edge_target v c :
  valid v -> t v c <> 0 -> valid (t v c) /\ L (t v c) = L v ++ [c].
Proof.
  intros Hv Hne. destruct (tr_edge Htrie v c Hv); [contradiction|auto].
Qed.

(** A node has an edge for [c] exactly when the trie contains its label
    extended by [c]. *)
Lemma no_edge v c : valid v -> t v c = 0 -> ~ in_trie (L v ++ [c]).
Proof.
  intros Hv H0 (u & Hu & Eu).
  destruct (tr_parent Htrie u _ c Hu Eu) as (v' & Hv' & Ev' & Et).
  assert (v' = v) as -> by (apply (tr_inj Htrie); auto).
  rewrite H0 in Et. subst u. rewrite (tr_root Htrie) in Eu.
  destruct (L v); discriminate.
Qed.

Lemma suffix_of_same_length (x y w : list byte) :
  x `suffix_of` w -> y `suffix_of` w -> (length x <= length y)%nat ->
  x `suffix_of` y.
Proof.
  intros Hx Hy Hl.
  destruct (suffix_weak_total x y w Hx Hy) as [|Hyx]; [assumption|].
  pose proof (suffix_length _ _ Hyx).
  assert (length y = length x) as Heq by lia.
  apply suffix_length_eq in Hyx; [|assumption]. subst. reflexivity.
Qed.

Lemma is_lsuf_unique w u u' : is_lsuf w u -> is_lsuf w u' -> u = u'.
Proof.
  intros (Hu & Su & Mu) (Hu' & Su' & Mu').
  apply (tr_inj Htrie); auto.
  pose proof (Mu _ Hu' Su'). pose proof (Mu' _ Hu Su).
  assert (L u `suffix_of` L u') as H1 by (eapply suffix_of_same_length; eauto).
  apply suffix_length_eq in H1; [assumption|lia].
Qed.

(** Every suffix of [w] in the trie is a suffix of the longest one. *)
Lemma is_lsuf_covers w u x :
  is_lsuf w u -> in_trie x -> x `suffix_of` w -> x `suffix_of` L u.
Proof.
  intros (Hu & Su & Mu) (v & Hv & <-) Sx.
  eapply suffix_of_same_length; eauto.
Qed.

(** Extending the text by one byte: the suffixes of [w ++ [c]] in the trie
    are those of [L u ++ [c]], for [u] the longest suffix of [w]. *)
Lemma suffix_extend w u c x :
  is_lsuf w u -> in_trie x -> x `suffix_of` w ++ [c] ->
  x `suffix_of` L u ++ [c].
Proof.
  intros Hu Hx Sx. destruct x as [|a x' _] using rev_ind.
  { apply suffix_nil. }
  pose proof (suffix_snoc_inv_1 _ _ _ _ Sx) as ->.
  apply suffix_snoc_inv_2 in Sx.
  apply suffix_app. eapply is_lsuf_covers; eauto using in_trie_snoc.
Qed.

Lemma is_lsuf_extend w u c z :
  is_lsuf w u -> is_lsuf (L u ++ [c]) z -> is_lsuf (w ++ [c]) z.
Proof.
  intros Hu (Hz & Sz & Mz). split_and!; [assumption| |].
  - etrans; [exact Sz|]. apply suffix_app. apply Hu.
  - intros v Hv Sv. apply Mz; [assumption|].
    eapply suffix_extend; eauto. exists v; auto.
Qed.

(** The transition over a trie edge. *)
Lemma is_lsuf_edge v c :
  valid v -> t v c <> 0 -> is_lsuf (L v ++ [c]) (t v c).
Proof.
  intros Hv Hne. destruct (edge_target v c Hv Hne) as [Hu Eu].
  split_and!; [assumption|rewrite Eu; reflexivity|].
  intros x Hx Sx. rewrite Eu. apply suffix_length. exact Sx.
Qed.

Lemma is_lsuf_nil : is_lsuf [] 0.
Proof.
  split_and!; [apply valid_root|rewrite (tr_root Htrie); apply suffix_nil|].
  intros v Hv Sv. apply suffix_length in Sv. rewrite (tr_root Htrie).
  exact Sv.
Qed.

(** The transition of the root over a missing edge. *)
Lemma is_lsuf_root_miss c : t 0 c = 0 -> is_lsuf (L 0 ++ [c]) 0.
Proof.
  intros H0. pose proof (no_edge 0 c valid_root H0) as Hno.
  split_and!; [apply valid_root|rewrite (tr_root Htrie); apply suffix_nil|].
  intros v Hv Sv. rewrite (tr_root Htrie) in *. simpl in *.
  apply suffix_cons_cases in Sv as [Sv|Sv].
  - exfalso. apply Hno. exists v. auto.
  - apply suffix_length in Sv. exact Sv.
Qed.

(** The transition of a node other than the root over a missing edge
    is the transition of its failure target. *)
Lemma is_lsuf_miss v c g z :
  valid v -> v <> 0 -> t v c = 0 ->
  is_lsuf (tail (L v)) g -> is_lsuf (L g ++ [c]) z ->
  is_lsuf (L v ++ [c]) z.
Proof.
  intros Hv Hne H0 Hg Hz.
  pose proof (no_edge v c Hv H0) as Hno.
  pose proof (is_lsuf_extend _ _ c z Hg Hz) as (Hzv & Sz & Mz).
  destruct (L v) as [|a w] eqn:Ev.
  { exfalso. apply Hne. apply root_only_empty; auto. }
  simpl in *. split_and!; [assumption|apply suffix_cons_r; exact Sz|].
  intros x Hx Sx. apply suffix_cons_cases in Sx as [Sx|Sx].
  - exfalso. apply Hno. exists x. auto.
  - apply Mz; assumption.
Qed.

(** The failure target of the child over an edge. *)
Lemma is_lsuf_child_fail v c g z :
  valid v -> v <> 0 -> t v c <> 0 ->
  is_lsuf (tail (L v)) g -> is_lsuf (L g ++ [c]) z ->
  is_lsuf (tail (L (t v c))) z.
Proof.
  intros Hv Hne Ht Hg Hz. destruct (edge_target v c Hv Ht) as [_ ->].
  destruct (L v) as [|a w] eqn:Ev.
  { exfalso. apply Hne. apply root_only_empty; auto. }
  simpl in *. eapply is_lsuf_extend; eauto.
Qed.

Lemma is_lsuf_root_child_fail c :
  t 0 c <> 0 -> is_lsuf (tail (L (t 0 c))) 0.
Proof.
  intros Ht. destruct (edge_target 0 c valid_root Ht) as [_ ->].
  rewrite (tr_root Htrie). simpl. apply is_lsuf_nil.
Qed.

(** A node other than the root whose label is a suffix of [w ++ [c]] is
    the child over [c] of a node whose label is a suffix of [w]. *)
Lemma suffix_node_parent u w c :
  valid u -> u <> 0 -> L u `suffix_of` w ++ [c] ->
  exists v, valid v /\ L v `suffix_of` w /\ t v c = u.
Proof.
  intros Hu Hne Su. destruct (L u) as [|a y _] eqn:Eu using rev_ind.
  { exfalso. apply Hne. apply root_only_empty; auto. }
  pose proof (suffix_snoc_inv_1 _ _ _ _ Su) as ->.
  apply suffix_snoc_inv_2 in Su.
  destruct (tr_parent Htrie u y c Hu Eu) as (v & Hv & Ev & Et).
  exists v. rewrite Ev. auto.
Qed.

(** Every node is reached from the root: a set of nodes that contains the
    root and is closed under the edges contains every node. *)
Lemma all_nodes_reached (S : Z -> Prop) :
  S 0 -> (forall v c, valid v -> S v -> t v c <> 0 -> S (t v c)) ->
  forall u, valid u -> S u.
Proof.
  intros H0 Hstep.
  assert (G : forall n u, valid u -> length (L u) = n -> S u).
  { induction n as [|n IH]; intros u Hu Hn.
    - apply nil_length_inv in Hn.
      rewrite (root_only_empty u Hu Hn). exact H0.
    - destruct (L u) as [|a y _] eqn:Eu using rev_ind; [discriminate|].
      rewrite length_app in Hn. simpl in Hn.
      destruct (tr_parent Htrie u y a Hu Eu) as (v & Hv & Ev & Et).
      subst u.
      apply Hstep; [assumption|apply IH; [assumption|rewrite Ev; lia]|].
      intros H0'. rewrite H0' in Eu. rewrite (tr_root Htrie) in Eu.
      destruct y; discriminate. }
  intros u Hu. eapply G; eauto.
Qed.

End Trie.

(** * The multi-pattern automaton *)

Section AhoCorasickProofs.

Import ahocorasick.

(** ** The tables of the automaton *)

(** Total readings of the three tables (0 and the empty list outside of
    them). *)
Definition NX (ac : AhoCorasick) (v : Z) (c : byte) : Z :=
  from_option (fun row : byte -> Z => row c) 0 (next ac !! Z.to_nat v).

Definition FL (ac : AhoCorasick) (v : Z) : Z :=
  default 0 (fail ac !! Z.to_nat v).

Definition OT (ac : AhoCorasick) (v : Z) : list Z :=
  default [] (out ac !! Z.to_nat v).

Lemma idx_next ac v row c : idx (next ac) v = Ok row -> row c = NX ac v c.
Proof. intros [_ H]%idx_Ok. unfold NX. rewrite H. reflexivity. Qed.

Lemma idx_fail ac v g : idx (fail ac) v = Ok g -> g = FL ac v.
Proof. intros [_ H]%idx_Ok. unfold FL. rewrite H. reflexivity. Qed.

Lemma idx_out ac v o : idx (out ac) v = Ok o -> o = OT ac v.
Proof. intros [_ H]%idx_Ok. unfold OT. rewrite H. reflexivity. Qed.

Lemma L_app_l lab x v : valid lab v -> L (lab ++ x) v = L lab v.
Proof.
  intros Hv. unfold L, valid in *. rewrite lookup_app_l by lia. reflexivity.
Qed.

Lemma L_app_new lab w : L (lab ++ [w]) (len lab) = w.
Proof.
  unfold L. rewrite Nat2Z.id, lookup_app_r by lia.
  rewrite Nat.sub_diag. reflexivity.
Qed.

Lemma valid_app lab (w : list byte) v :
  valid (lab ++ [w]) v <-> valid lab v \/ v = len lab.
Proof. unfold valid. rewrite length_app. simpl. lia. Qed.

(** *** The trie built by [buildTrie] *)

Record trie_inv (kws : list (list byte)) (ic : bool)
    (lab : list (list byte)) (ac : AhoCorasick) : Prop := {
  ti_kw : keywords ac = kws;
  ti_ic : ignoreCase ac = ic;
  ti_len_next : length (next ac) = length lab;
  ti_len_fail : length (fail ac) = length lab;
  ti_len_out : length (out ac) = length lab;
  ti_trie : trie lab (NX ac);
  ti_fail : forall v, FL ac v = 0;
  ti_out_bound : forall v i, valid lab v -> i ∈ OT ac v -> 0 <= i < len kws
}.

(** The automaton after a node has been added below [node] for [c]. *)
Definition add_node (ac : AhoCorasick) (node : Z) (c : byte) : AhoCorasick :=
  let row := default (fun _ => 0) (next ac !! Z.to_nat node) in
  mkAhoCorasick (keywords ac) (ignoreCase ac)
    (<[Z.to_nat node := upd row c (len (next ac))]> (next ac ++ [fun _ => 0]))
    (fail ac ++ [0]) (out ac ++ [[]]).

Lemma NX_add_node ac node c v c' :
  0 <= node < len (next ac) -> 0 <= v ->
  NX (add_node ac node c) v c' =
    if decide (v = node /\ c' = c) then len (next ac) else NX ac v c'.
Proof.
  intros Hn Hv. unfold NX, add_node. simpl.
  destruct (lookup_lt_is_Some_2 (next ac) (Z.to_nat node)) as [row Hrow];
    [lia|].
  rewrite Hrow. simpl.
  rewrite list_lookup_insert, length_app. simpl.
  case_decide as Hd.
  - destruct Hd as [Hd _]. assert (v = node) as -> by lia. simpl.
    unfold upd. rewrite Hrow. simpl.
    destruct (Ascii.eqb_spec c' c); case_decide; try tauto; try reflexivity.
  - assert (v <> node) by lia.
    case_decide; [tauto|].
    destruct (Z.lt_ge_cases v (len (next ac))).
    + rewrite lookup_app_l by lia. reflexivity.
    + rewrite (lookup_ge_None_2 (next ac)) by lia.
      destruct (Z.eq_dec v (len (next ac))) as [->|].
      * rewrite lookup_app_r by lia.
        replace (Z.to_nat (len (next ac)) - length (next ac))%nat with 0%nat
          by lia.
        reflexivity.
      * rewrite lookup_ge_None_2; [reflexivity|].
        rewrite length_app. simpl. lia.
Qed.

Lemma FL_app ac (x : nat) :
  (forall v, FL ac v = 0) -> default 0 ((fail ac ++ [0]) !! x) = 0.
Proof.
  intros H. destruct (Nat.lt_ge_cases x (length (fail ac))).
  - rewrite lookup_app_l by lia. specialize (H (Z.of_nat x)).
    unfold FL in H. rewrite Nat2Z.id in H. exact H.
  - destruct ((fail ac ++ [0]) !! x) as [y|] eqn:E; [|reflexivity].
    apply list_elem_of_lookup_2 in E. apply elem_of_app in E as [E|E].
    + apply list_elem_of_lookup_1 in E as [j Hj].
      pose proof (lookup_lt_Some _ _ _ Hj).
      specialize (H (Z.of_nat j)). unfold FL in H.
      rewrite Nat2Z.id, Hj in H. exact H.
    + apply list_elem_of_singleton in E. exact E.
Qed.

Lemma OT_app ac v :
  default [] ((out ac ++ [[]]) !! Z.to_nat v) = OT ac v.
Proof.
  unfold OT. destruct (Nat.lt_ge_cases (Z.to_nat v) (length (out ac))).
  - rewrite lookup_app_l by lia. reflexivity.
  - rewrite (lookup_ge_None_2 (out ac)) by lia.
    destruct ((out ac ++ [[]]) !! Z.to_nat v) as [y|] eqn:E; [|reflexivity].
    rewrite lookup_app_r in E by lia.
    apply list_elem_of_lookup_2, list_elem_of_singleton in E. subst.
    reflexivity.
Qed.

Lemma add_node_inv kws ic lab ac node c :
  trie_inv kws ic lab ac -> valid lab node -> NX ac node c = 0 ->
  trie_inv kws ic (lab ++ [L lab node ++ [c]]) (add_node ac node c).
Proof.
  intros [Hkw Hic Hln Hlf Hlo Ht Hf Hob] Hnode H0.
  assert (Hrange : 0 <= node < len (next ac)) by (unfold valid in *; lia).
  pose proof (no_edge _ _ Ht node c Hnode H0) as Hno.
  split; simpl; rewrite ?length_insert, ?length_app; simpl; try lia; auto.
  - (* the trie *)
    split.
    + rewrite L_app_l by (apply (valid_root _ _ Ht)). apply (tr_root _ _ Ht).
    + rewrite length_app. simpl. lia.
    + intros u v [Hu| ->]%valid_app [Hv| ->]%valid_app;
        rewrite ?L_app_l, ?L_app_new by assumption; auto.
      * apply (tr_inj _ _ Ht); assumption.
      * intros E. exfalso. apply Hno. exists u. auto.
      * intros E. rewrite L_app_l in E by assumption.
        exfalso. apply Hno. exists v. auto.
    + intros v c' Hv'. rewrite NX_add_node by (unfold valid in *; lia).
      case_decide as Hd.
      * destruct Hd as [-> ->]. right. rewrite Hln.
        split; [apply valid_app; auto|].
        rewrite L_app_new, L_app_l by assumption. reflexivity.
      * apply valid_app in Hv' as [Hv| ->].
        -- destruct (tr_edge _ _ Ht v c' Hv) as [E|[Hx Ex]]; [auto|right].
           split; [apply valid_app; auto|].
           rewrite !L_app_l by assumption. exact Ex.
        -- left. unfold NX. rewrite lookup_ge_None_2; [reflexivity|lia].
    + intros u w c' [Hu| ->]%valid_app.
      * rewrite L_app_l by assumption. intros Eu.
        destruct (tr_parent _ _ Ht u w c' Hu Eu) as (v & Hv & Ev & Et).
        exists v. split; [apply valid_app; auto|].
        split; [rewrite L_app_l by assumption; exact Ev|].
        rewrite NX_add_node by (unfold valid in *; lia).
        case_decide as Hd; [|exact Et].
        destruct Hd as [-> ->]. exfalso. rewrite H0 in Et. subst u.
        rewrite (tr_root _ _ Ht) in Eu. destruct w; discriminate.
      * rewrite L_app_new. intros [E1 <-]%app_inj_tail.
        exists node. split; [apply valid_app; auto|].
        split; [rewrite L_app_l by assumption; exact E1|].
        rewrite NX_add_node by lia. rewrite decide_True by auto. lia.
  - intros v. unfold FL. simpl. eapply FL_app; eauto.
  - intros v i [Hv| ->]%valid_app; unfold OT at 1; simpl; rewrite OT_app.
    + apply Hob. assumption.
    + unfold OT. rewrite lookup_ge_None_2 by lia. simpl.
      intros H; inversion H.
Qed.

Lemma trie_step_spec kws ic lab ac node c :
  trie_inv kws ic lab ac -> valid lab node ->
  exists ac' node' lab',
    trie_step c (ac, node) = Ok (ac', node') /\
    trie_inv kws ic lab' ac' /\ valid lab' node' /\
    L lab' node' = L lab node ++ [c] /\
    (forall v, valid lab v -> valid lab' v /\ L lab' v = L lab v) /\
    (forall v, OT ac' v = OT ac v).
Proof.
  intros Hinv Hnode. pose proof Hinv as [Hkw Hic Hln Hlf Hlo Ht Hf Hob].
  unfold trie_step.
  destruct (idx_in_range (next ac) node) as (row & E & Hrow);
    [unfold valid in *; lia|].
  rewrite E. simpl. rewrite (idx_next _ _ _ c E).
  destruct (Z.eqb_spec (NX ac node c) 0) as [H0|Hne].
  - destruct (idx_in_range (next ac ++ [fun _ => 0]) node)
      as (row' & E' & Hrow').
    { rewrite length_app. simpl. unfold valid in *. lia. }
    rewrite E'. simpl.
    rewrite set_idx_in_range
      by (rewrite length_app; simpl; unfold valid in *; lia).
    cbn [bind].
    assert (row' = row) as ->.
    { rewrite lookup_app_l in Hrow' by (apply lookup_lt_Some in Hrow; lia).
      congruence. }
    assert (Eadd : mkAhoCorasick (keywords ac) (ignoreCase ac)
               (<[Z.to_nat node := upd row c
                    (len (next ac ++ [fun _ : byte => 0]) - 1)]>
                  (next ac ++ [fun _ => 0]))
               (fail ac ++ [0]) (out ac ++ [[]]) = add_node ac node c).
    { unfold add_node. rewrite Hrow. simpl. rewrite length_app. simpl.
      do 4 f_equal. lia. }
    rewrite Eadd.
    pose proof (add_node_inv kws ic lab ac node c Hinv Hnode H0) as Hinv'.
    destruct (idx_in_range (next (add_node ac node c)) node) as (r2 & E2 & _).
    { rewrite (ti_len_next _ _ _ _ Hinv'), length_app. unfold valid in *. lia. }
    rewrite E2. cbn [bind]. rewrite (idx_next _ _ _ c E2).
    rewrite NX_add_node by (unfold valid in *; lia).
    rewrite decide_True by auto. rewrite Hln.
    exists (add_node ac node c), (len lab), (lab ++ [L lab node ++ [c]]).
    split_and!; auto.
    + apply valid_app. auto.
    + rewrite L_app_new. reflexivity.
    + intros v Hv. split; [apply valid_app; auto|apply L_app_l; assumption].
    + intros v. unfold OT at 1. simpl. apply OT_app.
  - simpl. rewrite E. simpl. rewrite (idx_next _ _ _ c E).
    destruct (edge_target _ _ Ht node c Hnode Hne) as [Hv' Ev'].
    exists ac, (NX ac node c), lab. split_and!; auto.
Qed.

(** The trie only grows: nodes keep their labels and their outputs. *)
Definition extends (lab : list (list byte)) (ac : AhoCorasick)
    (lab' : list (list byte)) (ac' : AhoCorasick) : Prop :=
  (forall v, valid lab v -> valid lab' v /\ L lab' v = L lab v) /\
  (forall v x, 0 <= v -> x ∈ OT ac v -> x ∈ OT ac' v).

Lemma extends_refl lab ac : extends lab ac lab ac.
Proof. split; auto. Qed.

Lemma extends_trans lab1 ac1 lab2 ac2 lab3 ac3 :
  extends lab1 ac1 lab2 ac2 -> extends lab2 ac2 lab3 ac3 ->
  extends lab1 ac1 lab3 ac3.
Proof.
  intros [H1 O1] [H2 O2]. split; [|auto].
  intros v Hv. destruct (H1 v Hv) as [Hv2 E2].
  destruct (H2 v Hv2) as [Hv3 E3]. split; [assumption|congruence].
Qed.

(** Keyword number [i], spelled [k], ends at a node that outputs [i]. *)
Definition kw_node (lab : list (list byte)) (ac : AhoCorasick)
    (i : Z) (k : list byte) : Prop :=
  exists v, valid lab v /\ L lab v = k /\ i ∈ OT ac v.

Lemma kw_node_extends lab ac lab' ac' i k :
  extends lab ac lab' ac' -> kw_node lab ac i k -> kw_node lab' ac' i k.
Proof.
  intros [H O] (v & Hv & Ev & Hi). destruct (H v Hv) as [Hv' E'].
  exists v. split_and!; auto; [congruence|]. apply O; [apply Hv|assumption].
Qed.

Lemma trie_walk kws ic k :
  forall lab ac node, trie_inv kws ic lab ac -> valid lab node ->
  exists ac' node' lab',
    foldM trie_step k (ac, node) = Ok (ac', node') /\
    trie_inv kws ic lab' ac' /\ valid lab' node' /\
    L lab' node' = L lab node ++ k /\
    (forall v, valid lab v -> valid lab' v /\ L lab' v = L lab v) /\
    (forall v, OT ac' v = OT ac v).
Proof.
  induction k as [|c k IH]; intros lab ac node Hinv Hnode; cbn [foldM].
  - exists ac, node, lab. rewrite app_nil_r. split_and!; auto.
  - destruct (trie_step_spec kws ic lab ac node c Hinv Hnode)
      as (ac1 & node1 & lab1 & -> & Hinv1 & Hnode1 & E1 & Hext1 & Hout1).
    cbn [bind].
    destruct (IH lab1 ac1 node1 Hinv1 Hnode1)
      as (ac2 & node2 & lab2 & -> & Hinv2 & Hnode2 & E2 & Hext2 & Hout2).
    exists ac2, node2, lab2. split_and!; auto.
    + rewrite E2, E1, <- app_assoc. reflexivity.
    + intros v Hv. destruct (Hext1 v Hv) as [Hv1 L1].
      destruct (Hext2 v Hv1) as [Hv2 L2]. split; [assumption|congruence].
    + intros v. rewrite Hout2. apply Hout1.
Qed.

Lemma OT_insert ac node o v :
  0 <= node < len (out ac) -> 0 <= v ->
  OT (mkAhoCorasick (keywords ac) (ignoreCase ac) (next ac) (fail ac)
        (<[Z.to_nat node := o]> (out ac))) v =
    if decide (v = node) then o else OT ac v.
Proof.
  intros Hn Hv. unfold OT. simpl. rewrite list_lookup_insert.
  case_decide as Hd.
  - rewrite decide_True by lia. reflexivity.
  - rewrite decide_False by lia. reflexivity.
Qed.

Lemma insert_keyword_spec kws ic lab ac i k :
  trie_inv kws ic lab ac -> 0 <= i < len kws ->
  exists ac' lab',
    insert_keyword (i, k) ac = Ok ac' /\ trie_inv kws ic lab' ac' /\
    extends lab ac lab' ac' /\ kw_node lab' ac' i k.
Proof.
  intros Hinv Hi. unfold insert_keyword.
  destruct (trie_walk kws ic k lab ac 0 Hinv)
    as (ac1 & node & lab1 & -> & Hinv1 & Hnode & E1 & Hext & Hout).
  { apply (valid_root _ _ (ti_trie _ _ _ _ Hinv)). }
  cbn [bind]. pose proof Hinv1 as [Hkw Hic Hln Hlf Hlo Ht Hf Hob].
  destruct (idx_in_range (out ac1) node) as (o & Eo & _);
    [unfold valid in *; lia|].
  rewrite Eo. cbn [bind]. apply idx_out in Eo. subst o.
  rewrite set_idx_in_range by (unfold valid in *; lia). cbn [bind].
  assert (Hnode0 : 0 <= node < len (out ac1)) by (unfold valid in *; lia).
  eexists _, lab1. split; [reflexivity|]. split_and!.
  - split; simpl; rewrite ?length_insert; auto.
    intros v x Hv. rewrite OT_insert by (unfold valid in *; lia).
    case_decide; [|apply Hob; assumption].
    intros [Hx|Hx]%elem_of_app; [apply (Hob node); assumption|].
    apply list_elem_of_singleton in Hx. lia.
  - split; [exact Hext|]. intros v x Hv Hx. rewrite <- Hout in Hx.
    rewrite OT_insert by lia. case_decide; [subst v|assumption].
    apply elem_of_app. auto.
  - exists node. split_and!; [assumption| |].
    + rewrite E1. rewrite (tr_root _ _ (ti_trie _ _ _ _ Hinv)). reflexivity.
    + rewrite OT_insert by (unfold valid in *; lia).
      rewrite decide_True by reflexivity. apply elem_of_app. right.
      apply list_elem_of_singleton. reflexivity.
Qed.

Lemma build_loop kws ic l :
  forall a lab ac, trie_inv kws ic lab ac -> 0 <= a -> a + len l <= len kws ->
  exists ac' lab',
    foldM insert_keyword (zip (seqZ a (len l)) l) ac = Ok ac' /\
    trie_inv kws ic lab' ac' /\ extends lab ac lab' ac' /\
    forall (j : nat) k, l !! j = Some k -> kw_node lab' ac' (a + Z.of_nat j) k.
Proof.
  induction l as [|k l IH]; intros a lab ac Hinv Ha Hl.
  - exists ac, lab. split_and!; auto using extends_refl.
    intros j k Hj. rewrite lookup_nil in Hj. discriminate.
  - simpl length in *. rewrite seqZ_cons by lia. cbn [zip zip_with foldM].
    destruct (insert_keyword_spec kws ic lab ac a k Hinv)
      as (ac1 & lab1 & -> & Hinv1 & Hext1 & Hk1); [lia|].
    cbn [bind].
    replace (Z.pred (Z.of_nat (S (length l)))) with (len l) by lia.
    destruct (IH (Z.succ a) lab1 ac1 Hinv1)
      as (ac2 & lab2 & -> & Hinv2 & Hext2 & Hk2); [lia|lia|].
    exists ac2, lab2. split_and!; auto.
    + eapply extends_trans; eauto.
    + intros [|j] k' Hj; simpl in Hj.
      * injection Hj as <-. rewrite Z.add_0_r.
        eapply kw_node_extends; eauto.
      * replace (a + Z.of_nat (S j)) with (Z.succ a + Z.of_nat j) by lia.
        apply Hk2. exact Hj.
Qed.

Definition empty_trie (kw : list (list byte)) (ic : bool) : AhoCorasick :=
  mkAhoCorasick kw ic [fun _ => 0] [0] [[]].

Lemma empty_trie_inv kw ic : trie_inv kw ic [[]] (empty_trie kw ic).
Proof.
  assert (Hv : forall v, valid [[]] v -> v = 0).
  { unfold valid. simpl. lia. }
  split; simpl; auto.
  - split.
    + reflexivity.
    + simpl. lia.
    + intros u v Hu%Hv Hv'%Hv. congruence.
    + intros v c Hv'%Hv. subst. left. reflexivity.
    + intros u w c Hu%Hv. subst. intros E. destruct w; discriminate.
  - intros v. unfold FL. simpl. destruct (Z.to_nat v) as [|[|n]]; reflexivity.
  - intros v i Hv'%Hv. subst. intros H. inversion H.
Qed.

Lemma buildTrie_spec kw ic :
  exists ac lab,
    buildTrie (empty_trie kw ic) = Ok ac /\ trie_inv kw ic lab ac /\
    ignoreCase ac = ic /\
    forall (j : nat) k, kw !! j = Some k -> kw_node lab ac (Z.of_nat j) k.
Proof.
  unfold buildTrie. simpl keywords.
  destruct (build_loop kw ic kw 0 [[]] (empty_trie kw ic)
              (empty_trie_inv kw ic))
    as (ac & lab & E & Hinv & _ & Hk); [lia|lia|].
  exists ac, lab. split_and!; auto. apply (ti_ic _ _ _ _ Hinv).
Qed.

(** ** The breadth-first construction of the failure links *)

Lemma all_bytes_all (c : byte) : c ∈ all_bytes.
Proof.
  apply list_elem_of_In. unfold all_bytes.
  rewrite <- (ascii_nat_embedding c). apply in_map. apply in_seq.
  pose proof (nat_ascii_bounded c). lia.
Qed.

Lemma NX_set_row ac' ac f row c z :
  next ac' = <[Z.to_nat f := upd row c z]> (next ac) ->
  next ac !! Z.to_nat f = Some row -> 0 <= f ->
  forall v c', 0 <= v ->
    NX ac' v c' = if decide (v = f /\ c' = c) then z else NX ac v c'.
Proof.
  intros E Hrow Hf v c' Hv. unfold NX. rewrite E, list_lookup_insert.
  pose proof (lookup_lt_Some _ _ _ Hrow).
  case_decide as Hd.
  - assert (v = f) as -> by lia. rewrite Hrow. simpl. unfold upd.
    destruct (Ascii.eqb_spec c' c); case_decide; try tauto; reflexivity.
  - rewrite decide_False by lia. reflexivity.
Qed.

Lemma FL_set ac' ac u z :
  fail ac' = <[Z.to_nat u := z]> (fail ac) -> 0 <= u < len (fail ac) ->
  forall x, 0 <= x -> FL ac' x = if decide (x = u) then z else FL ac x.
Proof.
  intros E Hu x Hx. unfold FL. rewrite E, list_lookup_insert.
  case_decide; [rewrite decide_True by lia|rewrite decide_False by lia];
    reflexivity.
Qed.

Lemma OT_set ac' ac u o :
  out ac' = <[Z.to_nat u := o]> (out ac) -> 0 <= u < len (out ac) ->
  forall x, 0 <= x -> OT ac' x = if decide (x = u) then o else OT ac x.
Proof.
  intros E Hu x Hx. unfold OT. rewrite E, list_lookup_insert.
  case_decide; [rewrite decide_True by lia|rewrite decide_False by lia];
    reflexivity.
Qed.

Section BFS.

Variable kws : list (list byte).
Variable ic : bool.
Variable lab : list (list byte).
Variable t : Z -> byte -> Z.
Hypothesis Ht : trie lab t.
Hypothesis Hkws : forall (i : nat) k, kws !! i = Some k -> in_trie lab k.

(** The transition of [v] over [c] has been given its final value: [v]
    has been dequeued and processed, or is being processed and [c] is
    among the bytes already handled. *)
Definition resolved (P : list Z) (cur : Z) (dn : list byte)
    (v : Z) (c : byte) : Prop :=
  v ∈ P \/ (v = cur /\ c ∈ dn).

(** The state of the construction: [P] lists the nodes fully processed,
    [cur] is the node being processed, [dn] the bytes handled for it and
    [Q] the queue. *)
Record bfs_inv (P : list Z) (cur : Z) (dn : list byte) (Q : list Z)
    (ac : AhoCorasick) : Prop := {
  b_kw : keywords ac = kws;
  b_ic : ignoreCase ac = ic;
  b_len_next : length (next ac) = length lab;
  b_len_fail : length (fail ac) = length lab;
  b_len_out : length (out ac) = length lab;
  b_res : forall v c, valid lab v -> resolved P cur dn v c ->
    is_lsuf lab (L lab v ++ [c]) (NX ac v c);
  b_unres : forall v c, valid lab v -> ~ resolved P cur dn v c ->
    NX ac v c = t v c;
  b_child : forall v c, valid lab v -> resolved P cur dn v c ->
    t v c <> 0 -> t v c ∈ P ++ cur :: Q;
  b_origin : forall x, x ∈ P ++ cur :: Q -> x <> 0 ->
    exists v c, valid lab v /\ resolved P cur dn v c /\ t v c = x;
  b_valid : forall x, x ∈ P ++ cur :: Q -> valid lab x;
  b_fail : forall x, x ∈ P ++ cur :: Q -> x <> 0 ->
    is_lsuf lab (tail (L lab x)) (FL ac x);
  b_fail_valid : forall v, valid lab v -> valid lab (FL ac v);
  b_out_own : forall (i : nat) k v, kws !! i = Some k -> valid lab v ->
    L lab v = k -> Z.of_nat i ∈ OT ac v;
  b_out_cl : forall x, x ∈ P ++ cur :: Q -> x <> 0 ->
    forall (i : nat) k, kws !! i = Some k -> k <> [] ->
      k `suffix_of` L lab x -> Z.of_nat i ∈ OT ac x;
  b_out_bound : forall v i, valid lab v -> i ∈ OT ac v -> 0 <= i < len kws;
  b_order_cur : forall u, valid lab u -> u <> 0 ->
    L lab u `suffix_of` tail (L lab cur) -> u ∈ P;
  b_order_Q : forall Q1 v Q2, Q = Q1 ++ v :: Q2 ->
    forall u, valid lab u -> u <> 0 ->
      L lab u `suffix_of` tail (L lab v) -> u ∈ P ++ cur :: Q1;
  b_nodup : NoDup (P ++ cur :: Q)
}.

Lemma resolved_mono P cur dn c v c' :
  resolved P cur dn v c' -> resolved P cur (dn ++ [c]) v c'.
Proof.
  intros [H|[H1 H2]]; [left; assumption|right].
  split; [assumption|]. apply elem_of_app. auto.
Qed.

Lemma resolved_snoc P cur dn c v c' :
  resolved P cur (dn ++ [c]) v c' ->
  resolved P cur dn v c' \/ (v = cur /\ c' = c).
Proof.
  intros [H|[H1 H2]]; [left; left; assumption|].
  apply elem_of_app in H2 as [H2|H2].
  - left. right. auto.
  - apply list_elem_of_singleton in H2. auto.
Qed.

Lemma cur_unresolved P cur dn Q ac c :
  bfs_inv P cur dn Q ac -> c ∉ dn -> ~ resolved P cur dn cur c.
Proof.
  intros Hinv Hc [H|[_ H]]; [|contradiction].
  pose proof (b_nodup _ _ _ _ _ Hinv) as Hnd.
  apply NoDup_app in Hnd as (_ & Hnd & _). apply (Hnd cur H). left.
Qed.

Lemma cur_valid P cur dn Q ac : bfs_inv P cur dn Q ac -> valid lab cur.
Proof.
  intros Hinv. apply (b_valid _ _ _ _ _ Hinv). apply elem_of_app. right. left.
Qed.

(** The child of [cur] over [c] has not been discovered yet. *)
Lemma child_fresh P cur dn Q ac c :
  bfs_inv P cur dn Q ac -> c ∉ dn -> t cur c <> 0 ->
  t cur c ∉ P ++ cur :: Q.
Proof.
  intros Hinv Hc Hne Hin.
  pose proof (cur_valid _ _ _ _ _ Hinv) as Hcur.
  destruct (b_origin _ _ _ _ _ Hinv _ Hin Hne) as (v & c' & Hv & Hres & Et).
  destruct (edge_target _ _ Ht cur c Hcur Hne) as [_ E1].
  assert (Hne' : t v c' <> 0) by congruence.
  destruct (edge_target _ _ Ht v c' Hv Hne') as [_ E2].
  rewrite Et, E1 in E2. apply app_inj_tail in E2 as [E2 ->].
  assert (v = cur) as -> by (apply (tr_inj _ _ Ht); auto).
  eapply cur_unresolved; eauto.
Qed.

Lemma split_snoc {A} (Q : list A) u Q1 v Q2 :
  Q ++ [u] = Q1 ++ v :: Q2 ->
  (Q2 = [] /\ v = u /\ Q1 = Q) \/
  (exists Q2', Q2 = Q2' ++ [u] /\ Q = Q1 ++ v :: Q2').
Proof.
  intros E. destruct Q2 as [|y Q2' _] using rev_ind.
  - left. apply app_inj_tail in E as [-> ->]. auto.
  - right. rewrite app_comm_cons, app_assoc in E.
    apply app_inj_tail in E as [-> ->]. exists Q2'. auto.
Qed.

(** Discovering the child of [cur] over [c]. *)
Lemma bfs_discover P cur dn Q ac ac' c z :
  bfs_inv P cur dn Q ac -> c ∉ dn -> t cur c <> 0 ->
  keywords ac' = keywords ac -> ignoreCase ac' = ignoreCase ac ->
  next ac' = next ac ->
  length (fail ac') = length (fail ac) ->
  (forall x, valid lab x ->
     FL ac' x = if decide (x = t cur c) then z else FL ac x) ->
  length (out ac') = length (out ac) ->
  (forall x, valid lab x -> x <> t cur c -> OT ac' x = OT ac x) ->
  (forall i, i ∈ OT ac (t cur c) -> i ∈ OT ac' (t cur c)) ->
  (forall i, i ∈ OT ac' (t cur c) -> 0 <= i < len kws) ->
  is_lsuf lab (tail (L lab (t cur c))) z ->
  (forall (i : nat) k, kws !! i = Some k -> k <> [] ->
     k `suffix_of` tail (L lab (t cur c)) -> Z.of_nat i ∈ OT ac' (t cur c)) ->
  (forall x, valid lab x -> x <> 0 ->
     L lab x `suffix_of` tail (L lab (t cur c)) -> x ∈ P ++ cur :: Q) ->
  bfs_inv P cur (dn ++ [c]) (Q ++ [t cur c]) ac'.
Proof.
  intros Hinv Hc Hne Ekw Eic Enext Elf Hfl Elo Hot Hot_u Hbound Hz Hcl Hord.
  pose proof (cur_valid _ _ _ _ _ Hinv) as Hcur.
  pose proof (child_fresh _ _ _ _ _ c Hinv Hc Hne) as Hfresh.
  destruct (edge_target _ _ Ht cur c Hcur Hne) as [Hu Eu].
  set (u := t cur c) in *.
  assert (HNX : forall v c', NX ac' v c' = NX ac v c').
  { intros. unfold NX. rewrite Enext. reflexivity. }
  assert (Hdisc : forall x, x ∈ P ++ cur :: Q ++ [u] ->
            x ∈ P ++ cur :: Q \/ x = u).
  { intros x. rewrite !elem_of_app, !elem_of_cons, !elem_of_app,
      list_elem_of_singleton. tauto. }
  assert (Hdisc' : forall x, x ∈ P ++ cur :: Q -> x ∈ P ++ cur :: Q ++ [u]).
  { intros x. rewrite !elem_of_app, !elem_of_cons, !elem_of_app. tauto. }
  destruct Hinv as [Hkw Hic Hln Hlf Hlo Hres Hunres Hchild Horig Hvalid
    Hfail Hfv Hown Hclo Hob Hoc HoQ Hnd].
  split.
  - congruence.
  - congruence.
  - congruence.
  - congruence.
  - congruence.
  - intros v c' Hv [Hr|[-> ->]]%resolved_snoc; rewrite HNX.
    + apply Hres; assumption.
    + rewrite Hunres; [apply is_lsuf_edge; assumption|assumption|].
      intros [H|[_ H]]; [|contradiction].
      apply NoDup_app in Hnd as (_ & Hnd & _). apply (Hnd cur H). left.
  - intros v c' Hv Hr. rewrite HNX. apply Hunres; [assumption|].
    intros Hr'. apply Hr. apply resolved_mono. exact Hr'.
  - intros v c' Hv [Hr|[-> ->]]%resolved_snoc Hne'.
    + apply Hdisc'. eapply Hchild; eauto.
    + rewrite !elem_of_app, !elem_of_cons, !elem_of_app,
        list_elem_of_singleton. auto.
  - intros x [Hx| ->]%Hdisc Hx0.
    + destruct (Horig x Hx Hx0) as (v & c' & Hv & Hr & Et).
      exists v, c'. split_and!; auto using resolved_mono.
    + exists cur, c. split_and!; auto. right. split; [reflexivity|].
      apply elem_of_app. right. apply list_elem_of_singleton. reflexivity.
  - intros x [Hx| ->]%Hdisc; auto.
  - intros x Hx Hx0. assert (Hvx : valid lab x).
    { apply Hdisc in Hx as [Hx| ->]; auto. }
    rewrite Hfl by assumption. case_decide as Hd.
    + subst x. exact Hz.
    + apply Hdisc in Hx as [Hx|Hx]; [|contradiction]. apply Hfail; assumption.
  - intros v Hv. rewrite Hfl by assumption. case_decide; [apply Hz|auto].
  - intros i k v Hi Hv Ev. destruct (decide (v = u)) as [->|Hd].
    + apply Hot_u. eapply Hown; eauto.
    + rewrite Hot by assumption. eapply Hown; eauto.
  - intros x Hx Hx0 i k Hi Hk Hs. apply Hdisc in Hx as [Hx| ->].
    + assert (x <> u) by (intros ->; contradiction).
      rewrite Hot by auto. eapply Hclo; eauto.
    + rewrite Eu in Hs. destruct (L lab cur) as [|a w] eqn:Ecur.
      * simpl in *. apply suffix_cons_cases in Hs as [->|Hs].
        -- apply Hot_u. eapply Hown; eauto.
        -- rewrite Eu in Hcl. simpl in Hcl. eapply Hcl; eauto.
      * rewrite <- app_comm_cons in Hs.
        apply suffix_cons_cases in Hs as [->|Hs].
        -- apply Hot_u. eapply Hown; eauto.
        -- rewrite Eu in Hcl. simpl in Hcl. eapply Hcl; eauto.
  - intros v i Hv. destruct (decide (v = u)) as [->|Hd]; [apply Hbound|].
    rewrite Hot by assumption. apply Hob. assumption.
  - exact Hoc.
  - intros Q1 v Q2 [(-> & -> & ->)|(Q2' & -> & ->)]%split_snoc.
    + exact Hord.
    + eapply HoQ. reflexivity.
  - rewrite app_comm_cons, app_assoc. apply NoDup_app. split_and!.
    + exact Hnd.
    + intros x Hx Hxu. apply list_elem_of_singleton in Hxu. subst x.
      contradiction.
    + apply NoDup_singleton.
Qed.

(** Resolving the missing edge of [cur] over [c]. *)
Lemma bfs_miss P cur dn Q ac ac' c z :
  bfs_inv P cur dn Q ac -> c ∉ dn -> t cur c = 0 ->
  keywords ac' = keywords ac -> ignoreCase ac' = ignoreCase ac ->
  length (next ac') = length (next ac) ->
  (forall v c', valid lab v ->
     NX ac' v c' = if decide (v = cur /\ c' = c) then z else NX ac v c') ->
  fail ac' = fail ac -> out ac' = out ac ->
  is_lsuf lab (L lab cur ++ [c]) z ->
  bfs_inv P cur (dn ++ [c]) Q ac'.
Proof.
  intros Hinv Hc H0 Ekw Eic Eln HNX Efl Eot Hz.
  pose proof (cur_valid _ _ _ _ _ Hinv) as Hcur.
  pose proof (cur_unresolved _ _ _ _ _ c Hinv Hc) as Hcu.
  assert (HFL : forall x, FL ac' x = FL ac x).
  { intros. unfold FL. rewrite Efl. reflexivity. }
  assert (HOT : forall x, OT ac' x = OT ac x).
  { intros. unfold OT. rewrite Eot. reflexivity. }
  destruct Hinv as [Hkw Hic Hln Hlf Hlo Hres Hunres Hchild Horig Hvalid
    Hfail Hfv Hown Hclo Hob Hoc HoQ Hnd].
  split; try congruence; try assumption.
  - intros v c' Hv Hr. rewrite HNX by assumption. case_decide as Hd.
    + destruct Hd as [-> ->]. exact Hz.
    + apply resolved_snoc in Hr as [Hr|Hr]; [|tauto]. apply Hres; assumption.
  - intros v c' Hv Hr. rewrite HNX by assumption. case_decide as Hd.
    + destruct Hd as [-> ->]. exfalso. apply Hr. right.
      split; [reflexivity|]. apply elem_of_app. right.
      apply list_elem_of_singleton. reflexivity.
    + apply Hunres; [assumption|]. intros Hr'. apply Hr.
      apply resolved_mono. exact Hr'.
  - intros v c' Hv [Hr|[-> ->]]%resolved_snoc Hne; [|contradiction].
    eapply Hchild; eauto.
  - intros x Hx Hx0. destruct (Horig x Hx Hx0) as (v & c' & Hv & Hr & Et).
    exists v, c'. split_and!; auto using resolved_mono.
  - intros x Hx Hx0. rewrite HFL. apply Hfail; assumption.
  - intros v Hv. rewrite HFL. apply Hfv; assumption.
  - intros i k v Hi Hv Ev. rewrite HOT. eapply Hown; eauto.
  - intros x Hx Hx0 i k Hi Hk Hs. rewrite HOT. eapply Hclo; eauto.
  - intros v i Hv. rewrite HOT. apply Hob. assumption.
Qed.

(** *** The first loop: the children of the root *)

Lemma root_step_spec dn Q ac c :
  bfs_inv [] 0 dn Q ac -> c ∉ dn ->
  exists ac' Q',
    root_step c (ac, Q) = Ok (ac', Q') /\ bfs_inv [] 0 (dn ++ [c]) Q' ac'.
Proof.
  intros Hinv Hc. pose proof (cur_unresolved _ _ _ _ _ c Hinv Hc) as Hcu.
  pose proof (valid_root _ _ Ht) as H0v.
  pose proof Hinv as [Hkw Hic Hln Hlf Hlo Hres Hunres Hchild Horig Hvalid
    Hfail Hfv Hown Hclo Hob Hoc HoQ Hnd].
  unfold root_step.
  destruct (idx_in_range (next ac) 0) as (row0 & E0 & Hrow0);
    [unfold valid in *; lia|].
  rewrite E0. cbn [bind]. rewrite (idx_next _ _ _ c E0).
  rewrite (Hunres 0 c H0v Hcu).
  destruct (Z.eqb_spec (t 0 c) 0) as [Hz|Hnz]; cbn [negb].
  - rewrite set_idx_in_range by (unfold valid in *; lia). cbn [bind].
    eexists _, _. split; [reflexivity|].
    eapply (bfs_miss _ _ _ _ ac _ c 0); eauto.
    + simpl. rewrite length_insert. reflexivity.
    + intros v c' Hv.
      erewrite NX_set_row; [|simpl; reflexivity|exact Hrow0|lia|apply Hv].
      reflexivity.
    + apply (is_lsuf_root_miss _ _ Ht); assumption.
  - destruct (edge_target _ _ Ht 0 c H0v Hnz) as [Hu Eu].
    rewrite set_idx_in_range by (unfold valid in *; lia). cbn [bind].
    eexists _, _. split; [reflexivity|].
    eapply (bfs_discover _ _ _ _ ac _ c 0); eauto.
    + simpl. rewrite length_insert. reflexivity.
    + intros x Hx. erewrite FL_set; [reflexivity|simpl; reflexivity| |apply Hx].
      unfold valid in *; lia.
    + apply (is_lsuf_root_child_fail _ _ Ht); assumption.
    + intros i k Hi Hk Hs. rewrite Eu, (tr_root _ _ Ht) in Hs. simpl in Hs.
      apply suffix_nil_inv in Hs. contradiction.
    + intros x Hx Hx0 Hs. rewrite Eu, (tr_root _ _ Ht) in Hs. simpl in Hs.
      apply suffix_nil_inv in Hs. exfalso. apply Hx0.
      eapply root_only_empty; eauto.
Qed.

(** *** The traversal: the nodes below the root *)

Lemma zero_not_cur P cur dn Q ac :
  bfs_inv P cur dn Q ac -> 0 ∈ P -> cur <> 0.
Proof.
  intros Hinv H0 ->. pose proof (b_nodup _ _ _ _ _ Hinv) as Hnd.
  apply NoDup_app in Hnd as (_ & Hnd & _). apply (Hnd 0 H0). left.
Qed.

Lemma tail_snoc (w : list byte) c : w <> [] -> tail (w ++ [c]) = tail w ++ [c].
Proof. destruct w; [congruence|reflexivity]. Qed.

(** A node spelling a suffix of the label of the child of [cur] has been
    discovered before that child. *)
Lemma suffix_child_discovered P cur dn Q ac c x :
  bfs_inv P cur dn Q ac -> 0 ∈ P -> valid lab x -> x <> 0 ->
  L lab x `suffix_of` tail (L lab cur) ++ [c] -> x ∈ P ++ cur :: Q.
Proof.
  intros Hinv H0 Hx Hx0 Hs.
  destruct (suffix_node_parent _ _ Ht x _ c Hx Hx0 Hs) as (v & Hv & Sv & Et).
  assert (v ∈ P) as HvP.
  { destruct (Z.eq_dec v 0) as [->|Hv0]; [assumption|].
    eapply (b_order_cur _ _ _ _ _ Hinv); eauto. }
  rewrite <- Et. apply (b_child _ _ _ _ _ Hinv); [assumption|left; assumption|].
  congruence.
Qed.

Lemma link_step_spec P cur dn Q ac c :
  bfs_inv P cur dn Q ac -> 0 ∈ P -> c ∉ dn ->
  exists ac' Q',
    link_step cur c (ac, Q) = Ok (ac', Q') /\
    bfs_inv P cur (dn ++ [c]) Q' ac'.
Proof.
  intros Hinv H0 Hc.
  pose proof (cur_unresolved _ _ _ _ _ c Hinv Hc) as Hcu.
  pose proof (cur_valid _ _ _ _ _ Hinv) as Hcur.
  pose proof (zero_not_cur _ _ _ _ _ Hinv H0) as Hcur0.
  pose proof (valid_root _ _ Ht) as H0v.
  assert (Hlcur : L lab cur <> []).
  { intros E. apply Hcur0. eapply root_only_empty; eauto. }
  pose proof Hinv as [Hkw Hic Hln Hlf Hlo Hres Hunres Hchild Horig Hvalid
    Hfail Hfv Hown Hclo Hob Hoc HoQ Hnd].
  assert (Hcurin : cur ∈ P ++ cur :: Q).
  { apply elem_of_app. right. left. }
  pose proof (Hfail cur Hcurin Hcur0) as Hg.
  set (g := FL ac cur) in *.
  assert (Hgv : valid lab g) by apply Hg.
  assert (HgP : g ∈ P).
  { destruct (Z.eq_dec g 0) as [->|Hg0]; [assumption|].
    apply Hoc; [assumption|assumption|apply Hg]. }
  pose proof (Hres g c Hgv (or_introl HgP)) as Hz.
  set (z := NX ac g c) in *.
  assert (Hzv : valid lab z) by apply Hz.
  unfold link_step.
  destruct (idx_in_range (next ac) cur) as (rowf & Ef & Hrowf);
    [unfold valid in *; lia|].
  rewrite Ef. cbn [bind]. rewrite (idx_next _ _ _ c Ef).
  rewrite (Hunres cur c Hcur Hcu).
  destruct (idx_in_range (fail ac) cur) as (g' & Eg & _);
    [unfold valid in *; lia|].
  pose proof (idx_fail _ _ _ Eg) as Eg'. fold g in Eg'. subst g'.
  destruct (idx_in_range (next ac) g) as (rowt & Et & _);
    [unfold valid in *; lia|].
  pose proof (idx_next _ _ _ c Et) as Erow. fold z in Erow.
  destruct (Z.eqb_spec (t cur c) 0) as [Hz0|Hnz]; cbn [negb].
  - rewrite Eg. cbn [bind]. rewrite Et. cbn [bind].
    rewrite set_idx_in_range by (unfold valid in *; lia). cbn [bind].
    eexists _, _. split; [reflexivity|]. rewrite Erow.
    eapply (bfs_miss _ _ _ _ ac _ c z); eauto.
    + simpl. rewrite length_insert. reflexivity.
    + intros v c' Hv.
      erewrite NX_set_row; [|simpl; reflexivity|exact Hrowf| |apply Hv].
      * reflexivity.
      * apply Hcur.
    + eapply is_lsuf_miss; eauto.
  - destruct (edge_target _ _ Ht cur c Hcur Hnz) as [Hu Eu].
    set (u := t cur c) in *.
    assert (Etail : tail (L lab u) = tail (L lab cur) ++ [c]).
    { rewrite Eu. apply tail_snoc. assumption. }
    rewrite Eg. cbn [bind]. rewrite Et. cbn [bind].
    rewrite set_idx_in_range by (unfold valid in *; lia). cbn [bind].
    destruct (idx_in_range (out ac) u) as (onx & Eo & _);
      [unfold valid in *; lia|].
    rewrite Eo. cbn [bind]. apply idx_out in Eo. subst onx.
    destruct (idx_in_range (<[Z.to_nat u := rowt c]> (fail ac)) u)
      as (fnx & Efn & Hfn).
    { rewrite length_insert. unfold valid in *; lia. }
    rewrite Efn. cbn [bind].
    rewrite list_lookup_insert_eq in Hfn by (unfold valid in *; lia).
    injection Hfn as <-. rewrite Erow.
    destruct (idx_in_range (out ac) z) as (ofl & Eof & _);
      [unfold valid in *; lia|].
    rewrite Eof. cbn [bind]. apply idx_out in Eof. subst ofl.
    rewrite set_idx_in_range by (unfold valid in *; lia). cbn [bind].
    eexists _, _. split; [reflexivity|].
    assert (HOT : forall x, valid lab x ->
      OT (mkAhoCorasick (keywords ac) (ignoreCase ac) (next ac)
            (<[Z.to_nat u := z]> (fail ac))
            (<[Z.to_nat u := OT ac u ++ OT ac z]> (out ac))) x =
      if decide (x = u) then OT ac u ++ OT ac z else OT ac x).
    { intros x Hx. eapply OT_set; [reflexivity| |apply Hx].
      unfold valid in *; lia. }
    assert (Hzu : z <> 0 -> z ∈ P ++ cur :: Q).
    { intros Hz0. eapply suffix_child_discovered; eauto.
      rewrite <- Etail. eapply is_lsuf_child_fail; eauto. }
    eapply (bfs_discover _ _ _ _ ac _ c z); eauto.
    + simpl. rewrite length_insert. reflexivity.
    + intros x Hx. eapply FL_set; [reflexivity| |apply Hx].
      unfold valid in *; lia.
    + simpl. rewrite length_insert. reflexivity.
    + intros x Hx Hxu. rewrite HOT by assumption.
      rewrite decide_False by assumption. reflexivity.
    + intros i Hi. rewrite HOT by assumption.
      rewrite decide_True by reflexivity.
      apply elem_of_app. auto.
    + intros i. rewrite HOT by assumption. rewrite decide_True by reflexivity.
      intros [Hi|Hi]%elem_of_app; [apply (Hob u)|apply (Hob z)]; assumption.
    + eapply is_lsuf_child_fail; eauto.
    + intros i k Hi Hk Hs. rewrite HOT by assumption.
      rewrite decide_True by reflexivity. apply elem_of_app. right.
      assert (Hzf : is_lsuf lab (tail (L lab u)) z).
      { eapply is_lsuf_child_fail; eauto. }
      assert (Skz : k `suffix_of` L lab z).
      { eapply is_lsuf_covers; eauto. }
      assert (Hz0 : z <> 0).
      { intros E0. rewrite E0, (tr_root _ _ Ht) in Skz.
        apply suffix_nil_inv in Skz. contradiction. }
      eapply Hclo; eauto.
    + intros x Hx Hx0 Hs. eapply suffix_child_discovered; eauto.
      rewrite <- Etail. exact Hs.
Qed.

Lemma NoDup_all_bytes : NoDup all_bytes.
Proof.
  apply (NoDup_fmap_1 nat_of_ascii). rewrite <- map_fmap.
  unfold all_bytes. rewrite map_map.
  rewrite (map_ext_in _ id), map_id; [apply NoDup_ListNoDup, seq_NoDup|].
  intros n Hn%in_seq. unfold id. apply nat_ascii_embedding. lia.
Qed.

Lemma all_bytes_prefix (dn : list byte) c rest :
  all_bytes = dn ++ c :: rest -> c ∉ dn.
Proof.
  intros E Hc. pose proof NoDup_all_bytes as Hnd. rewrite E in Hnd.
  apply NoDup_app in Hnd as (_ & Hnd & _). apply (Hnd c Hc). left.
Qed.

(** Moving on to the next node of the queue. *)
Lemma bfs_next P cur Q f ac :
  bfs_inv P cur all_bytes (f :: Q) ac -> bfs_inv (P ++ [cur]) f [] Q ac.
Proof.
  intros [Hkw Hic Hln Hlf Hlo Hres Hunres Hchild Horig Hvalid
    Hfail Hfv Hown Hclo Hob Hoc HoQ Hnd].
  assert (E : (P ++ [cur]) ++ f :: Q = P ++ cur :: f :: Q).
  { rewrite <- app_assoc. reflexivity. }
  assert (Hr : forall v c, resolved (P ++ [cur]) f [] v c <->
                           resolved P cur all_bytes v c).
  { intros v c. unfold resolved.
    rewrite elem_of_app, list_elem_of_singleton, elem_of_nil.
    pose proof (all_bytes_all c). tauto. }
  split; rewrite ?E; auto.
  - intros v c Hv Hr'%Hr. auto.
  - intros v c Hv Hr'. apply Hunres; [assumption|]. rewrite <- Hr. exact Hr'.
  - intros v c Hv Hr'%Hr. auto.
  - intros x Hx Hx0. destruct (Horig x Hx Hx0) as (v & c & Hv & Hr' & Et).
    exists v, c. rewrite Hr. auto.
  - intros u Hu Hu0 Hs. apply (HoQ [] f Q eq_refl u Hu Hu0) in Hs.
    exact Hs.
  - intros Q1 v Q2 -> u Hu Hu0 Hs.
    apply (HoQ (f :: Q1) v Q2 eq_refl u Hu Hu0) in Hs.
    rewrite <- app_assoc. exact Hs.
Qed.

Lemma link_loop_spec P cur Q ac :
  bfs_inv P cur [] Q ac -> 0 ∈ P ->
  exists ac' Q',
    foldM (link_step cur) all_bytes (ac, Q) = Ok (ac', Q') /\
    bfs_inv P cur all_bytes Q' ac'.
Proof.
  intros Hinv H0.
  destruct (foldM_prefix (fun dn st => bfs_inv P cur dn (snd st) (fst st))
    (link_step cur) all_bytes) with (s := (ac, Q)) as ([ac' Q'] & E & H).
  - intros dn c rest [ac1 Q1] Edn H1. simpl in H1.
    destruct (link_step_spec P cur dn Q1 ac1 c H1 H0) as (ac2 & Q2 & E2 & H2).
    { eapply all_bytes_prefix; eauto. }
    exists (ac2, Q2). auto.
  - exact Hinv.
  - exists ac', Q'. auto.
Qed.

Lemma root_loop_spec ac :
  bfs_inv [] 0 [] [] ac ->
  exists ac' Q',
    foldM root_step all_bytes (ac, []) = Ok (ac', Q') /\
    bfs_inv [] 0 all_bytes Q' ac'.
Proof.
  intros Hinv.
  destruct (foldM_prefix (fun dn st => bfs_inv [] 0 dn (snd st) (fst st))
    root_step all_bytes) with (s := (ac, @nil Z)) as ([ac' Q'] & E & H).
  - intros dn c rest [ac1 Q1] Edn H1. simpl in H1.
    destruct (root_step_spec dn Q1 ac1 c H1) as (ac2 & Q2 & E2 & H2).
    { eapply all_bytes_prefix; eauto. }
    exists (ac2, Q2). auto.
  - exact Hinv.
  - exists ac', Q'. auto.
Qed.

Lemma NoDup_valid_length (l : list Z) :
  NoDup l -> (forall x, x ∈ l -> valid lab x) -> (length l <= length lab)%nat.
Proof.
  intros Hnd Hv.
  assert (H : l ⊆ seqZ 0 (len lab)).
  { intros x Hx. apply elem_of_seqZ. apply Hv in Hx. unfold valid in Hx. lia. }
  apply (NoDup_submseteq _ _ Hnd) in H. apply submseteq_length in H.
  rewrite length_seqZ in H. lia.
Qed.

(** The loop invariant of the traversal, with the number of nodes still
    to be processed as the bound on the iterations left. *)
Definition bfs_loop_inv (k : nat) (st : AhoCorasick * list Z) : Prop :=
  exists P cur, bfs_inv P cur all_bytes (snd st) (fst st) /\
                0 ∈ P ++ [cur] /\ (k + length P = length lab)%nat.

Lemma bfs_step_spec k st :
  bfs_loop_inv k st -> 0 < len (snd st) ->
  exists st' k', bfs_step st = Ok st' /\ bfs_loop_inv k' st' /\ (k' < k)%nat.
Proof.
  intros (P & cur & Hinv & H0 & Hk) Hq. destruct st as [ac Q]. simpl in *.
  destruct Q as [|f Q]; [simpl in Hq; lia|].
  unfold bfs_step. cbn [idx Z.leb Z.to_nat lookup list_lookup bind drop].
  simpl (0 <=? 0). cbn iota.
  pose proof (bfs_next P cur Q f ac Hinv) as Hnext.
  destruct (link_loop_spec (P ++ [cur]) f Q ac Hnext H0)
    as (ac' & Q' & E & H').
  exists (ac', Q'), (k - 1)%nat. split; [exact E|].
  pose proof (NoDup_valid_length _ (b_nodup _ _ _ _ _ Hinv)
    (b_valid _ _ _ _ _ Hinv)) as Hlen.
  rewrite length_app in Hlen. simpl in Hlen.
  split; [|lia].
  exists (P ++ [cur]), f. simpl. split_and!; [assumption| |].
  - apply elem_of_app. left. exact H0.
  - rewrite length_app. simpl. lia.
Qed.

End BFS.

(** *** The finished automaton *)

Record ac_ok (kws : list (list byte)) (ic : bool) (lab : list (list byte))
    (t : Z -> byte -> Z) (ac : AhoCorasick) : Prop := {
  ok_kw : keywords ac = kws;
  ok_ic : ignoreCase ac = ic;
  ok_len_next : length (next ac) = length lab;
  ok_len_fail : length (fail ac) = length lab;
  ok_len_out : length (out ac) = length lab;
  ok_trie : trie lab t;
  ok_kws : forall (i : nat) k, kws !! i = Some k -> in_trie lab k;
  ok_next : forall v c, valid lab v ->
    is_lsuf lab (L lab v ++ [c]) (NX ac v c);
  ok_fail : forall v, valid lab v -> valid lab (FL ac v);
  ok_out_cl : forall v, valid lab v ->
    forall (i : nat) k, kws !! i = Some k -> k <> [] ->
      k `suffix_of` L lab v -> Z.of_nat i ∈ OT ac v;
  ok_out_bound : forall v i, valid lab v -> i ∈ OT ac v -> 0 <= i < len kws
}.

Lemma bfs_final kws ic lab t P cur ac :
  trie lab t ->
  (forall (i : nat) k, kws !! i = Some k -> in_trie lab k) ->
  bfs_inv kws ic lab t P cur all_bytes [] ac -> 0 ∈ P ++ [cur] ->
  ac_ok kws ic lab t ac.
Proof.
  intros Ht Hkws Hinv H0.
  assert (Hall : forall v, valid lab v -> v ∈ P ++ [cur]).
  { apply (all_nodes_reached lab t Ht (fun v => v ∈ P ++ [cur])); [exact H0|].
    intros v c Hv Hin Hne.
    apply (b_child _ _ _ _ _ _ _ _ _ Hinv v c Hv); [|assumption].
    apply elem_of_app in Hin as [Hin|Hin]; [left; assumption|right].
    apply list_elem_of_singleton in Hin. split; [assumption|].
    apply all_bytes_all. }
  assert (Hres : forall v c, valid lab v -> resolved P cur all_bytes v c).
  { intros v c Hv. apply Hall in Hv.
    apply elem_of_app in Hv as [Hv|Hv]; [left; assumption|right].
    apply list_elem_of_singleton in Hv. split; [assumption|].
    apply all_bytes_all. }
  destruct Hinv as [Hkw Hic Hln Hlf Hlo Hr Hunres Hchild Horig Hvalid
    Hfail Hfv Hown Hclo Hob Hoc HoQ Hnd].
  split; auto.
  intros v Hv i k Hi Hk Hs. apply (Hclo v) with (k := k); auto.
  intros ->. rewrite (tr_root _ _ Ht) in Hs.
  apply suffix_nil_inv in Hs. contradiction.
Qed.

Lemma bfs_init kws ic lab ac :
  trie_inv kws ic lab ac ->
  (forall (j : nat) k, kws !! j = Some k -> kw_node lab ac (Z.of_nat j) k) ->
  bfs_inv kws ic lab (NX ac) [] 0 [] [] ac.
Proof.
  intros [Hkw Hic Hln Hlf Hlo Ht Hf Hob] Hk.
  pose proof (valid_root _ _ Ht) as H0v.
  assert (Hnr : forall v c, ~ resolved [] 0 [] v c).
  { intros v c [H|[_ H]]; inversion H. }
  assert (Hd : forall x, x ∈ [] ++ [0] -> x = 0).
  { intros x Hx. simpl in Hx. apply list_elem_of_singleton in Hx. exact Hx. }
  split; auto.
  - intros v c _ Hr. destruct (Hnr _ _ Hr).
  - intros v c _ Hr. destruct (Hnr _ _ Hr).
  - intros x Hx%Hd Hx0. contradiction.
  - intros x Hx%Hd. subst. assumption.
  - intros x Hx%Hd Hx0. contradiction.
  - intros v Hv. rewrite Hf. assumption.
  - intros i k v Hi Hv Ev. destruct (Hk i k Hi) as (v' & Hv' & Ev' & Hin).
    assert (v' = v) as -> by (apply (tr_inj _ _ Ht); congruence).
    exact Hin.
  - intros x Hx%Hd Hx0. contradiction.
  - intros u Hu Hu0 Hs. rewrite (tr_root _ _ Ht) in Hs. simpl in Hs.
    apply suffix_nil_inv in Hs. exfalso. apply Hu0.
    eapply root_only_empty; eauto.
  - intros Q1 v Q2 E. destruct Q1; discriminate.
  - simpl. apply NoDup_singleton.
Qed.

Lemma buildFailureLinks_spec kws ic lab ac :
  trie_inv kws ic lab ac ->
  (forall (j : nat) k, kws !! j = Some k -> kw_node lab ac (Z.of_nat j) k) ->
  exists ac', buildFailureLinks ac = Ok ac' /\ ac_ok kws ic lab (NX ac) ac'.
Proof.
  intros Hinv Hk. pose proof (ti_trie _ _ _ _ Hinv) as Ht.
  assert (Hkws : forall (i : nat) k, kws !! i = Some k -> in_trie lab k).
  { intros i k Hi. destruct (Hk i k Hi) as (v & Hv & Ev & _). exists v. auto. }
  unfold buildFailureLinks.
  destruct (root_loop_spec kws ic lab (NX ac) Ht ac (bfs_init _ _ _ _ Hinv Hk))
    as (ac1 & Q1 & -> & H1).
  cbn [bind].
  destruct (while_rule_ix (bfs_loop_inv kws ic lab (NX ac))
    (fun st => Ok (0 <? len (snd st))) bfs_step)
    with (fuel := S (length (next ac))) (k := length lab) (s := (ac1, Q1))
    as ([ac2 Q2] & k' & -> & (P & cur & H2 & H0 & _) & Hc).
  - eauto.
  - intros k st Hst [= Hc]. apply Z.ltb_lt in Hc.
    eapply bfs_step_spec; eauto.
  - exists [], 0. simpl. split_and!; [assumption| |lia].
    apply list_elem_of_singleton. reflexivity.
  - rewrite (ti_len_next _ _ _ _ Hinv). lia.
  - cbn [bind fst]. eexists; split; [reflexivity|].
    simpl in *. injection Hc as Hc. apply Z.ltb_ge in Hc.
    destruct Q2; [|simpl in Hc; lia].
    eapply bfs_final; eauto.
Qed.

(** Every pattern list yields an automaton. *)
Lemma New_spec (patterns : list string) (ic : bool) :
  exists ac lab t,
    New patterns ic = Ok ac /\
    ac_ok (map (folded ic) patterns) ic lab t ac.
Proof.
  unfold New.
  assert (Ekw : map (fun p : string =>
            let b := list_ascii_of_string p in
            if ic then map to_lower b else b) patterns
          = map (folded ic) patterns).
  { apply map_ext. intros p. apply folded_eq. }
  cbv zeta in Ekw |- *. rewrite Ekw.
  destruct (buildTrie_spec (map (folded ic) patterns) ic)
    as (ac1 & lab & E1 & Hinv & _ & Hk).
  unfold empty_trie in E1. rewrite E1. cbn [bind].
  destruct (buildFailureLinks_spec _ _ _ _ Hinv Hk) as (ac2 & E2 & Hok).
  exists ac2, lab, (NX ac1). auto.
Qed.

(** ** Scanning with the automaton *)

(** The record emitted at text position [i] for pattern number [p]. *)
Definition record (ac : AhoCorasick) (i p : Z) : ACMatch :=
  mkACMatch p (i - len (default [] (keywords ac !! Z.to_nat p)) + 1) i.

Lemma emit_spec ac i o :
  forall matches, (forall p, p ∈ o -> 0 <= p < len (keywords ac)) ->
  foldM (fun patIdx matches =>
           do k <- idx (keywords ac) patIdx;
           let patLen := len k in
           Ok (matches ++ [mkACMatch patIdx (i - patLen + 1) i]))
        o matches
  = Ok (matches ++ map (record ac i) o).
Proof.
  induction o as [|p o IH]; intros matches Hb; cbn [foldM map].
  - rewrite app_nil_r. reflexivity.
  - destruct (idx_in_range (keywords ac) p) as (k & Ek & Hk).
    { apply Hb. left. }
    rewrite Ek. cbn [bind]. rewrite IH.
    + rewrite <- app_assoc. unfold record at 2. rewrite Hk. reflexivity.
    + intros q Hq. apply Hb. right. exact Hq.
Qed.

Lemma scan_byte_spec kws ic lab t ac i c node matches :
  ac_ok kws ic lab t ac -> valid lab node ->
  scan_byte ac (i, c) (node, matches) =
    Ok (NX ac node (fold_case ic c),
        matches ++ map (record ac i) (OT ac (NX ac node (fold_case ic c)))).
Proof.
  intros Hok Hnode. unfold scan_byte.
  assert (Ecc : (if ignoreCase ac && is_upper c
                 then ascii_of_N (N_of_ascii c + 32) else c)
                = fold_case ic c).
  { rewrite (ok_ic _ _ _ _ _ Hok). unfold fold_case, to_lower.
    destruct ic; reflexivity. }
  rewrite Ecc.
  destruct (idx_in_range (next ac) node) as (row & Er & _).
  { rewrite (ok_len_next _ _ _ _ _ Hok). apply Hnode. }
  rewrite Er. cbn [bind]. rewrite (idx_next _ _ _ (fold_case ic c) Er).
  set (node' := NX ac node (fold_case ic c)).
  assert (Hnode' : valid lab node').
  { apply (ok_next _ _ _ _ _ Hok node (fold_case ic c) Hnode). }
  destruct (idx_in_range (out ac) node') as (o & Eo & _).
  { rewrite (ok_len_out _ _ _ _ _ Hok). apply Hnode'. }
  rewrite Eo. cbn [bind]. apply idx_out in Eo. subst o.
  destruct (Z.ltb_spec 0 (len (OT ac node'))) as [Hlt|Hge].
  - rewrite emit_spec; [reflexivity|].
    intros p Hp. rewrite (ok_kw _ _ _ _ _ Hok).
    eapply (ok_out_bound _ _ _ _ _ Hok); eauto.
  - destruct (OT ac node'); [|simpl in Hge; lia].
    cbn [bind map]. rewrite app_nil_r. reflexivity.
Qed.

(** A pattern spelled [k] ends at position [e] of the folded text. *)
Definition ends_at (ic : bool) (data : list byte) (k : list byte) (e : Z)
    : Prop :=
  k `suffix_of` map (fold_case ic) (take (Z.to_nat (e + 1)) data).

Lemma scan_loop kws ic lab t ac :
  ac_ok kws ic lab t ac ->
  forall rest pre node matches,
    is_lsuf lab (map (fold_case ic) pre) node ->
    exists node' matches',
      foldM (scan_byte ac) (zip (seqZ (len pre) (len rest)) rest)
        (node, matches) = Ok (node', matches') /\
      (forall r, r ∈ matches -> r ∈ matches') /\
      (forall r, r ∈ matches' ->
         r ∈ matches \/ 0 <= PatternIndex r < len kws) /\
      (forall (j : nat) k e, kws !! j = Some k -> k <> [] ->
         len pre <= e < len pre + len rest ->
         ends_at ic (pre ++ rest) k e ->
         mkACMatch (Z.of_nat j) (e - len k + 1) e ∈ matches').
Proof.
  intros Hok. induction rest as [|c rest IH]; intros pre node matches Hn.
  - exists node, matches. split_and!; auto. simpl. intros; lia.
  - simpl length. rewrite seqZ_cons by lia. cbn [zip zip_with foldM].
    rewrite (scan_byte_spec kws ic lab t ac _ c node matches Hok)
      by apply Hn.
    cbn [bind].
    set (node1 := NX ac node (fold_case ic c)).
    set (matches1 := matches ++ map (record ac (len pre)) (OT ac node1)).
    assert (Hn1 : is_lsuf lab (map (fold_case ic) (pre ++ [c])) node1).
    { rewrite map_app. simpl.
      eapply (is_lsuf_extend lab t (ok_trie _ _ _ _ _ Hok)); [exact Hn|].
      apply (ok_next _ _ _ _ _ Hok). apply Hn. }
    destruct (IH (pre ++ [c]) node1 matches1 Hn1)
      as (node' & matches' & E & Hmono & Hbound & Hcompl).
    rewrite length_app in E. simpl length in E.
    replace (Z.succ (len pre)) with (Z.of_nat (length pre + 1)) by lia.
    replace (Z.pred (Z.of_nat (S (length rest)))) with (len rest) by lia.
    rewrite E. exists node', matches'. split_and!.
    + reflexivity.
    + intros r Hr. apply Hmono. apply elem_of_app. auto.
    + intros r Hr. apply Hbound in Hr as [Hr|Hr]; [|auto].
      apply elem_of_app in Hr as [Hr|Hr]; [auto|right].
      apply list_elem_of_In, in_map_iff in Hr as (p & <- & Hp).
      simpl. apply list_elem_of_In in Hp.
      eapply (ok_out_bound _ _ _ _ _ Hok); [|exact Hp]. apply Hn1.
    + intros j k e Hj Hk He Hends.
      destruct (Z.eq_dec e (len pre)) as [->|Hne].
      * apply Hmono. apply elem_of_app. right.
        assert (Sk : k `suffix_of` map (fold_case ic) (pre ++ [c])).
        { unfold ends_at in Hends.
          replace (Z.to_nat (len pre + 1)) with (length pre + 1)%nat in Hends
            by lia.
          rewrite take_app_add' in Hends by reflexivity. exact Hends. }
        assert (Sk' : k `suffix_of` L lab node1).
        { eapply is_lsuf_covers; [exact Hn1| |exact Sk].
          eapply (ok_kws _ _ _ _ _ Hok); eauto. }
        assert (Hin : Z.of_nat j ∈ OT ac node1).
        { eapply (ok_out_cl _ _ _ _ _ Hok); eauto. apply Hn1. }
        apply list_elem_of_In, in_map_iff. exists (Z.of_nat j).
        split; [|apply list_elem_of_In; exact Hin].
        unfold record. rewrite Nat2Z.id, (ok_kw _ _ _ _ _ Hok), Hj.
        reflexivity.
      * apply Hcompl; auto.
        -- rewrite length_app. simpl. lia.
        -- rewrite <- app_assoc. exact Hends.
Qed.

Lemma findAll_spec kws ic lab t ac data :
  ac_ok kws ic lab t ac ->
  exists matches,
    _findAll ac data = Ok matches /\
    (forall r, r ∈ matches -> 0 <= PatternIndex r < len kws) /\
    (forall (j : nat) k e, kws !! j = Some k -> k <> [] ->
       0 <= e < len data -> ends_at ic data k e ->
       mkACMatch (Z.of_nat j) (e - len k + 1) e ∈ matches).
Proof.
  intros Hok. unfold _findAll.
  destruct (scan_loop kws ic lab t ac Hok data [] 0 [])
    as (node' & matches' & E & _ & Hbound & Hcompl).
  { apply (is_lsuf_nil lab t (ok_trie _ _ _ _ _ Hok)). }
  change (Z.of_nat (length (@nil ascii))) with 0 in E.
  rewrite E. cbn [bind snd].
  exists matches'. split_and!; auto.
  intros r Hr. apply Hbound in Hr as [Hr|Hr]; [inversion Hr|exact Hr].
Qed.

End AhoCorasickProofs.

(** * Theorems about the multi-pattern automaton *)

Lemma occurs_ends ic (P data : list byte) s :
  occurs_at ic P data s ->
  ends_at ic data (map (fold_case ic) P) (s + len P - 1).
Proof.
  intros (Hs & Hl & E). unfold ends_at, slice in *. rewrite <- E.
  replace (Z.to_nat (s + len P - 1 + 1))
    with (Z.to_nat s + Z.to_nat (s + len P - s))%nat by lia.
  rewrite <- take_take_drop, map_app. apply suffix_app_r. reflexivity.
Qed.

Lemma ac_search (patterns : list string) (ic : bool) (data : list byte) :
  exists ac ms,
    ahocorasick.New patterns ic = Ok ac /\
    ahocorasick.FindAllBytes ac data = Ok ms /\
    ahocorasick.FindAll ac (string_of_list_ascii data) = Ok ms /\
    (forall r, r ∈ ms ->
       0 <= ahocorasick.PatternIndex r < len patterns) /\
    (forall (j : nat) P s, patterns !! j = Some P -> P <> ""%string ->
       occurs_at ic (list_ascii_of_string P) data s ->
       ahocorasick.mkACMatch (Z.of_nat j) s
         (s + len (list_ascii_of_string P) - 1) ∈ ms).
Proof.
  destruct (New_spec patterns ic) as (ac & lab & t & E & Hok).
  destruct (findAll_spec _ ic lab t ac data Hok) as (ms & Ef & Hb & Hc).
  exists ac, ms. unfold ahocorasick.FindAll, ahocorasick.FindAllBytes.
  rewrite list_ascii_of_string_of_list_ascii.
  split_and!; auto.
  - intros r Hr. apply Hb in Hr. rewrite length_map in Hr. exact Hr.
  - intros j P s Hj HP Hocc.
    pose proof Hocc as (Hs & Hl & _).
    assert (Hlen : 0 < len (list_ascii_of_string P)).
    { destruct P; [congruence|simpl; lia]. }
    specialize (Hc j (folded ic P) (s + len (list_ascii_of_string P) - 1)).
    assert (Elen : length (folded ic P) = length (list_ascii_of_string P))
      by (unfold folded; apply length_map).
    rewrite Elen in Hc.
    replace (s + len (list_ascii_of_string P) - 1
             - len (list_ascii_of_string P) + 1) with s in Hc by lia.
    apply Hc.
    + rewrite (map_fmap (folded ic) patterns), list_lookup_fmap, Hj.
      reflexivity.
    + intros E0. rewrite E0 in Elen. simpl in Elen. lia.
    + lia.
    + exact (occurs_ends _ _ _ _ Hocc).
Qed.

(** ** C2: completeness *)

(** C2 as stated fails when the list holds an empty pattern: the empty
    pattern occurs at every position of the text, and here none of its
    occurrences is reported. *)
Lemma ac_complete_empty_pattern :
  exists ac ms,
    ahocorasick.New [""; "a"]%string false = Ok ac /\
    ahocorasick.FindAllBytes ac (list_ascii_of_string "a") = Ok ms /\
    ~ all_reported [""; "a"]%string false (list_ascii_of_string "a") ms.
Proof.
  destruct (ac_search [""; "a"]%string false (list_ascii_of_string "a"))
    as (ac & ms & E & Ef & _).
  exists ac, ms. split_and!; auto.
  assert (H : bind (ahocorasick.New [""; "a"]%string false)
                (fun ac =>
                   ahocorasick.FindAllBytes ac (list_ascii_of_string "a"))
              = Ok [ahocorasick.mkACMatch 1 0 0]).
  { vm_compute. reflexivity. }
  rewrite E in H. cbn [bind] in H. rewrite Ef in H. injection H as ->.
  intros Hall. specialize (Hall 0%nat ""%string 0 eq_refl).
  unfold reported in Hall. simpl in Hall.
  assert (Hocc : occurs_at false [] (list_ascii_of_string "a") 0).
  { split_and!; simpl; try lia. reflexivity. }
  apply Hall in Hocc. apply list_elem_of_singleton in Hocc. discriminate.
Qed.

(** C2, amended. Every occurrence of every non-empty pattern, overlapping
    or not, is reported by [FindAll]/[FindAllBytes] of the automaton, as
    the record of its pattern index, start and inclusive end. *)
Theorem ac_findAll_complete (patterns : list string) (ic : bool)
    (data : list byte) :
  exists ac ms,
    ahocorasick.New patterns ic = Ok ac /\
    ahocorasick.FindAllBytes ac data = Ok ms /\
    ahocorasick.FindAll ac (string_of_list_ascii data) = Ok ms /\
    forall (j : nat) P s, patterns !! j = Some P -> P <> ""%string ->
      occurs_at ic (list_ascii_of_string P) data s -> reported ms j P s.
Proof.
  destruct (ac_search patterns ic data) as (ac & ms & E & Ef & Es & _ & Hc).
  exists ac, ms. split_and!; auto.
Qed.

Lemma ac_findAll_complete_witness :
  exists ac ms,
    ahocorasick.New ["a"; "aa"]%string false = Ok ac /\
    ahocorasick.FindAllBytes ac (list_ascii_of_string "aaa") = Ok ms /\
    reported ms 1 "aa" 0 /\ reported ms 1 "aa" 1.
Proof.
  destruct (ac_findAll_complete ["a"; "aa"]%string false
              (list_ascii_of_string "aaa")) as (ac & ms & E & Ef & _ & H).
  exists ac, ms. split_and!; auto.
  - apply H; [reflexivity|discriminate|].
    split_and!; simpl; try lia. reflexivity.
  - apply H; [reflexivity|discriminate|].
    split_and!; simpl; try lia. reflexivity.
Defined.

(** ** C4: the worked example *)

(** C4. Built from "he", "she", "his", "hers" with case-sensitive
    matching, the automaton reports on "ushers" exactly she(1,3), he(2,3)
    and hers(2,5), in this order. *)
Theorem ac_ushers :
  exists ac,
    ahocorasick.New ["he"; "she"; "his"; "hers"]%string false = Ok ac /\
    ahocorasick.FindAll ac "ushers" =
      Ok [ahocorasick.mkACMatch 1 1 3;
          ahocorasick.mkACMatch 0 2 3;
          ahocorasick.mkACMatch 3 2 5].
Proof.
  destruct (New_spec ["he"; "she"; "his"; "hers"]%string false)
    as (ac & _ & _ & E & _).
  exists ac. split; [exact E|].
  assert (H : bind (ahocorasick.New ["he"; "she"; "his"; "hers"]%string false)
                (fun ac => ahocorasick.FindAll ac "ushers")
              = Ok [ahocorasick.mkACMatch 1 1 3;
                    ahocorasick.mkACMatch 0 2 3;
                    ahocorasick.mkACMatch 3 2 5]).
  { vm_compute. reflexivity. }
  rewrite E in H. exact H.
Qed.

(** ** C5: construction never fails *)

(** C5 as stated fails: built from the single empty pattern, the automaton
    reports it on "a", with a start beyond the end. *)
Lemma ac_empty_pattern_reported :
  exists ac ms,
    ahocorasick.New [""]%string false = Ok ac /\
    ahocorasick.FindAllBytes ac (list_ascii_of_string "a") = Ok ms /\
    ~ no_empty_pattern_match [""]%string ms.
Proof.
  destruct (ac_search [""]%string false (list_ascii_of_string "a"))
    as (ac & ms & E & Ef & _).
  exists ac, ms. split_and!; auto.
  assert (H : bind (ahocorasick.New [""]%string false)
                (fun ac =>
                   ahocorasick.FindAllBytes ac (list_ascii_of_string "a"))
              = Ok [ahocorasick.mkACMatch 0 1 0]).
  { vm_compute. reflexivity. }
  rewrite E in H. cbn [bind] in H. rewrite Ef in H. injection H as ->.
  intros Hno. apply (Hno (ahocorasick.mkACMatch 0 1 0) 0%nat).
  - apply list_elem_of_singleton. reflexivity.
  - reflexivity.
  - reflexivity.
Qed.

(** C5, amended. Construction accepts any pattern list, empty patterns
    included, and always succeeds, and so does every scan; each record
    carries the index of a pattern of the list, so that the automaton built
    from the empty list reports nothing. *)
Theorem ac_never_fails (patterns : list string) (ic : bool)
    (data : list byte) :
  exists ac ms,
    ahocorasick.New patterns ic = Ok ac /\
    ahocorasick.FindAllBytes ac data = Ok ms /\
    ahocorasick.FindAll ac (string_of_list_ascii data) = Ok ms /\
    Forall (fun r => 0 <= ahocorasick.PatternIndex r < len patterns) ms /\
    (patterns = [] -> ms = []).
Proof.
  destruct (ac_search patterns ic data) as (ac & ms & E & Ef & Es & Hb & _).
  exists ac, ms. split_and!; auto.
  - apply List.Forall_forall. intros r Hr. apply Hb, list_elem_of_In, Hr.
  - intros ->. destruct ms as [|r ms]; [reflexivity|].
    specialize (Hb r ltac:(left)). simpl in Hb. lia.
Qed.

Lemma ac_never_fails_witness :
  exists ac,
    ahocorasick.New [] false = Ok ac /\
    ahocorasick.FindAllBytes ac (list_ascii_of_string "some text") = Ok [].
Proof.
  destruct (ac_never_fails [] false (list_ascii_of_string "some text"))
    as (ac & ms & E & Ef & _ & _ & H).
  exists ac. split; [exact E|]. rewrite <- (H eq_refl). exact Ef.
Defined.

(** ** C8: the tables are total *)

(** C8. After construction every transition entry and every failure link
    is the index of a node, every output entry is the index of a keyword,
    the three tables have one entry per node, and therefore no scan ever
    leaves the tables: [FindAllBytes] returns on every input. *)
Theorem ac_tables_total (patterns : list string) (ic : bool) :
  exists ac,
    ahocorasick.New patterns ic = Ok ac /\
    0 < len (ahocorasick.next ac) /\
    len (ahocorasick.fail ac) = len (ahocorasick.next ac) /\
    len (ahocorasick.out ac) = len (ahocorasick.next ac) /\
    Forall (fun row : byte -> Z =>
              forall c, 0 <= row c < len (ahocorasick.next ac))
           (ahocorasick.next ac) /\
    Forall (fun g => 0 <= g < len (ahocorasick.next ac))
           (ahocorasick.fail ac) /\
    Forall (Forall (fun p => 0 <= p < len (ahocorasick.keywords ac)))
           (ahocorasick.out ac) /\
    forall data, exists ms, ahocorasick.FindAllBytes ac data = Ok ms.
Proof.
  destruct (New_spec patterns ic) as (ac & lab & t & E & Hok).
  pose proof Hok as [Hkw Hic Hln Hlf Hlo Ht Hkws Hnext Hfail Hcl Hob].
  exists ac. split_and!; auto.
  - rewrite Hln. apply (tr_size _ _ Ht).
  - congruence.
  - congruence.
  - apply Forall_lookup. intros v row Hv c.
    pose proof (lookup_lt_Some _ _ _ Hv) as Hlt.
    assert (Hvv : valid lab (Z.of_nat v)) by (unfold valid; lia).
    destruct (Hnext (Z.of_nat v) c Hvv) as [Hx _].
    unfold NX in Hx. rewrite Nat2Z.id, Hv in Hx. simpl in Hx.
    unfold valid in Hx. lia.
  - apply Forall_lookup. intros v g Hv.
    pose proof (lookup_lt_Some _ _ _ Hv) as Hlt.
    assert (Hvv : valid lab (Z.of_nat v)) by (unfold valid; lia).
    pose proof (Hfail (Z.of_nat v) Hvv) as Hx.
    unfold FL in Hx. rewrite Nat2Z.id, Hv in Hx. simpl in Hx.
    unfold valid in Hx. lia.
  - apply Forall_lookup. intros v o Hv.
    pose proof (lookup_lt_Some _ _ _ Hv) as Hlt.
    assert (Hvv : valid lab (Z.of_nat v)) by (unfold valid; lia).
    apply Forall_forall. intros p Hp. rewrite Hkw.
    apply (Hob (Z.of_nat v) p Hvv). unfold OT.
    rewrite Nat2Z.id, Hv. exact Hp.
  - intros data.
    destruct (findAll_spec _ ic lab t ac data Hok) as (ms & Ef & _).
    exists ms. exact Ef.
Qed.

(** ** C9: the derived queries *)

Lemma bm_first_of (res : list Z) :
  (if 0 <? len res then idx res 0 else Ok (-1)) = Ok (hd (-1) res).
Proof. destruct res; reflexivity. Qed.

Lemma len_pos_nonempty {A} (l : list A) : (0 <? len l) = nonempty l.
Proof. destruct l; reflexivity. Qed.

(** C9. For both components [Count] is the length of [FindAll] and
    [Contains] tells whether [FindAll] is non-empty; [FindFirst] of the
    single-pattern matcher is the first element of [FindAll], or -1 when
    there is none.  The same holds of the byte-slice variants. *)
Theorem derived_queries (pattern : string) (patterns : list string)
    (ic : bool) (data : list byte) :
  (exists bm res,
     boyermoore.New pattern ic = Ok bm /\
     boyermoore.FindAllBytes bm data = Ok res /\
     boyermoore.FindAll bm (string_of_list_ascii data) = Ok res /\
     boyermoore.CountBytes bm data = Ok (len res) /\
     boyermoore.Count bm (string_of_list_ascii data) = Ok (len res) /\
     boyermoore.ContainsBytes bm data = Ok (nonempty res) /\
     boyermoore.Contains bm (string_of_list_ascii data) = Ok (nonempty res) /\
     boyermoore.FindFirstBytes bm data = Ok (hd (-1) res) /\
     boyermoore.FindFirst bm (string_of_list_ascii data) = Ok (hd (-1) res)) /\
  (exists ac ms,
     ahocorasick.New patterns ic = Ok ac /\
     ahocorasick.FindAllBytes ac data = Ok ms /\
     ahocorasick.FindAll ac (string_of_list_ascii data) = Ok ms /\
     ahocorasick.CountBytes ac data = Ok (len ms) /\
     ahocorasick.Count ac (string_of_list_ascii data) = Ok (len ms) /\
     ahocorasick.ContainsBytes ac data = Ok (nonempty ms) /\
     ahocorasick.Contains ac (string_of_list_ascii data) = Ok (nonempty ms)).
Proof.
  split.
  - destruct (bm_search pattern ic data)
      as (bm & res & E & Ef & Es & Hocc & _).
    exists bm, res.
    assert (Hfirst : negb (hd (-1) res =? -1) = nonempty res).
    { destruct res as [|r res]; [reflexivity|]. simpl.
      apply Forall_cons in Hocc as [(Hr & _) _].
      destruct (Z.eqb_spec r (-1)); [lia|reflexivity]. }
    unfold boyermoore.CountBytes, boyermoore.Count, boyermoore.ContainsBytes,
      boyermoore.Contains, boyermoore.FindFirstBytes, boyermoore.FindFirst.
    rewrite Ef, Es. cbn [bind]. rewrite bm_first_of. cbn [bind].
    rewrite Hfirst. split_and!; auto.
  - destruct (ac_search patterns ic data) as (ac & ms & E & Ef & Es & _).
    exists ac, ms.
    unfold ahocorasick.CountBytes, ahocorasick.Count,
      ahocorasick.ContainsBytes, ahocorasick.Contains.
    rewrite Ef, Es. cbn [bind]. rewrite len_pos_nonempty.
    split_and!; auto.
Qed.

(** * The single-pattern matcher against the reference search *)

#[global] Instance occurs_at_dec ic P T s : Decision (occurs_at ic P T s).
Proof. unfold occurs_at. apply _. Defined.

(** The reference search: every window start from left to right, kept
    when the window is an occurrence. *)
Definition naive_search (ic : bool) (P T : list byte) : list Z :=
  filter (occurs_at ic P T) (seqZ 0 (len T - len P + 1)).

Lemma naive_search_elem ic P T t :
  t ∈ naive_search ic P T <-> occurs_at ic P T t.
Proof.
  unfold naive_search. rewrite list_elem_of_filter, elem_of_seqZ.
  unfold occurs_at. split; [tauto|]. intros (H1 & H2 & H3).
  split_and!; auto; lia.
Qed.

Lemma seqZ_increasing (n : nat) (a : Z) :
  StronglySorted Z.lt (seqZ a (Z.of_nat n)).
Proof.
  revert a. induction n as [|n IH]; intros a.
  - constructor.
  - rewrite seqZ_cons by lia. constructor.
    + replace (Z.pred (Z.of_nat (S n))) with (Z.of_nat n) by lia. apply IH.
    + apply Forall_seqZ. intros; lia.
Qed.

Lemma filter_increasing (P : Z -> Prop) `{!forall x, Decision (P x)} l :
  StronglySorted Z.lt l -> StronglySorted Z.lt (filter P l).
Proof.
  induction 1 as [|a l Hl IH Ha]; [constructor|].
  rewrite filter_cons. destruct (decide (P a)); [|assumption].
  constructor; [assumption|].
  rewrite Forall_forall in Ha |- *.
  intros x [_ Hx]%list_elem_of_filter. auto.
Qed.

Lemma naive_search_increasing ic P T :
  StronglySorted Z.lt (naive_search ic P T).
Proof.
  unfold naive_search. apply filter_increasing.
  destruct (Z.le_gt_cases 0 (len T - len P + 1)) as [H|H].
  - rewrite <- (Z2Nat.id _ H). apply seqZ_increasing.
  - rewrite seqZ_nil by lia. constructor.
Qed.

Lemma increasing_NoDup (l : list Z) : StronglySorted Z.lt l -> NoDup l.
Proof.
  induction 1 as [|a l Hl IH Ha]; constructor; [|assumption].
  intros Hin. rewrite Forall_forall in Ha. specialize (Ha a Hin). lia.
Qed.

(** Two increasing lists with the same elements are equal. *)
Lemma increasing_unique (l1 l2 : list Z) :
  StronglySorted Z.lt l1 -> StronglySorted Z.lt l2 ->
  (forall x, x ∈ l1 <-> x ∈ l2) -> l1 = l2.
Proof.
  intros H1 H2 H.
  assert (Hanti : AntiSymm eq Z.lt) by (intros x y ? ?; lia).
  apply (StronglySorted_unique Z.lt); auto.
  apply NoDup_Permutation; auto using increasing_NoDup.
Qed.

Section BoyerMooreReference.

Import boyermoore.

(** The loop of [_findAll] appends window starts in increasing order. *)
Lemma findAll_increasing bm data results :
  bm_wf bm -> _findAll bm data = Ok results -> StronglySorted Z.lt results.
Proof.
  intros Hwf. unfold _findAll.
  destruct ((len (pat bm) =? 0) || (len data =? 0)
            || (len data <? len (pat bm))).
  { intros [= <-]. constructor. }
  intros (st & E & [= <-])%bind_Ok.
  apply (while_inv (fun st : Z * list Z =>
           0 <= fst st /\ StronglySorted Z.lt (snd st) /\
           Forall (fun r => r < fst st) (snd st))) in E
    as [(_ & H & _) _]; [exact H| |].
  - intros [s rs] [s' rs'] (Hs & Hsort & Hlt) [= Hc] Estep.
    cbn [fst snd] in *. apply Z.leb_le in Hc.
    destruct (scan_step_spec bm data s rs Hwf ltac:(lia))
      as (s1 & rs1 & E1 & Hlt1 & Hcase).
    rewrite Estep in E1. injection E1 as <- <-.
    assert (Hlt' : Forall (fun r => r < s') rs).
    { eapply Forall_impl; [exact Hlt|]. simpl. intros; lia. }
    destruct Hcase as [(_ & -> & _)|(j & _ & _ & _ & -> & _)].
    + split_and!; [lia| |].
      * apply StronglySorted_app_2; [|assumption|repeat constructor].
        intros x1 x2 H1 ->%list_elem_of_singleton.
        rewrite Forall_forall in Hlt. apply Hlt. assumption.
      * apply Forall_app. split; [assumption|].
        constructor; [lia|constructor].
    + split_and!; [lia|assumption|assumption].
  - simpl. split_and!; [lia|constructor|constructor].
Qed.

(** What a search by a matcher of [New] returns: the occurrences of the
    pattern, all of them when the pattern is not empty, in increasing
    order. *)
Lemma bm_search_sorted (pattern : string) (ic : bool) (data : list byte) :
  exists bm results,
    New pattern ic = Ok bm /\
    FindAllBytes bm data = Ok results /\
    FindAll bm (string_of_list_ascii data) = Ok results /\
    StronglySorted Z.lt results /\
    Forall (occurs_at ic (list_ascii_of_string pattern) data) results /\
    (pattern <> ""%string ->
     forall t, occurs_at ic (list_ascii_of_string pattern) data t ->
               t ∈ results).
Proof.
  destruct (bm_search pattern ic data)
    as (bm & results & E & Eb & Es & Hs & Hc).
  exists bm, results. split_and!; auto.
  destruct (New_total pattern ic) as (bm' & E' & Hp & _ & Hwf).
  assert (bm' = bm) as -> by congruence.
  destruct (string_dec pattern "") as [->|Hne].
  - unfold FindAllBytes in Eb.
    rewrite findAll_degenerate in Eb by (left; rewrite Hp; reflexivity).
    injection Eb as <-. constructor.
  - eapply findAll_increasing; [apply Hwf, Hne|exact Eb].
Qed.

(** X1. The window starts returned by [FindAll]/[FindAllBytes] are in
    strictly increasing order: the result is sorted and holds no index
    twice. *)
Theorem bm_findAll_increasing (pattern : string) (ic : bool)
    (data : list byte) :
  exists bm results,
    New pattern ic = Ok bm /\
    FindAllBytes bm data = Ok results /\
    FindAll bm (string_of_list_ascii data) = Ok results /\
    StronglySorted Z.lt results /\ NoDup results.
Proof.
  destruct (bm_search_sorted pattern ic data)
    as (bm & results & E & Eb & Es & Hs & _).
  exists bm, results. split_and!; auto using increasing_NoDup.
Qed.

(** X2. For a non-empty pattern [FindAll]/[FindAllBytes] return exactly
    what the reference search returns, the list of all window starts where
    the pattern occurs in increasing order, and [Count]/[CountBytes] return
    its length: overlapping occurrences are counted. *)
Theorem bm_findAll_naive (pattern : string) (ic : bool) (data : list byte) :
  pattern <> ""%string ->
  exists bm,
    New pattern ic = Ok bm /\
    FindAllBytes bm data =
      Ok (naive_search ic (list_ascii_of_string pattern) data) /\
    FindAll bm (string_of_list_ascii data) =
      Ok (naive_search ic (list_ascii_of_string pattern) data) /\
    CountBytes bm data =
      Ok (len (naive_search ic (list_ascii_of_string pattern) data)) /\
    Count bm (string_of_list_ascii data) =
      Ok (len (naive_search ic (list_ascii_of_string pattern) data)).
Proof.
  intros Hne.
  destruct (bm_search_sorted pattern ic data)
    as (bm & results & E & Eb & Es & Hs & Hsound & Hc).
  assert (results = naive_search ic (list_ascii_of_string pattern) data)
    as ->.
  { apply increasing_unique; auto using naive_search_increasing.
    intros x. rewrite naive_search_elem. split; [|apply Hc, Hne].
    rewrite Forall_forall in Hsound. apply Hsound. }
  exists bm. unfold CountBytes, Count. rewrite Eb, Es. auto.
Qed.

Lemma bm_findAll_naive_witness :
  exists bm,
    New "aa" false = Ok bm /\
    FindAllBytes bm (list_ascii_of_string "aaaa") = Ok [0; 1; 2] /\
    CountBytes bm (list_ascii_of_string "aaaa") = Ok 3.
Proof.
  destruct (bm_findAll_naive "aa" false (list_ascii_of_string "aaaa"))
    as (bm & E & Eb & _ & Ec & _); [discriminate|].
  exists bm. split_and!; [exact E|exact Eb|exact Ec].
Defined.

(** X3. For a non-empty pattern [FindFirst]/[FindFirstBytes] return the
    leftmost occurrence of the pattern, and -1 exactly when the pattern
    does not occur in the text. *)
Theorem bm_findFirst_leftmost (pattern : string) (ic : bool)
    (data : list byte) :
  pattern <> ""%string ->
  exists bm r,
    New pattern ic = Ok bm /\
    FindFirstBytes bm data = Ok r /\
    FindFirst bm (string_of_list_ascii data) = Ok r /\
    ((r = -1 /\
      forall t, ~ occurs_at ic (list_ascii_of_string pattern) data t) \/
     (occurs_at ic (list_ascii_of_string pattern) data r /\
      forall t, occurs_at ic (list_ascii_of_string pattern) data t ->
                r <= t)).
Proof.
  intros Hne.
  destruct (bm_search_sorted pattern ic data)
    as (bm & results & E & Eb & Es & Hs & Hsound & Hc).
  exists bm, (hd (-1) results). unfold FindFirstBytes, FindFirst.
  rewrite Eb, Es. cbn [bind]. rewrite bm_first_of. split_and!; auto.
  destruct results as [|r rest]; simpl.
  - left. split; [reflexivity|]. intros t Ht.
    apply (Hc Hne) in Ht. inversion Ht.
  - right. apply Forall_cons in Hsound as [Hr _]. split; [assumption|].
    intros t Ht. apply (Hc Hne) in Ht.
    apply StronglySorted_inv in Hs as [_ Hlt]. rewrite Forall_forall in Hlt.
    apply elem_of_cons in Ht as [->|Ht]; [lia|].
    specialize (Hlt t Ht). lia.
Qed.

Lemma bm_findFirst_leftmost_witness :
  exists bm r,
    New "ana" false = Ok bm /\
    FindFirstBytes bm (list_ascii_of_string "bananas") = Ok r /\
    r <= 3.
Proof.
  destruct (bm_findFirst_leftmost "ana" false
              (list_ascii_of_string "bananas"))
    as (bm & r & E & Ef & _ & [[_ Hno]|[_ Hmin]]); [discriminate| |].
  - exfalso. apply (Hno 3). split_and!; simpl; try lia. reflexivity.
  - exists bm, r. split_and!; [exact E|exact Ef|].
    apply Hmin. split_and!; simpl; try lia. reflexivity.
Defined.

(** X4. For a non-empty pattern [Contains]/[ContainsBytes] answer true
    exactly when the pattern occurs somewhere in the text under the case
    policy. *)
Theorem bm_contains_iff (pattern : string) (ic : bool) (data : list byte) :
  pattern <> ""%string ->
  exists bm b,
    New pattern ic = Ok bm /\
    ContainsBytes bm data = Ok b /\
    Contains bm (string_of_list_ascii data) = Ok b /\
    (b = true <->
     exists t, occurs_at ic (list_ascii_of_string pattern) data t).
Proof.
  intros Hne.
  destruct (bm_search_sorted pattern ic data)
    as (bm & results & E & Eb & Es & _ & Hsound & Hc).
  exists bm, (negb (hd (-1) results =? -1)).
  unfold ContainsBytes, Contains, FindFirstBytes, FindFirst.
  rewrite Eb, Es. cbn [bind]. rewrite bm_first_of. cbn [bind].
  split_and!; auto.
  destruct results as [|r rest]; simpl.
  - split; [discriminate|]. intros (t & Ht).
    apply (Hc Hne) in Ht. inversion Ht.
  - apply Forall_cons in Hsound as [Hr _]. pose proof Hr as (Hr0 & _).
    destruct (Z.eqb_spec r (-1)); [lia|]. simpl. split; eauto.
Qed.

Lemma bm_contains_iff_witness :
  exists bm,
    New "World" true = Ok bm /\
    ContainsBytes bm (list_ascii_of_string "hello WORLD") = Ok true.
Proof.
  destruct (bm_contains_iff "World" true (list_ascii_of_string "hello WORLD"))
    as (bm & b & E & Ec & _ & H); [discriminate|].
  exists bm. split; [exact E|].
  assert (Hb : b = true).
  { apply H. exists 6. refine (bool_decide_eq_true_1 _ _). vm_compute. reflexivity. }
  rewrite Hb in Ec. exact Ec.
Defined.

(** ** Case folding *)

Lemma to_lower_idem c : to_lower (to_lower c) = to_lower c.
Proof. destruct c as [[] [] [] [] [] [] [] []]; vm_compute; reflexivity. Qed.

Lemma slice_map {A B} (f : A -> B) (l : list A) lo hi :
  map f (slice l lo hi) = slice (map f l) lo hi.
Proof.
  unfold slice. rewrite !map_fmap, fmap_take, fmap_drop. reflexivity.
Qed.

(** An occurrence under the folding policy depends on the folded text
    only. *)
Lemma occurs_at_folded (P P' T T' : list byte) s :
  map to_lower P = map to_lower P' -> map to_lower T = map to_lower T' ->
  occurs_at true P T s -> occurs_at true P' T' s.
Proof.
  intros HP HT (Hs & Hl & E).
  assert (LP : length P = length P').
  { rewrite <- (length_map to_lower P), HP. apply length_map. }
  assert (LT : length T = length T').
  { rewrite <- (length_map to_lower T), HT. apply length_map. }
  unfold occurs_at. rewrite <- LP, <- LT. split_and!; auto.
  change (map (fold_case true)) with (map to_lower) in *.
  rewrite slice_map in E |- *. rewrite <- HT, <- HP. exact E.
Qed.

Lemma New_folded pattern pattern' :
  folded true pattern = folded true pattern' ->
  New pattern true = New pattern' true.
Proof.
  intros H. unfold folded in H.
  change (map (fold_case true)) with (map to_lower) in H.
  assert (Hl : length (list_ascii_of_string pattern)
             = length (list_ascii_of_string pattern')).
  { rewrite <- (length_map to_lower), H. apply length_map. }
  unfold New. rewrite Hl, H. reflexivity.
Qed.

(** X5. A case-insensitive search does not see the case of ASCII letters:
    two patterns equal up to case give the same matcher, and that matcher
    returns the same result on two texts equal up to case. *)
Theorem bm_ignore_case_invariant (pattern pattern' : string)
    (data data' : list byte) :
  folded true pattern = folded true pattern' ->
  map to_lower data = map to_lower data' ->
  exists bm results,
    New pattern true = Ok bm /\ New pattern' true = Ok bm /\
    FindAllBytes bm data = Ok results /\
    FindAllBytes bm data' = Ok results.
Proof.
  intros HP HT.
  destruct (bm_search_sorted pattern true data)
    as (bm & results & E & Eb & _ & Hs & Hsound & Hc).
  destruct (bm_search_sorted pattern' true data')
    as (bm' & results' & E' & Eb' & _ & Hs' & Hsound' & Hc').
  rewrite <- (New_folded _ _ HP) in E'.
  assert (bm' = bm) as -> by congruence.
  exists bm, results. split_and!; auto.
  - rewrite <- (New_folded _ _ HP). exact E.
  - rewrite Eb'. f_equal.
    assert (Hlen : length (list_ascii_of_string pattern)
                 = length (list_ascii_of_string pattern')).
    { unfold folded in HP. rewrite <- (length_map (fold_case true)), HP.
      apply length_map. }
    destruct (string_dec pattern "") as [->|Hne].
    + destruct pattern'; [|discriminate].
      unfold FindAllBytes in Eb, Eb'. rewrite New_empty in E.
      injection E as <-.
      rewrite findAll_degenerate in Eb, Eb' by (left; reflexivity).
      congruence.
    + assert (Hne' : pattern' <> ""%string).
      { intros ->. destruct pattern; [congruence|discriminate]. }
      rewrite Forall_forall in Hsound, Hsound'.
      apply increasing_unique; auto. intros x. split; intros Hx.
      * apply (Hc Hne). eapply occurs_at_folded; [| |apply Hsound', Hx];
          symmetry; assumption.
      * apply (Hc' Hne'). eapply occurs_at_folded; [| |apply Hsound, Hx];
          assumption.
Qed.

Lemma bm_ignore_case_invariant_witness :
  exists bm results,
    New "AbC" true = Ok bm /\ New "aBc" true = Ok bm /\
    FindAllBytes bm (list_ascii_of_string "xABCx-abc") = Ok results /\
    FindAllBytes bm (list_ascii_of_string "XabcX-ABC") = Ok results.
Proof.
  apply (bm_ignore_case_invariant "AbC" "aBc"
           (list_ascii_of_string "xABCx-abc")
           (list_ascii_of_string "XabcX-ABC")); reflexivity.
Defined.

Lemma occurs_at_fold_weaken (P T : list byte) s :
  occurs_at false P T s -> occurs_at true P T s.
Proof.
  intros (Hs & Hl & E). split_and!; auto.
  change (map (fold_case false)) with (map (@id byte)) in E.
  rewrite !map_id in E. rewrite E. reflexivity.
Qed.

(** X6. Ignoring case only adds matches: every index returned by the
    case-sensitive matcher of a pattern is also returned by its
    case-insensitive matcher, on every text. *)
Theorem bm_case_sensitive_subset (pattern : string) (data : list byte) :
  exists bm_cs bm_ci rs_cs rs_ci,
    New pattern false = Ok bm_cs /\ New pattern true = Ok bm_ci /\
    FindAllBytes bm_cs data = Ok rs_cs /\
    FindAllBytes bm_ci data = Ok rs_ci /\
    rs_cs ⊆ rs_ci.
Proof.
  destruct (bm_search_sorted pattern false data)
    as (bm & results & E & Eb & _ & _ & Hsound & _).
  destruct (bm_search_sorted pattern true data)
    as (bm' & results' & E' & Eb' & _ & _ & _ & Hc').
  exists bm, bm', results, results'. split_and!; auto.
  destruct (string_dec pattern "") as [->|Hne].
  - unfold FindAllBytes in Eb. rewrite New_empty in E. injection E as <-.
    rewrite findAll_degenerate in Eb by (left; reflexivity).
    injection Eb as <-. intros x Hx. inversion Hx.
  - intros x Hx. rewrite Forall_forall in Hsound.
    apply (Hc' Hne), occurs_at_fold_weaken, Hsound, Hx.
Qed.

End BoyerMooreReference.

(** * The tables of the single-pattern matcher *)

(** Partial correctness of a counting loop: an invariant that every
    iteration preserves holds of what the loop returns. *)
Lemma foldM_inv {A St} (I : St -> Prop) (body : A -> St -> result St)
    (l : list A) :
  (forall a s s', a ∈ l -> I s -> body a s = Ok s' -> I s') ->
  forall s s', I s -> foldM body l s = Ok s' -> I s'.
Proof.
  induction l as [|a l IH]; intros Hb s s' Hs; cbn [foldM].
  - intros [= <-]. exact Hs.
  - intros (s1 & E1 & E)%bind_Ok. apply (IH) with (s := s1); [| |exact E].
    + intros a0 s0 s0' Hin. apply Hb. right. exact Hin.
    + apply (Hb a s s1); [left|exact Hs|exact E1].
Qed.

Lemma slice_lookup {A} (l : list A) lo hi (k : nat) :
  0 <= lo -> (k < Z.to_nat (hi - lo))%nat ->
  slice l lo hi !! k = l !! (Z.to_nat lo + k)%nat.
Proof.
  intros Hlo Hk. unfold slice. rewrite lookup_take_lt, lookup_drop by lia.
  reflexivity.
Qed.

Lemma slice_length {A} (l : list A) lo hi :
  0 <= lo <= hi -> hi <= len l -> length (slice l lo hi) = Z.to_nat (hi - lo).
Proof.
  intros Hlo Hhi. unfold slice. rewrite length_take, length_drop. lia.
Qed.

Section BoyerMooreTables.

Import boyermoore.

(** ** The suffix array *)

(** The last [x] bytes of [p[0..i]] are the last [x] bytes of [p]. *)
Definition common_suffix (p : list byte) (i x : Z) : Prop :=
  0 <= x <= i + 1 /\
  slice p (i + 1 - x) (i + 1) = slice p (len p - x) (len p).

Lemma lcs_common_suffix (p : list byte) (i x : Z) :
  0 <= i < len p -> lcs_spec p i x ->
  common_suffix p i x /\ forall y, common_suffix p i y -> y <= x.
Proof.
  intros Hi (Hx & Hsame & Hdiff). split.
  - split; [exact Hx|]. apply list_eq. intros k.
    destruct (Nat.lt_ge_cases k (Z.to_nat x)) as [Hk|Hk].
    + rewrite !slice_lookup by lia.
      destruct (Hsame (x - 1 - Z.of_nat k)) as (c & [_ Ea]%idx_Ok & [_ Eb]%idx_Ok);
        [lia|].
      replace (Z.to_nat (i - (x - 1 - Z.of_nat k)))
        with (Z.to_nat (i + 1 - x) + k)%nat in Ea by lia.
      replace (Z.to_nat (len p - 1 - (x - 1 - Z.of_nat k)))
        with (Z.to_nat (len p - x) + k)%nat in Eb by lia.
      congruence.
    + rewrite !(lookup_ge_None_2 (slice _ _ _));
        [reflexivity|rewrite slice_length by lia; lia
        |rewrite slice_length by lia; lia].
  - intros y (Hy & Ey). destruct (Z.le_gt_cases y x) as [|Hgt]; [assumption|].
    exfalso. destruct Hdiff as (a & b & [_ Ea]%idx_Ok & [_ Eb]%idx_Ok & Hab);
      [lia|].
    apply (f_equal (fun l => l !! Z.to_nat (y - 1 - x))) in Ey.
    rewrite !slice_lookup in Ey by lia.
    replace (Z.to_nat (i + 1 - y) + Z.to_nat (y - 1 - x))%nat
      with (Z.to_nat (i - x)) in Ey by lia.
    replace (Z.to_nat (len p - y) + Z.to_nat (y - 1 - x))%nat
      with (Z.to_nat (len p - 1 - x)) in Ey by lia.
    congruence.
Qed.

(** X7. The auxiliary array of [buildGoodSuffixShift] holds at every index
    [i] of a non-empty pattern the length of the longest suffix of
    [p[0..i]] that is also a suffix of the pattern. *)
Theorem bm_suffix_array (p : list byte) :
  0 < len p ->
  exists suffix,
    compute_suffix p = Ok suffix /\ len suffix = len p /\
    forall i, 0 <= i < len p ->
      exists x, idx suffix i = Ok x /\ common_suffix p i x /\
                forall y, common_suffix p i y -> y <= x.
Proof.
  intros Hp. destruct (compute_suffix_ok p Hp) as (suffix & E & Hl & Hs).
  exists suffix. split_and!; auto. intros i Hi.
  destruct (Hs i Hi) as (x & Ex & Hx). exists x. split; [exact Ex|].
  apply lcs_common_suffix; assumption.
Qed.

Lemma bm_suffix_array_witness :
  exists suffix,
    compute_suffix (list_ascii_of_string "abcab") = Ok suffix /\
    exists x, idx suffix 1 = Ok x /\
              common_suffix (list_ascii_of_string "abcab") 1 x.
Proof.
  destruct (bm_suffix_array (list_ascii_of_string "abcab"))
    as (suffix & E & _ & H); [simpl; lia|].
  destruct (H 1) as (x & Ex & Hx & _); [simpl; lia|].
  exists suffix. split; [exact E|]. exists x. auto.
Defined.

(** ** The good-suffix table *)

Lemma plausible_full (p : list byte) j :
  0 <= j < len p -> plausible p j (len p).
Proof. intros Hj. split; intros; lia. Qed.

(** The shift that aligns a prefix of the pattern with its suffix. *)
Lemma plausible_prefix (p : list byte) i j :
  lcs_spec p i (i + 1) -> 0 <= i < len p -> 0 <= j < len p - 1 - i ->
  plausible p j (len p - 1 - i).
Proof.
  intros (_ & Hsame & _) Hi Hj. split; [|lia]. intros k Hk Hd.
  replace (k - (len p - 1 - i)) with (i - (len p - 1 - k)) by lia.
  replace k with (len p - 1 - (len p - 1 - k)) at 2 by lia.
  apply Hsame. lia.
Qed.

(** The shift that aligns another copy of the matched suffix. *)
Lemma plausible_suffix (p : list byte) i x :
  lcs_spec p i x -> 0 <= i < len p - 1 -> 0 <= len p - 1 - x ->
  plausible p (len p - 1 - x) (len p - 1 - i).
Proof.
  intros (Hx & Hsame & Hdiff) Hi Hj. split.
  - intros k Hk Hd.
    replace (k - (len p - 1 - i)) with (i - (len p - 1 - k)) by lia.
    replace k with (len p - 1 - (len p - 1 - k)) at 2 by lia.
    apply Hsame. lia.
  - intros Hd.
    replace (len p - 1 - x - (len p - 1 - i)) with (i - x) by lia.
    apply Hdiff. lia.
Qed.

Section Plausible.

Variable p : list byte.
Variable suffix : list Z.
Hypothesis Hsuffix : forall k, 0 <= k < len p ->
  exists x, idx suffix k = Ok x /\ lcs_spec p k x.

Lemma gs_prefix_step_plausible i st st' :
  0 <= i < len p -> entries (plausible p) (fst st) ->
  gs_prefix_step (len p) suffix i st = Ok st' ->
  entries (plausible p) (fst st').
Proof.
  intros Hi Hst. unfold gs_prefix_step.
  destruct (Hsuffix i Hi) as (x & -> & Hx). cbn [bind].
  destruct (Z.eqb_spec x (i + 1)) as [->|_]; [|intros [= <-]; exact Hst].
  intros E.
  apply (while_inv (fun st : list Z * Z => entries (plausible p) (fst st)))
    in E as [H _]; [exact H| |exact Hst].
  intros [gs j] [gs' j'] Hgs [= Hc]. cbn [fst] in *. apply Z.ltb_lt in Hc.
  intros (y & Ey & Eb)%bind_Ok. pose proof (idx_bound _ _ _ Ey) as Hj.
  destruct (y =? len p).
  - apply bind_Ok in Eb as (gs1 & [_ ->]%set_idx_Ok & [= <- _]).
    apply entries_insert; [assumption| |lia].
    apply plausible_prefix; [assumption|lia|lia].
  - injection Eb as <- _. exact Hgs.
Qed.

Lemma gs_suffix_step_plausible i gs gs' :
  0 <= i < len p - 1 -> entries (plausible p) gs ->
  gs_suffix_step (len p) suffix i gs = Ok gs' ->
  entries (plausible p) gs'.
Proof.
  intros Hi Hgs. unfold gs_suffix_step.
  destruct (Hsuffix i ltac:(lia)) as (x & -> & Hx). cbn [bind].
  intros [Hr ->]%set_idx_Ok.
  apply entries_insert; [assumption| |lia].
  apply plausible_suffix; [assumption|lia|lia].
Qed.

End Plausible.

Lemma buildGoodSuffixShift_plausible bm bm' :
  0 < len (pat bm) -> buildGoodSuffixShift bm = Ok bm' ->
  entries (plausible (pat bm)) (gsShift bm').
Proof.
  intros Hm. unfold buildGoodSuffixShift.
  destruct (compute_suffix_ok (pat bm) Hm) as (suffix & -> & Hl & Hs).
  cbn [bind].
  destruct (gs_init_ok (len (pat bm)) (repeat 0 (length (pat bm))))
    as (gs1 & -> & Hl1 & H1); [rewrite repeat_length; lia|lia|]. cbn [bind].
  intros (st2 & E2 & (gs3 & E3 & [= <-])%bind_Ok)%bind_Ok. cbn [gsShift].
  assert (P1 : entries (plausible (pat bm)) gs1).
  { intros k x Hk. pose proof (lookup_lt_Some _ _ _ Hk).
    rewrite (H1 k x Hk). apply plausible_full. lia. }
  assert (P2 : entries (plausible (pat bm)) (fst st2)).
  { apply (foldM_inv (fun st : list Z * Z =>
             entries (plausible (pat bm)) (fst st))) in E2;
      [exact E2| |exact P1].
    intros i s s' Hin%elem_of_reverse%elem_of_seqZ Hst.
    apply gs_prefix_step_plausible; auto; lia. }
  apply (foldM_inv (entries (plausible (pat bm)))) in E3; [exact E3| |exact P2].
  intros i s s' Hin%elem_of_seqZ Hst.
  apply gs_suffix_step_plausible; auto; lia.
Qed.

(** X8. For a non-empty pattern of length [m] the good-suffix table has
    one entry per pattern position, and the entry at [j] is the least
    shift [d >= 1] that is consistent with a mismatch at [j] after the
    bytes behind [j] have matched: the pattern moved by [d] agrees with
    the matched suffix and does not bring the same byte to position [j]
    (the shift by [m] is always consistent). *)
Theorem bm_good_suffix_table (pattern : string) (ic : bool) :
  pattern <> ""%string ->
  exists bm,
    New pattern ic = Ok bm /\ pat bm = folded ic pattern /\
    len (gsShift bm) = len (pat bm) /\
    forall j, 0 <= j < len (pat bm) ->
      exists g, idx (gsShift bm) j = Ok g /\ 1 <= g <= len (pat bm) /\
                plausible (pat bm) j g /\
                forall d, 1 <= d -> plausible (pat bm) j d -> g <= d.
Proof.
  intros Hne.
  destruct (New_nonempty pattern ic Hne) as (bm & E & Hp & _ & Hwf).
  pose proof Hwf as (Hm & Hgs & _ & Hmin).
  exists bm. split_and!; auto; [apply Hgs|]. intros j Hj.
  destruct (gs_inv_lookup _ _ j Hgs Hj) as (g & Eg & Hg).
  exists g. split_and!; auto; try lia.
  - assert (Hpl : entries (plausible (pat bm)) (gsShift bm)).
    { pose proof E as E0. unfold New in E0.
      destruct (Z.eqb_spec (len (list_ascii_of_string pattern)) 0) as [H0|_].
      { destruct pattern; [congruence|simpl in H0; lia]. }
      rewrite folded_eq in E0.
      apply buildGoodSuffixShift_plausible in E0 as H.
      - cbn [buildBadCharShift pat] in H. rewrite <- Hp in H. exact H.
      - cbn [buildBadCharShift pat]. rewrite <- Hp. exact Hm. }
    eapply idx_entry; eauto.
  - intros d Hd Hpd. destruct (Z.le_gt_cases g d) as [|Hlt]; [assumption|].
    exfalso. apply (Hmin j d g Hj Eg); [lia|exact Hpd].
Qed.

Lemma bm_good_suffix_table_witness :
  exists bm g,
    New "abcab" false = Ok bm /\ idx (gsShift bm) 2 = Ok g /\
    plausible (pat bm) 2 g.
Proof.
  destruct (bm_good_suffix_table "abcab" false) as (bm & E & _ & Hl & H);
    [discriminate|].
  assert (Hm : len (pat bm) = 5).
  { pose proof E as E0. vm_compute in E0. injection E0 as <-. reflexivity. }
  destruct (H 2) as (g & Eg & _ & Hp & _); [lia|].
  exists bm, g. auto.
Defined.

End BoyerMooreTables.

(** * The slice comparison of the tests *)

Section TestHelper.

Import boyermoore_test.

Lemma equal_from_spec (a b : list Z) :
  length a = length b ->
  forall (k : nat) (i : Z), 0 <= i -> i + Z.of_nat k = len a ->
    equal_from a b (seqZ i (Z.of_nat k)) =
      Ok (bool_decide (drop (Z.to_nat i) a = drop (Z.to_nat i) b)).
Proof.
  intros Hl. induction k as [|k IH]; intros i Hi Hk.
  - simpl. rewrite !drop_ge by lia. rewrite bool_decide_eq_true_2; reflexivity.
  - rewrite seqZ_cons by lia. cbn [equal_from].
    replace (Z.pred (Z.of_nat (S k))) with (Z.of_nat k) by lia.
    destruct (idx_in_range a i) as (x & -> & Hx); [lia|].
    destruct (idx_in_range b i) as (y & -> & Hy); [lia|].
    cbn [bind].
    rewrite (drop_S _ _ _ Hx), (drop_S _ _ _ Hy).
    destruct (Z.eqb_spec x y) as [->|Hne]; cbn [negb].
    + rewrite IH by lia.
      replace (Z.to_nat (Z.succ i)) with (S (Z.to_nat i)) by lia.
      f_equal. apply bool_decide_ext. split; [congruence|].
      intros [= ->]. reflexivity.
    + rewrite bool_decide_eq_false_2; [reflexivity|]. congruence.
Qed.

(** X9. [equalIntSlices] never fails and answers true exactly when its
    two arguments are the same sequence of integers. *)
Theorem equalIntSlices_spec (a b : list Z) :
  equalIntSlices a b = Ok (bool_decide (a = b)).
Proof.
  unfold equalIntSlices. destruct (Z.eqb_spec (len a) (len b)) as [Hl|Hl];
    cbn [negb].
  - rewrite (equal_from_spec a b) with (i := 0) (k := length a);
      [reflexivity|lia|lia|lia].
  - rewrite bool_decide_eq_false_2; [reflexivity|]. intros ->. lia.
Qed.

End TestHelper.

(** * What the automaton reports *)

Section AhoCorasickSound.

Import ahocorasick.

(** ** The outputs of a node *)

(** Every output of a node is the index of a keyword that is a suffix of
    the label of the node. *)
Definition out_sound (kws lab : list (list byte)) (ac : AhoCorasick)
    : Prop :=
  forall v i, valid lab v -> i ∈ OT ac v ->
    exists (j : nat) k,
      i = Z.of_nat j /\ kws !! j = Some k /\ k `suffix_of` L lab v.

(** After the first [a] keywords have been inserted in the trie, the
    outputs of a node are the indices, each once, of the keywords among
    them that the node spells. *)
Definition out_exact (kws lab : list (list byte)) (a : nat)
    (ac : AhoCorasick) : Prop :=
  forall v, valid lab v ->
    NoDup (OT ac v) /\
    forall i, i ∈ OT ac v ->
      exists j : nat,
        i = Z.of_nat j /\ (j < a)%nat /\ kws !! j = Some (L lab v).

Lemma out_exact_grow kws ic lab ac lab' ac' a :
  trie_inv kws ic lab ac -> out_exact kws lab a ac ->
  (forall v, valid lab v -> valid lab' v /\ L lab' v = L lab v) ->
  (forall v, OT ac' v = OT ac v) ->
  out_exact kws lab' a ac'.
Proof.
  intros Hinv Hs Hext Hout v Hv. rewrite Hout.
  destruct (Z.lt_ge_cases v (len lab)) as [Hlt|Hge].
  - assert (Hv0 : valid lab v) by (unfold valid in *; lia).
    rewrite (proj2 (Hext v Hv0)). apply Hs. exact Hv0.
  - unfold OT. rewrite lookup_ge_None_2.
    + split; [constructor|]. intros i Hi. inversion Hi.
    + rewrite (ti_len_out _ _ _ _ Hinv). unfold valid in Hv. lia.
Qed.

Lemma insert_keyword_exact kws ic lab ac (j : nat) k :
  trie_inv kws ic lab ac -> out_exact kws lab j ac -> kws !! j = Some k ->
  exists ac' lab',
    insert_keyword (Z.of_nat j, k) ac = Ok ac' /\
    trie_inv kws ic lab' ac' /\ extends lab ac lab' ac' /\
    kw_node lab' ac' (Z.of_nat j) k /\ out_exact kws lab' (S j) ac'.
Proof.
  intros Hinv Hs Hj. pose proof (lookup_lt_Some _ _ _ Hj) as Hjl.
  unfold insert_keyword.
  destruct (trie_walk kws ic k lab ac 0 Hinv)
    as (ac1 & node & lab1 & -> & Hinv1 & Hnode & E1 & Hext & Hout).
  { apply (valid_root _ _ (ti_trie _ _ _ _ Hinv)). }
  cbn [bind]. pose proof Hinv1 as [Hkw Hic Hln Hlf Hlo Ht Hf Hob].
  pose proof (out_exact_grow _ _ _ _ _ _ _ Hinv Hs Hext Hout) as Hs1.
  rewrite (tr_root _ _ (ti_trie _ _ _ _ Hinv)) in E1.
  change ([] ++ k) with k in E1.
  destruct (idx_in_range (out ac1) node) as (o & Eo & _);
    [unfold valid in *; lia|].
  rewrite Eo. cbn [bind]. apply idx_out in Eo. subst o.
  rewrite set_idx_in_range by (unfold valid in *; lia). cbn [bind].
  assert (Hnode0 : 0 <= node < len (out ac1)) by (unfold valid in *; lia).
  eexists _, lab1. split; [reflexivity|]. split_and!.
  - split; simpl; rewrite ?length_insert; auto.
    intros v x Hv. rewrite OT_insert by (unfold valid in *; lia).
    case_decide; [|apply Hob; assumption].
    intros [Hx|Hx]%elem_of_app; [apply (Hob node); assumption|].
    apply list_elem_of_singleton in Hx. lia.
  - split; [exact Hext|]. intros v x Hv Hx. rewrite <- Hout in Hx.
    rewrite OT_insert by lia. case_decide; [subst v|assumption].
    apply elem_of_app. auto.
  - exists node. split_and!; [assumption|exact E1|].
    rewrite OT_insert by (unfold valid in *; lia).
    rewrite decide_True by reflexivity. apply elem_of_app. right.
    apply list_elem_of_singleton. reflexivity.
  - intros v Hv. rewrite OT_insert by (unfold valid in *; lia).
    destruct (Hs1 v Hv) as [Hnd Hex].
    case_decide as Hd.
    + subst v. split.
      * apply NoDup_app. split_and!; [exact Hnd| |apply NoDup_singleton].
        intros x Hx ->%list_elem_of_singleton.
        destruct (Hex _ Hx) as (j' & Ej & Hlt & _). lia.
      * intros i [Hi|Hi]%elem_of_app.
        -- destruct (Hex i Hi) as (j' & -> & Hlt & Hk). exists j'.
           split_and!; auto.
        -- apply list_elem_of_singleton in Hi. subst i. exists j.
           rewrite E1. split_and!; auto.
    + split; [exact Hnd|]. intros i Hi.
      destruct (Hex i Hi) as (j' & -> & Hlt & Hk). exists j'.
      split_and!; auto.
Qed.

Lemma build_loop_exact kws ic l :
  forall (a : nat) lab ac,
    trie_inv kws ic lab ac -> out_exact kws lab a ac ->
    (forall (j : nat) k, l !! j = Some k -> kws !! (a + j)%nat = Some k) ->
    exists ac' lab',
      foldM insert_keyword (zip (seqZ (Z.of_nat a) (len l)) l) ac = Ok ac' /\
      trie_inv kws ic lab' ac' /\ extends lab ac lab' ac' /\
      (forall (j : nat) k, l !! j = Some k ->
         kw_node lab' ac' (Z.of_nat (a + j)) k) /\
      out_exact kws lab' (a + length l) ac'.
Proof.
  induction l as [|k l IH]; intros a lab ac Hinv Hs Hl.
  - exists ac, lab. simpl length. rewrite Nat.add_0_r.
    split_and!; auto using extends_refl.
    intros j k Hj. rewrite lookup_nil in Hj. discriminate.
  - simpl length. rewrite seqZ_cons by lia. cbn [zip zip_with foldM].
    destruct (insert_keyword_exact kws ic lab ac a k Hinv Hs)
      as (ac1 & lab1 & -> & Hinv1 & Hext1 & Hk1 & Hs1).
    { specialize (Hl 0%nat k eq_refl). rewrite Nat.add_0_r in Hl. exact Hl. }
    cbn [bind].
    replace (Z.pred (Z.of_nat (S (length l)))) with (len l) by lia.
    replace (Z.succ (Z.of_nat a)) with (Z.of_nat (S a)) by lia.
    destruct (IH (S a) lab1 ac1 Hinv1 Hs1)
      as (ac2 & lab2 & -> & Hinv2 & Hext2 & Hk2 & Hs2).
    { intros j k' Hj. replace (S a + j)%nat with (a + S j)%nat by lia.
      apply Hl. exact Hj. }
    exists ac2, lab2. split_and!; auto.
    + eapply extends_trans; eauto.
    + intros [|j] k' Hj; simpl in Hj.
      * injection Hj as <-. rewrite Nat.add_0_r.
        eapply kw_node_extends; eauto.
      * replace (a + S j)%nat with (S a + j)%nat by lia. apply Hk2. exact Hj.
    + replace (a + S (length l))%nat with (S a + length l)%nat by lia.
      exact Hs2.
Qed.

Lemma buildTrie_exact kw ic :
  exists ac lab,
    buildTrie (empty_trie kw ic) = Ok ac /\ trie_inv kw ic lab ac /\
    (forall (j : nat) k, kw !! j = Some k -> kw_node lab ac (Z.of_nat j) k) /\
    out_exact kw lab (length kw) ac.
Proof.
  unfold buildTrie. simpl keywords.
  destruct (build_loop_exact kw ic kw 0%nat [[]] (empty_trie kw ic)
              (empty_trie_inv kw ic))
    as (ac & lab & E & Hinv & _ & Hk & Hs).
  { intros v Hv.
    assert (v = 0) as -> by (unfold valid in Hv; simpl in Hv; lia).
    split; [constructor|]. intros i Hi. inversion Hi. }
  { auto. }
  exists ac, lab. split_and!; auto.
Qed.

(** ** The number of nodes *)

Lemma trie_step_size c ac node ac' node' :
  trie_step c (ac, node) = Ok (ac', node') ->
  (length (next ac') <= length (next ac) + 1)%nat.
Proof.
  unfold trie_step. cbv zeta. intros (row & Er & H)%bind_Ok.
  apply bind_Ok in H as (ac1 & E1 & H).
  apply bind_Ok in H as (row' & _ & [= <- _]).
  destruct (row c =? 0).
  - apply bind_Ok in E1 as (r & _ & E1).
    apply bind_Ok in E1 as (nxt & [_ ->]%set_idx_Ok & [= <-]).
    simpl. rewrite length_insert, length_app. simpl. lia.
  - injection E1 as <-. lia.
Qed.

Lemma trie_walk_size k :
  forall ac node ac' node',
    foldM trie_step k (ac, node) = Ok (ac', node') ->
    (length (next ac') <= length (next ac) + length k)%nat.
Proof.
  induction k as [|c k IH]; intros ac node ac' node'; cbn [foldM].
  - intros [= <- _]. simpl. lia.
  - intros ([ac1 node1] & E1 & E)%bind_Ok.
    apply trie_step_size in E1. apply IH in E. simpl. lia.
Qed.

Lemma insert_keyword_size i k ac ac' :
  insert_keyword (i, k) ac = Ok ac' ->
  (length (next ac') <= length (next ac) + length k)%nat.
Proof.
  unfold insert_keyword. cbv zeta. intros ([ac1 node] & E1 & E)%bind_Ok.
  apply trie_walk_size in E1.
  apply bind_Ok in E as (o & _ & E).
  apply bind_Ok in E as (ou & _ & [= <-]). simpl. exact E1.
Qed.

Lemma build_size (zs : list (Z * list byte)) :
  forall ac ac',
    foldM insert_keyword zs ac = Ok ac' ->
    (length (next ac') <=
     length (next ac) + sum_list_with (fun ik => length (snd ik)) zs)%nat.
Proof.
  induction zs as [|[i k] zs IH]; intros ac ac'; cbn [foldM].
  - intros [= <-]. simpl. lia.
  - intros (ac1 & E1 & E)%bind_Ok. apply insert_keyword_size in E1.
    apply IH in E. simpl. lia.
Qed.

Lemma zip_size (l : list (list byte)) :
  forall ixs : list Z,
    (sum_list_with (fun ik : Z * list byte => length (snd ik)) (zip ixs l)
     <= sum_list_with length l)%nat.
Proof.
  induction l as [|k l IH]; intros [|i ixs]; simpl; try lia.
  specialize (IH ixs). lia.
Qed.

Lemma buildTrie_size ac ac' :
  buildTrie ac = Ok ac' ->
  (length (next ac') <=
   length (next ac) + sum_list_with length (keywords ac))%nat.
Proof.
  unfold buildTrie. intros E%build_size.
  pose proof (zip_size (keywords ac) (seqZ 0 (len (keywords ac)))). lia.
Qed.

Lemma string_length_bytes (s : string) :
  length (list_ascii_of_string s) = String.length s.
Proof. induction s as [|c s IH]; simpl; [reflexivity|]. rewrite IH. reflexivity. Qed.

Lemma folded_size (ic : bool) (patterns : list string) :
  sum_list_with length (map (folded ic) patterns)
  = sum_list_with String.length patterns.
Proof.
  induction patterns as [|p ps IH]; simpl; [reflexivity|].
  rewrite IH. unfold folded. rewrite length_map, string_length_bytes.
  reflexivity.
Qed.

(** ** The outputs through the breadth-first traversal *)

Lemma root_step_out c ac Q ac' Q' :
  root_step c (ac, Q) = Ok (ac', Q') ->
  out ac' = out ac /\ (Q' = Q \/ exists x, Q' = Q ++ [x]).
Proof.
  unfold root_step. cbv zeta. intros (row0 & _ & H)%bind_Ok.
  destruct (negb (row0 c =? 0)).
  - apply bind_Ok in H as (fl & _ & [= <- <-]). eauto.
  - apply bind_Ok in H as (r & _ & H).
    apply bind_Ok in H as (nxt & _ & [= <- <-]). auto.
Qed.

Lemma suffix_tail {A} (l : list A) : tail l `suffix_of` l.
Proof. destruct l; [reflexivity|]. simpl. apply suffix_cons_r. reflexivity. Qed.

(** The outputs during the traversal, [seen] being the nodes discovered
    so far: they are sound, hold no index twice, and those of a node not
    yet discovered are still the indices of the keywords it spells. *)
Definition out_inv (kws lab : list (list byte)) (seen : list Z)
    (ac : AhoCorasick) : Prop :=
  out_sound kws lab ac /\
  (forall v, valid lab v -> NoDup (OT ac v)) /\
  (forall v i, valid lab v -> v ∉ seen -> i ∈ OT ac v ->
     exists j : nat, i = Z.of_nat j /\ kws !! j = Some (L lab v)).

Lemma out_inv_same kws lab seen seen' ac ac' :
  out ac' = out ac -> (forall v, v ∈ seen -> v ∈ seen') ->
  out_inv kws lab seen ac -> out_inv kws lab seen' ac'.
Proof.
  intros E Hsub (Hs & Hn & Hf). unfold out_inv, out_sound, OT in *.
  rewrite E. split_and!; auto.
Qed.

Lemma out_exact_inv kws lab ac seen :
  out_exact kws lab (length kws) ac -> out_inv kws lab seen ac.
Proof.
  intros H. split_and!.
  - intros v i Hv Hi. destruct (H v Hv) as [_ Hex].
    destruct (Hex i Hi) as (j & -> & _ & Hk). exists j, (L lab v). auto.
  - intros v Hv. apply H. exact Hv.
  - intros v i Hv _ Hi. destruct (H v Hv) as [_ Hex].
    destruct (Hex i Hi) as (j & -> & _ & Hk). eauto.
Qed.

Lemma seen_snoc (P : list Z) cur Q u v :
  v ∈ P ++ cur :: (Q ++ [u]) <-> v ∈ P ++ cur :: Q \/ v = u.
Proof.
  rewrite !elem_of_app, !elem_of_cons, elem_of_app, list_elem_of_singleton.
  tauto.
Qed.

Section BFSSound.

Variable kws : list (list byte).
Variable ic : bool.
Variable lab : list (list byte).
Variable t : Z -> byte -> Z.
Hypothesis Ht : trie lab t.
Hypothesis Hkws : forall (i : nat) k, kws !! i = Some k -> in_trie lab k.

(** The outputs that a node inherits from its failure target belong to
    proper suffixes of its label, and are new to it. *)
Lemma link_step_sound P cur dn Q ac c ac' Q' :
  bfs_inv kws ic lab t P cur dn Q ac -> 0 ∈ P -> c ∉ dn ->
  out_inv kws lab (P ++ cur :: Q) ac ->
  link_step cur c (ac, Q) = Ok (ac', Q') ->
  out_inv kws lab (P ++ cur :: Q') ac'.
Proof.
  intros Hinv H0 Hc Hoi. pose proof Hoi as (Hs & Hnd' & Hfr).
  pose proof (cur_unresolved _ _ _ _ _ _ _ _ _ c Hinv Hc) as Hcu.
  pose proof (cur_valid _ _ _ _ _ _ _ _ _ Hinv) as Hcur.
  pose proof (zero_not_cur _ _ _ _ _ _ _ _ _ Hinv H0) as Hcur0.
  pose proof (child_fresh _ _ _ _ Ht _ _ _ _ _ c Hinv Hc) as Hfresh.
  pose proof Hinv as [Hkw Hic Hln Hlf Hlo Hres Hunres Hchild Horig Hvalid
    Hfail Hfv Hown Hclo Hob Hoc HoQ Hnd].
  assert (Hcurin : cur ∈ P ++ cur :: Q).
  { apply elem_of_app. right. left. }
  pose proof (Hfail cur Hcurin Hcur0) as Hg.
  set (g := FL ac cur) in *.
  assert (Hgv : valid lab g) by apply Hg.
  assert (HgP : g ∈ P).
  { destruct (Z.eq_dec g 0) as [->|Hg0]; [assumption|].
    apply Hoc; [assumption|assumption|apply Hg]. }
  pose proof (Hres g c Hgv (or_introl HgP)) as Hz.
  set (z := NX ac g c) in *.
  assert (Hzv : valid lab z) by apply Hz.
  unfold link_step.
  destruct (idx_in_range (next ac) cur) as (rowf & Ef & Hrowf);
    [unfold valid in *; lia|].
  rewrite Ef. cbn [bind]. rewrite (idx_next _ _ _ c Ef).
  rewrite (Hunres cur c Hcur Hcu).
  destruct (idx_in_range (fail ac) cur) as (g' & Eg & _);
    [unfold valid in *; lia|].
  pose proof (idx_fail _ _ _ Eg) as Eg'. fold g in Eg'. subst g'.
  destruct (idx_in_range (next ac) g) as (rowt & Et & _);
    [unfold valid in *; lia|].
  pose proof (idx_next _ _ _ c Et) as Erow. fold z in Erow.
  destruct (Z.eqb_spec (t cur c) 0) as [Hz0|Hnz]; cbn [negb].
  - rewrite Eg. cbn [bind]. rewrite Et. cbn [bind].
    rewrite set_idx_in_range by (unfold valid in *; lia). cbn [bind].
    intros [= <- <-]. eapply out_inv_same; [| |exact Hoi]; auto.
  - destruct (edge_target _ _ Ht cur c Hcur Hnz) as [Hu Eu].
    specialize (Hfresh Hnz).
    set (u := t cur c) in *.
    rewrite Eg. cbn [bind]. rewrite Et. cbn [bind].
    rewrite set_idx_in_range by (unfold valid in *; lia). cbn [bind].
    destruct (idx_in_range (out ac) u) as (onx & Eo & _);
      [unfold valid in *; lia|].
    rewrite Eo. cbn [bind]. apply idx_out in Eo. subst onx.
    destruct (idx_in_range (<[Z.to_nat u := rowt c]> (fail ac)) u)
      as (fnx & Efn & Hfn).
    { rewrite length_insert. unfold valid in *; lia. }
    rewrite Efn. cbn [bind].
    rewrite list_lookup_insert_eq in Hfn by (unfold valid in *; lia).
    injection Hfn as <-. rewrite Erow.
    destruct (idx_in_range (out ac) z) as (ofl & Eof & _);
      [unfold valid in *; lia|].
    rewrite Eof. cbn [bind]. apply idx_out in Eof. subst ofl.
    rewrite set_idx_in_range by (unfold valid in *; lia). cbn [bind].
    intros [= <- <-].
    assert (Hzf : is_lsuf lab (tail (L lab u)) z).
    { eapply is_lsuf_child_fail; eauto. }
    assert (Hshort : (length (L lab z) < length (L lab u))%nat).
    { destruct Hzf as (_ & Hsz & _). apply suffix_length in Hsz.
      rewrite Eu in Hsz |- *. rewrite length_app. simpl.
      destruct (L lab cur); simpl in *; rewrite ?length_app in Hsz;
        simpl in Hsz; lia. }
    assert (HOT : forall v, valid lab v ->
      OT (mkAhoCorasick (keywords ac) (ignoreCase ac) (next ac)
            (<[Z.to_nat u := z]> (fail ac))
            (<[Z.to_nat u := OT ac u ++ OT ac z]> (out ac))) v =
      if decide (v = u) then OT ac u ++ OT ac z else OT ac v).
    { intros v Hv. eapply OT_set; [reflexivity| |apply Hv].
      unfold valid in *; lia. }
    split_and!.
    + intros v i Hv. rewrite HOT by assumption.
      case_decide as Hd; [subst v|apply Hs; assumption].
      intros [Hi|Hi]%elem_of_app; [apply Hs; assumption|].
      destruct (Hs z i Hzv Hi) as (j & k & -> & Hj & Hsuf).
      exists j, k. split_and!; auto.
      etrans; [exact Hsuf|]. etrans; [apply Hzf|]. apply suffix_tail.
    + intros v Hv. rewrite HOT by assumption.
      case_decide as Hd; [subst v|apply Hnd'; assumption].
      apply NoDup_app. split_and!; [apply Hnd'; assumption| |
                                    apply Hnd'; assumption].
      intros i Hi Hi'.
      destruct (Hfr u i Hu Hfresh Hi) as (j & -> & Hj).
      destruct (Hs z _ Hzv Hi') as (j' & k' & Ej & Hj' & Hsuf).
      apply Nat2Z.inj in Ej. subst j'.
      assert (k' = L lab u) as -> by congruence.
      apply suffix_length in Hsuf. lia.
    + intros v i Hv Hns. rewrite HOT by assumption.
      assert (Hvu : v <> u).
      { intros ->. apply Hns, seen_snoc. right. reflexivity. }
      rewrite decide_False by assumption. apply Hfr; [assumption|].
      intros Hin. apply Hns, seen_snoc. left. exact Hin.
Qed.

Lemma link_loop_sound P cur Q ac :
  bfs_inv kws ic lab t P cur [] Q ac -> 0 ∈ P ->
  out_inv kws lab (P ++ cur :: Q) ac ->
  exists ac' Q',
    foldM (link_step cur) all_bytes (ac, Q) = Ok (ac', Q') /\
    bfs_inv kws ic lab t P cur all_bytes Q' ac' /\
    out_inv kws lab (P ++ cur :: Q') ac'.
Proof.
  intros Hinv H0 Hs.
  destruct (foldM_prefix
    (fun dn st => bfs_inv kws ic lab t P cur dn (snd st) (fst st) /\
                  out_inv kws lab (P ++ cur :: snd st) (fst st))
    (link_step cur) all_bytes) with (s := (ac, Q))
    as ([ac' Q'] & E & H & H').
  - intros dn c rest [ac1 Q1] Edn [H1 S1]. cbn [fst snd] in H1, S1.
    assert (Hc : c ∉ dn) by (eapply all_bytes_prefix; eauto).
    destruct (link_step_spec kws ic lab t Ht Hkws P cur dn Q1 ac1 c H1 H0 Hc)
      as (ac2 & Q2 & E2 & H2).
    exists (ac2, Q2). split_and!; auto. cbn [fst snd].
    exact (link_step_sound P cur dn Q1 ac1 c ac2 Q2 H1 H0 Hc S1 E2).
  - split; assumption.
  - exists ac', Q'. auto.
Qed.

Lemma root_loop_sound ac :
  bfs_inv kws ic lab t [] 0 [] [] ac -> out_inv kws lab [0] ac ->
  exists ac' Q',
    foldM root_step all_bytes (ac, []) = Ok (ac', Q') /\
    bfs_inv kws ic lab t [] 0 all_bytes Q' ac' /\
    out_inv kws lab (0 :: Q') ac'.
Proof.
  intros Hinv Hs.
  destruct (foldM_prefix
    (fun dn st => bfs_inv kws ic lab t [] 0 dn (snd st) (fst st) /\
                  out_inv kws lab (0 :: snd st) (fst st))
    root_step all_bytes) with (s := (ac, @nil Z))
    as ([ac' Q'] & E & H & H').
  - intros dn c rest [ac1 Q1] Edn [H1 S1]. cbn [fst snd] in H1, S1.
    assert (Hc : c ∉ dn) by (eapply all_bytes_prefix; eauto).
    destruct (root_step_spec kws ic lab t Ht dn Q1 ac1 c H1 Hc)
      as (ac2 & Q2 & E2 & H2).
    exists (ac2, Q2). split_and!; auto. cbn [fst snd].
    destruct (root_step_out _ _ _ _ _ E2) as [Eo HQ].
    eapply out_inv_same; [exact Eo| |exact S1].
    intros v [->|Hv]%elem_of_cons; [left|right].
    destruct HQ as [->|[x ->]]; [exact Hv|].
    apply elem_of_app. auto.
  - split; assumption.
  - exists ac', Q'. auto.
Qed.

(** The loop invariant of the traversal, with the outputs. *)
Definition bfs_loop_sound (k : nat) (st : AhoCorasick * list Z) : Prop :=
  exists P cur,
    bfs_inv kws ic lab t P cur all_bytes (snd st) (fst st) /\
    0 ∈ P ++ [cur] /\ (k + length P = length lab)%nat /\
    out_inv kws lab (P ++ cur :: snd st) (fst st).

Lemma bfs_step_sound k st :
  bfs_loop_sound k st -> 0 < len (snd st) ->
  exists st' k',
    bfs_step st = Ok st' /\ bfs_loop_sound k' st' /\ (k' < k)%nat.
Proof.
  intros (P & cur & Hinv & H0 & Hk & Hs) Hq. destruct st as [ac Q].
  cbn [fst snd] in *.
  destruct Q as [|f Q]; [simpl in Hq; lia|].
  unfold bfs_step. cbn [idx Z.leb Z.to_nat lookup list_lookup bind drop].
  simpl (0 <=? 0). cbn iota.
  pose proof (bfs_next _ _ _ _ P cur Q f ac Hinv) as Hnext.
  assert (Hs1 : out_inv kws lab ((P ++ [cur]) ++ f :: Q) ac).
  { rewrite <- app_assoc. exact Hs. }
  destruct (link_loop_sound (P ++ [cur]) f Q ac Hnext H0 Hs1)
    as (ac' & Q' & E & H' & Hs').
  exists (ac', Q'), (k - 1)%nat. split; [exact E|].
  pose proof (NoDup_valid_length lab _ (b_nodup _ _ _ _ _ _ _ _ _ Hinv)
    (b_valid _ _ _ _ _ _ _ _ _ Hinv)) as Hlen.
  rewrite length_app in Hlen. simpl in Hlen.
  split; [|lia].
  exists (P ++ [cur]), f. cbn [fst snd]. split_and!; [assumption| | |exact Hs'].
  - apply elem_of_app. left. exact H0.
  - rewrite length_app. simpl. lia.
Qed.

End BFSSound.

(** The outputs of the finished automaton: sound, and without
    duplicates. *)
Definition out_ok (kws lab : list (list byte)) (ac : AhoCorasick) : Prop :=
  out_sound kws lab ac /\ forall v, valid lab v -> NoDup (OT ac v).

Lemma buildFailureLinks_sound kws ic lab ac :
  trie_inv kws ic lab ac ->
  (forall (j : nat) k, kws !! j = Some k -> kw_node lab ac (Z.of_nat j) k) ->
  out_exact kws lab (length kws) ac ->
  exists ac', buildFailureLinks ac = Ok ac' /\
              ac_ok kws ic lab (NX ac) ac' /\ out_ok kws lab ac'.
Proof.
  intros Hinv Hk Hs. pose proof (ti_trie _ _ _ _ Hinv) as Ht.
  assert (Hkws : forall (i : nat) k, kws !! i = Some k -> in_trie lab k).
  { intros i k Hi. destruct (Hk i k Hi) as (v & Hv & Ev & _). exists v. auto. }
  unfold buildFailureLinks.
  destruct (root_loop_sound kws ic lab (NX ac) Ht ac
              (bfs_init _ _ _ _ Hinv Hk) (out_exact_inv _ _ _ _ Hs))
    as (ac1 & Q1 & -> & H1 & Hs1).
  cbn [bind].
  destruct (while_rule_ix (bfs_loop_sound kws ic lab (NX ac))
    (fun st => Ok (0 <? len (snd st))) bfs_step)
    with (fuel := S (length (next ac))) (k := length lab) (s := (ac1, Q1))
    as ([ac2 Q2] & k' & -> & (P & cur & H2 & H0 & _ & Hs2) & Hc).
  - eauto.
  - intros k st Hst [= Hc]. apply Z.ltb_lt in Hc.
    apply (bfs_step_sound kws ic lab (NX ac) Ht Hkws k st Hst Hc).
  - exists [], 0. cbn [fst snd].
    split_and!; [assumption| |simpl; lia|exact Hs1].
    apply list_elem_of_singleton. reflexivity.
  - rewrite (ti_len_next _ _ _ _ Hinv). lia.
  - cbn [bind fst]. eexists; split; [reflexivity|].
    cbn [fst snd] in *. injection Hc as Hc. apply Z.ltb_ge in Hc.
    destruct Q2; [|simpl in Hc; lia].
    split; [eapply bfs_final; eauto|]. split; apply Hs2.
Qed.

(** Every pattern list yields an automaton with sound outputs and at most
    one node per pattern byte, besides the root. *)
Lemma New_sound (patterns : list string) (ic : bool) :
  exists ac lab t,
    New patterns ic = Ok ac /\
    ac_ok (map (folded ic) patterns) ic lab t ac /\
    out_ok (map (folded ic) patterns) lab ac /\
    (length lab <= 1 + sum_list_with String.length patterns)%nat.
Proof.
  unfold New.
  assert (Ekw : map (fun p : string =>
            let b := list_ascii_of_string p in
            if ic then map to_lower b else b) patterns
          = map (folded ic) patterns).
  { apply map_ext. intros p. apply folded_eq. }
  cbv zeta in Ekw |- *. rewrite Ekw.
  destruct (buildTrie_exact (map (folded ic) patterns) ic)
    as (ac1 & lab & E1 & Hinv & Hk & Hs).
  pose proof (buildTrie_size _ _ E1) as Hsize.
  unfold empty_trie in E1, Hsize. rewrite E1. cbn [bind].
  destruct (buildFailureLinks_sound _ _ _ _ Hinv Hk Hs)
    as (ac2 & E2 & Hok & Hs2).
  exists ac2, lab, (NX ac1). split_and!; auto.
  rewrite <- (ti_len_next _ _ _ _ Hinv). cbn [next keywords length] in Hsize.
  rewrite folded_size in Hsize. lia.
Qed.

(** ** The records of a scan *)

(** The record [r] ends between [lo] and [hi] and stands for a keyword
    that ends at its end position. *)
Definition rec_ok (kws : list (list byte)) (ic : bool) (data : list byte)
    (lo hi : Z) (r : ACMatch) : Prop :=
  lo <= End_ r < hi /\
  exists (j : nat) k,
    PatternIndex r = Z.of_nat j /\ kws !! j = Some k /\
    Start r = End_ r - len k + 1 /\ ends_at ic data k (End_ r).

Lemma sorted_same_end (f : Z -> ACMatch) (e : Z) (o : list Z) :
  (forall p, End_ (f p) = e) ->
  StronglySorted (fun a b => End_ a <= End_ b) (map f o).
Proof.
  intros Hf. induction o as [|p o IH]; simpl; constructor; [assumption|].
  apply Forall_forall. intros r Hr.
  apply list_elem_of_In, in_map_iff in Hr as (q & <- & _). rewrite !Hf. lia.
Qed.

Lemma scan_loop_sound kws ic lab t ac :
  ac_ok kws ic lab t ac -> out_ok kws lab ac ->
  forall rest pre node matches,
    is_lsuf lab (map (fold_case ic) pre) node ->
    exists node' new,
      foldM (scan_byte ac) (zip (seqZ (len pre) (len rest)) rest)
        (node, matches) = Ok (node', matches ++ new) /\
      Forall (rec_ok kws ic (pre ++ rest) (len pre) (len pre + len rest))
        new /\
      StronglySorted (fun a b => End_ a <= End_ b) new /\
      NoDup new.
Proof.
  intros Hok [Hs Hnd].
  induction rest as [|c rest IH]; intros pre node matches Hn.
  - exists node, []. rewrite app_nil_r.
    split_and!; [reflexivity|constructor|constructor|constructor].
  - simpl length. rewrite seqZ_cons by lia. cbn [zip zip_with foldM].
    rewrite (scan_byte_spec kws ic lab t ac _ c node matches Hok)
      by apply Hn.
    cbn [bind].
    set (node1 := NX ac node (fold_case ic c)).
    set (emitted := map (record ac (len pre)) (OT ac node1)).
    assert (Hn1 : is_lsuf lab (map (fold_case ic) (pre ++ [c])) node1).
    { rewrite map_app. simpl.
      eapply (is_lsuf_extend lab t (ok_trie _ _ _ _ _ Hok)); [exact Hn|].
      apply (ok_next _ _ _ _ _ Hok). apply Hn. }
    destruct (IH (pre ++ [c]) node1 (matches ++ emitted) Hn1)
      as (node' & new & E & Hnew & Hsort & Hnodup).
    rewrite length_app in E, Hnew. simpl length in E, Hnew.
    rewrite <- app_assoc in Hnew. simpl app in Hnew.
    replace (Z.succ (len pre)) with (Z.of_nat (length pre + 1)) by lia.
    replace (Z.pred (Z.of_nat (S (length rest)))) with (len rest) by lia.
    rewrite E. exists node', (emitted ++ new). rewrite app_assoc.
    split_and!.
    + reflexivity.
    + apply Forall_app. split.
      * apply Forall_forall. intros r Hr.
        apply list_elem_of_In, in_map_iff in Hr as (p & <- & Hp).
        apply list_elem_of_In in Hp.
        destruct (Hs node1 p (proj1 Hn1) Hp) as (j & k & -> & Hj & Hsuf).
        split; [simpl; lia|]. exists j, k. unfold record. simpl.
        rewrite Nat2Z.id, (ok_kw _ _ _ _ _ Hok), Hj. simpl.
        split_and!; auto. unfold ends_at.
        replace (Z.to_nat (len pre + 1)) with (length pre + 1)%nat by lia.
        rewrite take_app_add' by reflexivity.
        etrans; [exact Hsuf|]. apply Hn1.
      * eapply Forall_impl; [exact Hnew|]. intros r [Hr H]. split; [lia|].
        exact H.
    + apply StronglySorted_app_2;
        [|apply (sorted_same_end _ (len pre)); intros p; reflexivity
         |exact Hsort].
      intros x1 x2 H1 H2.
      apply list_elem_of_In, in_map_iff in H1 as (p & <- & _).
      rewrite Forall_forall in Hnew. destruct (Hnew x2 H2) as [Hr _].
      simpl. lia.
    + apply NoDup_app. split_and!; [| |exact Hnodup].
      * unfold emitted. rewrite map_fmap. apply NoDup_fmap_2.
        -- intros p q [= Hpq _]. exact Hpq.
        -- apply Hnd. apply Hn1.
      * intros x H1 H2.
        apply list_elem_of_In, in_map_iff in H1 as (p & <- & _).
        rewrite Forall_forall in Hnew. destruct (Hnew _ H2) as [Hr _].
        simpl in Hr. lia.
Qed.

Lemma findAll_sound kws ic lab t ac data :
  ac_ok kws ic lab t ac -> out_ok kws lab ac ->
  exists matches,
    _findAll ac data = Ok matches /\
    Forall (rec_ok kws ic data 0 (len data)) matches /\
    StronglySorted (fun a b => End_ a <= End_ b) matches /\
    NoDup matches.
Proof.
  intros Hok Hs. unfold _findAll.
  destruct (scan_loop_sound kws ic lab t ac Hok Hs data [] 0 [])
    as (node' & new & E & Hnew & Hsort & Hnodup).
  { apply (is_lsuf_nil lab t (ok_trie _ _ _ _ _ Hok)). }
  change (Z.of_nat (length (@nil ascii))) with 0 in E, Hnew.
  rewrite E. cbn [bind snd]. exists new. simpl in Hnew. auto.
Qed.

End AhoCorasickSound.

(** * Further theorems about the multi-pattern automaton *)

(** The record [r] stands for an occurrence: it carries the index of a
    pattern of the list, its end is the last position of the slice that
    starts at its start, the end lies in the text, and the pattern occurs
    at the start under the case policy. *)
Definition genuine (patterns : list string) (ic : bool) (data : list byte)
    (r : ahocorasick.ACMatch) : Prop :=
  exists (j : nat) P,
    ahocorasick.PatternIndex r = Z.of_nat j /\ patterns !! j = Some P /\
    ahocorasick.End_ r
      = ahocorasick.Start r + len (list_ascii_of_string P) - 1 /\
    0 <= ahocorasick.End_ r < len data /\
    occurs_at ic (list_ascii_of_string P) data (ahocorasick.Start r).

(** The records are in the order of their end positions. *)
Definition by_end (ms : list ahocorasick.ACMatch) : Prop :=
  StronglySorted
    (fun a b => ahocorasick.End_ a <= ahocorasick.End_ b) ms.

Lemma ends_occurs ic (P data : list byte) e :
  0 <= e < len data -> ends_at ic data (map (fold_case ic) P) e ->
  occurs_at ic P data (e - len P + 1).
Proof.
  intros He [w Hw].
  assert (Hlen : (length w + length P = Z.to_nat (e + 1))%nat).
  { apply (f_equal length) in Hw.
    rewrite length_map, length_take, length_app, length_map in Hw. lia. }
  unfold occurs_at, slice. split_and!; [lia|lia|].
  replace (Z.to_nat (e - len P + 1 + len P - (e - len P + 1)))
    with (length P) by lia.
  replace (Z.to_nat (e - len P + 1)) with (length w) by lia.
  rewrite take_drop_commute, Hlen.
  rewrite (map_fmap _ (drop _ _)), fmap_drop, <- map_fmap, Hw.
  rewrite drop_app_length. reflexivity.
Qed.

Lemma ac_search_sound (patterns : list string) (ic : bool)
    (data : list byte) :
  exists ac ms,
    ahocorasick.New patterns ic = Ok ac /\
    ahocorasick.FindAllBytes ac data = Ok ms /\
    ahocorasick.FindAll ac (string_of_list_ascii data) = Ok ms /\
    Forall (genuine patterns ic data) ms /\ by_end ms /\
    (forall (j : nat) P s, patterns !! j = Some P -> P <> ""%string ->
       occurs_at ic (list_ascii_of_string P) data s ->
       ahocorasick.mkACMatch (Z.of_nat j) s
         (s + len (list_ascii_of_string P) - 1) ∈ ms) /\
    0 < len (ahocorasick.next ac)
      <= 1 + Z.of_nat (sum_list_with String.length patterns) /\
    ahocorasick.ignoreCase ac = ic /\ NoDup ms.
Proof.
  destruct (New_sound patterns ic) as (ac & lab & t & E & Hok & Hs & Hsize).
  destruct (findAll_sound _ ic lab t ac data Hok Hs)
    as (ms & Ef & Hrec & Hsort & Hnodup).
  destruct (ac_search patterns ic data) as (ac' & ms' & E' & Ef' & Es' & _ & Hc).
  assert (ac' = ac) as -> by congruence.
  assert (ms' = ms) as ->.
  { unfold ahocorasick.FindAllBytes in Ef'. congruence. }
  exists ac, ms. split_and!; auto.
  - eapply Forall_impl; [exact Hrec|].
    intros r (He & j & k & Hj & Hk & Hst & Hends).
    rewrite (map_fmap (folded ic) patterns), list_lookup_fmap in Hk.
    destruct (patterns !! j) as [P|] eqn:HP; [|discriminate].
    injection Hk as <-.
    assert (Elen : length (folded ic P) = length (list_ascii_of_string P))
      by (unfold folded; apply length_map).
    rewrite Elen in Hst.
    exists j, P. split_and!; auto; try lia.
    rewrite Hst. apply ends_occurs; [exact He|exact Hends].
  - rewrite (ok_len_next _ _ _ _ _ Hok).
    apply (tr_size _ _ (ok_trie _ _ _ _ _ Hok)).
  - rewrite (ok_len_next _ _ _ _ _ Hok). lia.
  - apply (ok_ic _ _ _ _ _ Hok).
Qed.

(** X10. Every record returned by [FindAll]/[FindAllBytes] of the
    automaton stands for an occurrence: its pattern index is that of a
    pattern of the list, this pattern occurs in the text at the start of
    the record under the case policy, the end of the record is the last
    position of that occurrence and lies in the text. *)
Theorem ac_findAll_sound (patterns : list string) (ic : bool)
    (data : list byte) :
  exists ac ms,
    ahocorasick.New patterns ic = Ok ac /\
    ahocorasick.FindAllBytes ac data = Ok ms /\
    ahocorasick.FindAll ac (string_of_list_ascii data) = Ok ms /\
    Forall (genuine patterns ic data) ms.
Proof.
  destruct (ac_search_sound patterns ic data)
    as (ac & ms & E & Ef & Es & H & _).
  exists ac, ms. auto.
Qed.

(** X11. The records come in the order of their end positions: the end
    of a record is never greater than the end of a record reported after
    it. *)
Theorem ac_findAll_ordered (patterns : list string) (ic : bool)
    (data : list byte) :
  exists ac ms,
    ahocorasick.New patterns ic = Ok ac /\
    ahocorasick.FindAllBytes ac data = Ok ms /\
    ahocorasick.FindAll ac (string_of_list_ascii data) = Ok ms /\
    by_end ms.
Proof.
  destruct (ac_search_sound patterns ic data)
    as (ac & ms & E & Ef & Es & _ & H & _).
  exists ac, ms. auto.
Qed.

(** X12. When no pattern of the list is empty, [Contains]/[ContainsBytes]
    of the automaton answer true exactly when some pattern of the list
    occurs somewhere in the text under the case policy. *)
Theorem ac_contains_iff (patterns : list string) (ic : bool)
    (data : list byte) :
  Forall (fun P => P <> ""%string) patterns ->
  exists ac b,
    ahocorasick.New patterns ic = Ok ac /\
    ahocorasick.ContainsBytes ac data = Ok b /\
    ahocorasick.Contains ac (string_of_list_ascii data) = Ok b /\
    (b = true <->
     exists (j : nat) P s,
       patterns !! j = Some P /\
       occurs_at ic (list_ascii_of_string P) data s).
Proof.
  intros Hne.
  destruct (ac_search_sound patterns ic data)
    as (ac & ms & E & Ef & Es & Hsound & _ & Hc & _).
  exists ac, (0 <? len ms).
  unfold ahocorasick.ContainsBytes, ahocorasick.Contains.
  rewrite Ef, Es. cbn [bind]. split_and!; auto.
  rewrite len_pos_nonempty. split.
  - destruct ms as [|r ms]; [discriminate|]. intros _.
    apply Forall_cons in Hsound as [(j & P & _ & Hj & _ & _ & Hocc) _].
    eauto.
  - intros (j & P & s & Hj & Hocc).
    rewrite Forall_forall in Hne.
    assert (HP : P <> ""%string).
    { apply Hne. eapply list_elem_of_lookup_2. exact Hj. }
    pose proof (Hc j P s Hj HP Hocc) as Hin.
    destruct ms; [inversion Hin|reflexivity].
Qed.

Lemma ac_contains_iff_witness :
  exists ac,
    ahocorasick.New ["he"; "she"]%string false = Ok ac /\
    ahocorasick.ContainsBytes ac (list_ascii_of_string "ushers") = Ok true.
Proof.
  destruct (ac_contains_iff ["he"; "she"]%string false
              (list_ascii_of_string "ushers"))
    as (ac & b & E & Ec & _ & H).
  { repeat constructor; discriminate. }
  exists ac. split; [exact E|].
  assert (Hb : b = true).
  { apply H. exists 1%nat, "she"%string, 1. split; [reflexivity|].
    refine (bool_decide_eq_true_1 _ _). vm_compute. reflexivity. }
  rewrite Hb in Ec. exact Ec.
Defined.

(** X13. The automaton has at least the root and at most one further node
    per byte of the patterns: the number of rows of its transition table
    is bounded by one plus the total length of the patterns. *)
Theorem ac_node_count (patterns : list string) (ic : bool) :
  exists ac,
    ahocorasick.New patterns ic = Ok ac /\
    0 < len (ahocorasick.next ac)
      <= 1 + Z.of_nat (sum_list_with String.length patterns).
Proof.
  destruct (ac_search_sound patterns ic [])
    as (ac & ms & E & _ & _ & _ & _ & _ & H & _).
  exists ac. auto.
Qed.

(** X14. No record is reported twice, and [Count]/[CountBytes] count the
    records; when no pattern of the list is empty the records are exactly
    the occurrences of the patterns in the text, one record per pattern
    index and start, so that [Count] is the number of occurrences of all
    the patterns, overlapping ones included. *)
Theorem ac_findAll_exact (patterns : list string) (ic : bool)
    (data : list byte) :
  exists ac ms,
    ahocorasick.New patterns ic = Ok ac /\
    ahocorasick.FindAllBytes ac data = Ok ms /\
    ahocorasick.CountBytes ac data = Ok (len ms) /\
    ahocorasick.Count ac (string_of_list_ascii data) = Ok (len ms) /\
    NoDup ms /\
    (Forall (fun P => P <> ""%string) patterns ->
     forall r, r ∈ ms <->
       exists (j : nat) P s,
         patterns !! j = Some P /\
         occurs_at ic (list_ascii_of_string P) data s /\
         r = ahocorasick.mkACMatch (Z.of_nat j) s
               (s + len (list_ascii_of_string P) - 1)).
Proof.
  destruct (ac_search_sound patterns ic data)
    as (ac & ms & E & Ef & Es & Hsound & _ & Hc & _ & _ & Hnodup).
  exists ac, ms. unfold ahocorasick.CountBytes, ahocorasick.Count.
  rewrite Ef, Es. cbn [bind]. split_and!; auto.
  intros Hne r. split.
  - intros Hr. rewrite Forall_forall in Hsound.
    destruct (Hsound r Hr) as (j & P & Hj & HP & He & _ & Hocc).
    exists j, P, (ahocorasick.Start r). split_and!; auto.
    destruct r as [pi st en]. simpl in *. congruence.
  - intros (j & P & s & HP & Hocc & ->). rewrite Forall_forall in Hne.
    apply Hc; auto. apply Hne. eapply list_elem_of_lookup_2. exact HP.
Qed.

Lemma ac_findAll_exact_witness :
  exists ac ms,
    ahocorasick.New ["a"; "aa"]%string false = Ok ac /\
    ahocorasick.FindAllBytes ac (list_ascii_of_string "aaa") = Ok ms /\
    ahocorasick.mkACMatch 1 1 2 ∈ ms.
Proof.
  destruct (ac_findAll_exact ["a"; "aa"]%string false
              (list_ascii_of_string "aaa"))
    as (ac & ms & E & Ef & _ & _ & _ & H).
  exists ac, ms. split_and!; [exact E|exact Ef|].
  apply H; [repeat constructor; discriminate|].
  exists 1%nat, "aa"%string, 1. split_and!; [reflexivity| |reflexivity].
  refine (bool_decide_eq_true_1 _ _). vm_compute. reflexivity.
Defined.

(** ** Case folding *)

Section AhoCorasickFold.

Import ahocorasick.

Lemma scan_byte_fold ac i c c' st :
  ignoreCase ac = true -> to_lower c = to_lower c' ->
  scan_byte ac (i, c) st = scan_byte ac (i, c') st.
Proof.
  intros Hic Hc. unfold scan_byte. destruct st as [node matches].
  rewrite Hic. cbn [andb].
  change (if is_upper c then ascii_of_N (N_of_ascii c + 32) else c)
    with (to_lower c).
  change (if is_upper c' then ascii_of_N (N_of_ascii c' + 32) else c')
    with (to_lower c').
  rewrite Hc. reflexivity.
Qed.

Lemma scan_fold ac :
  ignoreCase ac = true ->
  forall data data' i st,
    map to_lower data = map to_lower data' ->
    foldM (scan_byte ac) (zip (seqZ i (len data)) data) st
    = foldM (scan_byte ac) (zip (seqZ i (len data')) data') st.
Proof.
  intros Hic. induction data as [|c data IH]; intros [|c' data'] i st E;
    try discriminate; [reflexivity|].
  injection E as Hc E. simpl length.
  rewrite (seqZ_cons i (Z.of_nat (S (length data)))) by lia.
  rewrite (seqZ_cons i (Z.of_nat (S (length data')))) by lia.
  cbn [zip zip_with foldM].
  rewrite (scan_byte_fold ac i c c' st Hic Hc).
  destruct (scan_byte ac (i, c') st) as [st'| |]; cbn [bind];
    [|reflexivity|reflexivity].
  replace (Z.pred (Z.of_nat (S (length data)))) with (len data) by lia.
  replace (Z.pred (Z.of_nat (S (length data')))) with (len data') by lia.
  apply IH. exact E.
Qed.

Lemma ac_New_folded (patterns patterns' : list string) :
  map (folded true) patterns = map (folded true) patterns' ->
  New patterns true = New patterns' true.
Proof.
  intros H. unfold New.
  assert (Ekw : forall ps, map (fun p : string =>
            let b := list_ascii_of_string p in
            if true then map to_lower b else b) ps
          = map (folded true) ps).
  { intros ps. apply map_ext. intros p. apply (folded_eq true). }
  cbv zeta in Ekw |- *. rewrite !Ekw, H. reflexivity.
Qed.

(** X15. A case-insensitive automaton does not see the case of ASCII
    letters: two pattern lists equal up to case give the same automaton,
    and that automaton returns the same records on two texts equal up to
    case. *)
Theorem ac_ignore_case_invariant (patterns patterns' : list string)
    (data data' : list byte) :
  map (folded true) patterns = map (folded true) patterns' ->
  map to_lower data = map to_lower data' ->
  exists ac ms,
    New patterns true = Ok ac /\ New patterns' true = Ok ac /\
    FindAllBytes ac data = Ok ms /\ FindAllBytes ac data' = Ok ms.
Proof.
  intros HP HT.
  destruct (ac_search_sound patterns true data)
    as (ac & ms & E & Ef & _ & _ & _ & _ & _ & Hic & _).
  exists ac, ms. split_and!; auto.
  - rewrite <- (ac_New_folded _ _ HP). exact E.
  - unfold FindAllBytes, _findAll in Ef |- *.
    rewrite <- (scan_fold ac Hic data data' 0 _ HT). exact Ef.
Qed.

Lemma ac_ignore_case_invariant_witness :
  exists ac ms,
    New ["He"; "SHE"]%string true = Ok ac /\
    New ["hE"; "she"]%string true = Ok ac /\
    FindAllBytes ac (list_ascii_of_string "uSHers") = Ok ms /\
    FindAllBytes ac (list_ascii_of_string "UsheRS") = Ok ms.
Proof.
  apply (ac_ignore_case_invariant ["He"; "SHE"]%string ["hE"; "she"]%string
           (list_ascii_of_string "uSHers") (list_ascii_of_string "UsheRS"));
    reflexivity.
Defined.

End AhoCorasickFold.

(** * The two packages against each other *)

(** X16. On a single non-empty pattern the two packages agree: the
    automaton built from the one-element list reports a record for
    pattern 0 at exactly the starts that the single-pattern matcher
    returns, each with the end that the length of the pattern gives, and
    nothing else. *)
Theorem bm_ac_agree (pattern : string) (ic : bool) (data : list byte) :
  pattern <> ""%string ->
  exists bm ac rs ms,
    boyermoore.New pattern ic = Ok bm /\
    ahocorasick.New [pattern] ic = Ok ac /\
    boyermoore.FindAllBytes bm data = Ok rs /\
    ahocorasick.FindAllBytes ac data = Ok ms /\
    (forall s, s ∈ rs ->
       ahocorasick.mkACMatch 0 s
         (s + len (list_ascii_of_string pattern) - 1) ∈ ms) /\
    (forall r, r ∈ ms ->
       ahocorasick.PatternIndex r = 0 /\ ahocorasick.Start r ∈ rs /\
       ahocorasick.End_ r
         = ahocorasick.Start r + len (list_ascii_of_string pattern) - 1).
Proof.
  intros Hne.
  destruct (bm_search pattern ic data)
    as (bm & rs & E & Eb & _ & Hsound & Hcompl).
  destruct (ac_search_sound [pattern] ic data)
    as (ac & ms & E' & Ef' & _ & Hsound' & _ & Hcompl' & _).
  exists bm, ac, rs, ms. split_and!; auto.
  - intros s Hs. rewrite Forall_forall in Hsound.
    apply (Hcompl' 0%nat pattern s eq_refl Hne). apply Hsound. exact Hs.
  - intros r Hr. rewrite Forall_forall in Hsound'.
    destruct (Hsound' r Hr) as (j & P & Hj & HP & He & _ & Hocc).
    destruct j as [|j]; [|destruct j; discriminate].
    injection HP as <-. split_and!; auto.
Qed.

Lemma bm_ac_agree_witness :
  exists bm ac rs ms,
    boyermoore.New "aa" false = Ok bm /\
    ahocorasick.New ["aa"]%string false = Ok ac /\
    boyermoore.FindAllBytes bm (list_ascii_of_string "aaa") = Ok rs /\
    ahocorasick.FindAllBytes ac (list_ascii_of_string "aaa") = Ok ms /\
    (1 ∈ rs -> ahocorasick.mkACMatch 0 1 2 ∈ ms).
Proof.
  destruct (bm_ac_agree "aa" false (list_ascii_of_string "aaa"))
    as (bm & ac & rs & ms & E & E' & Eb & Ef & H & _); [discriminate|].
  exists bm, ac, rs, ms. split_and!; [exact E|exact E'|exact Eb|exact Ef|].
  intros H1. apply (H 1 H1).
Defined.

(** * The case fold *)

Lemma to_lower_spec c :
  (is_upper c = true -> byteZ (to_lower c) = byteZ c + 32) /\
  (is_upper c = false -> to_lower c = c).
Proof.
  destruct c as [[] [] [] [] [] [] [] []]; vm_compute; split; congruence.
Qed.

Lemma is_upper_spec c : is_upper c = true <-> 65 <= byteZ c <= 90.
Proof. unfold is_upper. rewrite andb_true_iff, !Z.leb_le. reflexivity. Qed.

(** X17. [normChar] is the identity when [ignoreCase] is unset; when it is
    set, it maps the 26 upper-case ASCII letters to the lower-case letters
    32 code points above, without wrapping, leaves every other byte
    unchanged, and applying it twice is applying it once. *)
Theorem normChar_spec (bm : boyermoore.BoyerMoore) (c : byte) :
  (boyermoore.ignoreCase bm = false -> boyermoore.normChar bm c = c) /\
  (boyermoore.ignoreCase bm = true -> 65 <= byteZ c <= 90 ->
   byteZ (boyermoore.normChar bm c) = byteZ c + 32) /\
  (~ 65 <= byteZ c <= 90 -> boyermoore.normChar bm c = c) /\
  boyermoore.normChar bm (boyermoore.normChar bm c)
    = boyermoore.normChar bm c.
Proof.
  rewrite !normChar_fold. unfold fold_case.
  pose proof (to_lower_spec c) as [Hu Hn].
  pose proof (is_upper_spec c) as Hc.
  destruct (boyermoore.ignoreCase bm); split_and!; try congruence.
  - intros _ H. apply Hu, Hc, H.
  - intros H. apply Hn. destruct (is_upper c); [|reflexivity].
    exfalso. apply H, Hc. reflexivity.
  - apply to_lower_idem.
Qed.

Lemma normChar_spec_witness :
  byteZ (boyermoore.normChar
           (boyermoore.mkBoyerMoore [] true (fun _ => 0) []) "Q") = 113.
Proof.
  apply (normChar_spec (boyermoore.mkBoyerMoore [] true (fun _ => 0) []) "Q");
    [reflexivity|vm_compute; split; discriminate].
Defined.

(** X18. Ignoring case only adds records: when no pattern of the list is
    empty, every record of the case-sensitive automaton is also a record
    of the case-insensitive automaton built from the same list, on every
    text. *)
Theorem ac_case_sensitive_subset (patterns : list string)
    (data : list byte) :
  Forall (fun P => P <> ""%string) patterns ->
  exists ac_cs ac_ci ms_cs ms_ci,
    ahocorasick.New patterns false = Ok ac_cs /\
    ahocorasick.New patterns true = Ok ac_ci /\
    ahocorasick.FindAllBytes ac_cs data = Ok ms_cs /\
    ahocorasick.FindAllBytes ac_ci data = Ok ms_ci /\
    ms_cs ⊆ ms_ci.
Proof.
  intros Hne.
  destruct (ac_search_sound patterns false data)
    as (ac & ms & E & Ef & _ & Hsound & _).
  destruct (ac_search_sound patterns true data)
    as (ac' & ms' & E' & Ef' & _ & _ & _ & Hc' & _).
  exists ac, ac', ms, ms'. split_and!; auto.
  intros r Hr. rewrite Forall_forall in Hsound. rewrite Forall_forall in Hne.
  destruct (Hsound r Hr) as (j & P & Hj & HP & He & _ & Hocc).
  assert (HPne : P <> ""%string).
  { apply Hne. eapply list_elem_of_lookup_2. exact HP. }
  pose proof (Hc' j P _ HP HPne (occurs_at_fold_weaken _ _ _ Hocc)) as Hin.
  destruct r as [pi st en]. simpl in *. subst pi en. exact Hin.
Qed.

Lemma ac_case_sensitive_subset_witness :
  exists ac_cs ac_ci ms_cs ms_ci,
    ahocorasick.New ["he"; "She"]%string false = Ok ac_cs /\
    ahocorasick.New ["he"; "She"]%string true = Ok ac_ci /\
    ahocorasick.FindAllBytes ac_cs (list_ascii_of_string "uShers")
      = Ok ms_cs /\
    ahocorasick.FindAllBytes ac_ci (list_ascii_of_string "uShers")
      = Ok ms_ci /\
    ms_cs ⊆ ms_ci.
Proof.
  apply (ac_case_sensitive_subset ["he"; "She"]%string
           (list_ascii_of_string "uShers")).
  repeat constructor; discriminate.
Defined.
